(** * Undirected-graph analysis library: model and verification

    Shallow embedding of [lib/representations.py] and [lib/graph.py].
    Python integers are [Z]; a [dict] is a [gmap], a [set] is a [gset];
    the NumPy matrix of the dense representation is a list of rows.
    Exceptions are explicit results; code that mutates an object returns
    the object as it is left behind, also when it raises. *)

From stdpp Require Import gmap list sorting numbers.

Local Open Scope Z_scope.

(** ** Exceptions and results *)

Inductive exn : Type :=
  | ValueError
  | KeyError
  | IndexError.

Inductive outcome (A : Type) : Type :=
  | Return (a : A)
  | Raise (e : exn).
Arguments Return {A} a.
Arguments Raise {A} e.

Definition outcome_bind {A B : Type} (m : outcome A) (k : A → outcome B) : outcome B :=
  match m with
  | Return a => k a
  | Raise e => Raise e
  end.

Notation "'do' x <- m ; k" := (outcome_bind m (λ x, k))
  (at level 10, x pattern, m at level 100, k at level 200,
   format "'[v' 'do'  x  <-  m ; '/' k ']'").

(** ** Python built-ins used by the library *)

(** [range(1, n + 1)] *)
Definition range1 (n : Z) : list Z := seqZ 1 n.

(** [d[k]] on a dictionary: [KeyError] when the key is absent. *)
Definition getitem {V : Type} (d : gmap Z V) (k : Z) : outcome V :=
  match d !! k with
  | Some x => Return x
  | None => Raise KeyError
  end.

(** [sorted(l, key=key, reverse=reverse)]: a stable sort, also when reversed
    (elements with equal keys keep their original order). *)
Fixpoint sorted_insert {A : Type} (before : A → A → bool) (x : A) (l : list A) : list A :=
  match l with
  | [] => [x]
  | y :: l' => if before x y then x :: y :: l' else y :: sorted_insert before x l'
  end.

Definition sorted {A : Type} (key : A → Z) (reverse : bool) (l : list A) : list A :=
  foldr (sorted_insert (λ x y, if reverse then key y <=? key x else key x <=? key y)) [] l.

(** [max(l)]: [ValueError] on an empty sequence. *)
Definition py_max (l : list Z) : outcome Z :=
  match l with
  | [] => Raise ValueError
  | x :: l' => Return (foldl Z.max x l')
  end.

(** [l.pop()]: the last element of a list and the list without it. *)
Definition list_pop {A : Type} (l : list A) : option (list A * A) :=
  match reverse l with
  | [] => None
  | x :: r => Some (reverse r, x)
  end.

(** [min(l)]: [ValueError] on an empty sequence. *)
Definition py_min (l : list Z) : outcome Z :=
  match l with
  | [] => Raise ValueError
  | x :: l' => Return (foldl Z.min x l')
  end.

(** [l[i]] on a list: indices in [-len, -1] count from the end, anything
    else outside [0, len) is an [IndexError]. *)
Definition list_getitem {A : Type} (l : list A) (i : Z) : outcome A :=
  let i' := if decide (i < 0) then i + Z.of_nat (length l) else i in
  if decide (i' < 0) then Raise IndexError
  else
    match l !! Z.to_nat i' with
    | Some x => Return x
    | None => Raise IndexError
    end.

(** The floating-point numbers [get_degree_metrics] computes.  Their
    arithmetic is a parameter of the model: the quotient [a / b] of two
    integers with [b] not 0, and [np.mean] of a list of integers that is
    not empty. *)
Class FloatArithmetic : Type := {
  float : Type;
  truediv : Z → Z → float;
  np_mean : list Z → float
}.

(** A Python number that is an [int] or a [float]. *)
Inductive number `{FloatArithmetic} : Type :=
  | Int (z : Z)
  | Float (x : float).

(** Iterating over a Python [set] enumerates its elements once each, in an
    order the language leaves open.  The order is a parameter of the model. *)
Class SetIteration : Type := {
  set_to_list : gset Z → list Z;
  set_to_list_perm : ∀ X : gset Z, set_to_list X ≡ₚ elements X
}.

(** One admissible iteration order, used to run the model on examples. *)
Definition elements_iteration : SetIteration :=
  {| set_to_list := elements; set_to_list_perm := λ X, reflexivity (elements X) |}.

(** ** representations.py *)

Class GraphRepresentation (R : Type) : Type := {
  rep_init : Z → outcome R;
  rep_add_edge : Z → Z → R → outcome unit * R;
  rep_get_neighbors : R → Z → outcome (list Z);
  rep_edge_count : R → Z
}.

Module AdjacencyList.

Record t : Type := mk {
  _adj : gmap Z (gset Z);
  _edge_count : Z
}.

Definition init (num_vertices : Z) : outcome t :=
  Return {| _adj := list_to_map ((λ i, (i, ∅)) <$> range1 num_vertices);
            _edge_count := 0 |}.

(** [self._adj[u]] may raise before anything is written; [self._adj[v]]
    is looked up after [self._adj[u].add(v)] has been done. *)
Definition add_edge (u v : Z) (r : t) : outcome unit * t :=
  match _adj r !! u with
  | None => (Raise KeyError, r)
  | Some su =>
      if decide (v ∈ su) then (Return (), r)
      else
        let r1 := {| _adj := <[u := su ∪ {[v]}]> (_adj r);
                     _edge_count := _edge_count r |} in
        match _adj r1 !! v with
        | None => (Raise KeyError, r1)
        | Some sv =>
            (Return (),
             {| _adj := <[v := sv ∪ {[u]}]> (_adj r1);
                _edge_count := _edge_count r1 + 1 |})
        end
  end.

Definition get_neighbors `{SetIteration} (r : t) (v : Z) : outcome (list Z) :=
  do s <- getitem (_adj r) v;
  Return (set_to_list s).

Definition edge_count (r : t) : Z := _edge_count r.

End AdjacencyList.

Module AdjacencyMatrix.

(** [np.zeros((n, n), dtype=np.uint8)]; the only values ever stored are
    0 and 1, so the entries are kept as [Z]. *)
Record t : Type := mk {
  _matrix : list (list Z);
  _edge_count : Z
}.

(** NumPy index normalisation along an axis of length [len]: indices in
    [-len, -1] count from the end, anything else outside [0, len) is an
    [IndexError]. *)
Definition np_index (len : nat) (i : Z) : outcome nat :=
  if decide (0 ≤ i < Z.of_nat len) then Return (Z.to_nat i)
  else if decide (- Z.of_nat len ≤ i < 0) then Return (Z.to_nat (i + Z.of_nat len))
  else Raise IndexError.

Definition getrow (m : list (list Z)) (i : Z) : outcome (list Z) :=
  do i' <- np_index (length m) i;
  match m !! i' with
  | Some row => Return row
  | None => Raise IndexError
  end.

(** [m[i, j]]; the matrix is square, both axes have length [length m]. *)
Definition getitem2 (m : list (list Z)) (i j : Z) : outcome Z :=
  do i' <- np_index (length m) i;
  do j' <- np_index (length m) j;
  match m !! i' with
  | Some row =>
      match row !! j' with
      | Some x => Return x
      | None => Raise IndexError
      end
  | None => Raise IndexError
  end.

(** [m[i, j] = x] *)
Definition setitem2 (m : list (list Z)) (i j : Z) (x : Z) : outcome (list (list Z)) :=
  do i' <- np_index (length m) i;
  do j' <- np_index (length m) j;
  match m !! i' with
  | Some row => Return (<[i' := <[j' := x]> row]> m)
  | None => Raise IndexError
  end.

(** [np.nonzero(row)[0]]: the positions of the non-zero entries, ascending. *)
Fixpoint nonzero_from (i : Z) (row : list Z) : list Z :=
  match row with
  | [] => []
  | x :: row' =>
      if decide (x = 0) then nonzero_from (i + 1) row'
      else i :: nonzero_from (i + 1) row'
  end.

Definition nonzero (row : list Z) : list Z := nonzero_from 0 row.

Definition init (num_vertices : Z) : outcome t :=
  if decide (num_vertices < 0) then Raise ValueError
  else
    let n := Z.to_nat num_vertices in
    Return {| _matrix := replicate n (replicate n 0); _edge_count := 0 |}.

Definition add_edge (u v : Z) (r : t) : outcome unit * t :=
  let u_idx := u - 1 in
  let v_idx := v - 1 in
  match getitem2 (_matrix r) u_idx v_idx with
  | Raise e => (Raise e, r)
  | Return x =>
      if decide (x = 0) then
        match setitem2 (_matrix r) u_idx v_idx 1 with
        | Raise e => (Raise e, r)
        | Return m1 =>
            let r1 := {| _matrix := m1; _edge_count := _edge_count r |} in
            match setitem2 m1 v_idx u_idx 1 with
            | Raise e => (Raise e, r1)
            | Return m2 =>
                (Return (), {| _matrix := m2; _edge_count := _edge_count r1 + 1 |})
            end
        end
      else (Return (), r)
  end.

Definition get_neighbors (r : t) (v : Z) : outcome (list Z) :=
  let v_idx := v - 1 in
  do row <- getrow (_matrix r) v_idx;
  let neighbors_indices := nonzero row in
  Return ((λ i, i + 1) <$> neighbors_indices).

Definition edge_count (r : t) : Z := _edge_count r.

End AdjacencyMatrix.

#[export] Instance AdjacencyList_rep `{SetIteration} : GraphRepresentation AdjacencyList.t :=
  {| rep_init := AdjacencyList.init;
     rep_add_edge := AdjacencyList.add_edge;
     rep_get_neighbors := AdjacencyList.get_neighbors;
     rep_edge_count := AdjacencyList.edge_count |}.

#[export] Instance AdjacencyMatrix_rep : GraphRepresentation AdjacencyMatrix.t :=
  {| rep_init := AdjacencyMatrix.init;
     rep_add_edge := AdjacencyMatrix.add_edge;
     rep_get_neighbors := AdjacencyMatrix.get_neighbors;
     rep_edge_count := AdjacencyMatrix.edge_count |}.

(** ** graph.py *)

Module GraphUtils.

Definition is_vertex_within_bounds (v num_vertices : Z) : bool :=
  (1 <=? v) && (v <=? num_vertices).

End GraphUtils.

(** A search that has not finished when its fuel is used up yields [None];
    [Some] carries what the Python call returns or raises. *)
Definition search_bind {A B : Type} (m : option (outcome A))
    (k : A → option (outcome B)) : option (outcome B) :=
  match m with
  | None => None
  | Some (Raise e) => Some (Raise e)
  | Some (Return a) => k a
  end.

Notation "'run' x <- m ; k" := (search_bind m (λ x, k))
  (at level 10, x pattern, m at level 100, k at level 200,
   format "'[v' 'run'  x  <-  m ; '/' k ']'").

Module Graph.

Record t (R : Type) : Type := mk {
  _num_vertices : Z;
  _representation : R;
  _all_degrees_cache : option (list Z)
}.
Arguments mk {R} _ _ _.
Arguments _num_vertices {R} _.
Arguments _representation {R} _.
Arguments _all_degrees_cache {R} _.

(** State of the breadth-first search loop. *)
Record bfs_state : Type := mk_bfs {
  bfs_parents : gmap Z (option Z);
  bfs_levels : gmap Z Z;
  bfs_queue : list Z
}.

(** State of the depth-first search loop; the top of the stack is the
    last element of the list. *)
Record dfs_state : Type := mk_dfs {
  dfs_parents : gmap Z (option Z);
  dfs_levels : gmap Z Z;
  dfs_stack : list (Z * Z);
  dfs_visited : gset Z
}.

(** One entry of the list [get_connected_components] returns. *)
Record component : Type := mk_component {
  size : Z;
  vertices : list Z
}.

(** State of the flood fill of one component. *)
Record fill_state : Type := mk_fill {
  fill_visited : gset Z;
  fill_component_nodes : gset Z;
  fill_queue : list Z
}.

(** The dictionary [get_degree_metrics] returns. *)
Record degree_metrics `{FloatArithmetic} : Type := mk_metrics {
  min_degree : Z;
  max_degree : Z;
  avg_degree : number;
  median_degree : number
}.

(** The calls of the facade that can change a graph. *)
Inductive call : Type :=
  | AddEdge (u v : Z)
  | CalculateAllDegrees.

Section operations.
Context {R : Type} `{GraphRepresentation R}.

Definition init (num_vertices : Z) : outcome (t R) :=
  if decide (num_vertices ≤ 0) then Raise ValueError
  else
    do r <- rep_init num_vertices;
    Return {| _num_vertices := num_vertices;
              _representation := r;
              _all_degrees_cache := None |}.

Definition _invalidate_degree_cache (g : t R) : t R :=
  {| _num_vertices := _num_vertices g;
     _representation := _representation g;
     _all_degrees_cache := None |}.

Definition vertex_count (g : t R) : Z := _num_vertices g.

Definition edge_count (g : t R) : Z := rep_edge_count (_representation g).

Definition add_edge (u v : Z) (g : t R) : outcome unit * t R :=
  if negb (GraphUtils.is_vertex_within_bounds u (_num_vertices g)
           && GraphUtils.is_vertex_within_bounds v (_num_vertices g))
  then (Raise ValueError, g)
  else
    match rep_add_edge u v (_representation g) with
    | (Raise e, r') =>
        (Raise e, {| _num_vertices := _num_vertices g;
                     _representation := r';
                     _all_degrees_cache := _all_degrees_cache g |})
    | (Return _, r') =>
        (Return (),
         _invalidate_degree_cache
           {| _num_vertices := _num_vertices g;
              _representation := r';
              _all_degrees_cache := _all_degrees_cache g |})
    end.

Definition get_neighbors (g : t R) (v : Z) : outcome (list Z) :=
  if negb (GraphUtils.is_vertex_within_bounds v (_num_vertices g))
  then Raise ValueError
  else rep_get_neighbors (_representation g) v.

(** [[len(self.get_neighbors(i)) for i in range(1, n + 1)]] *)
Fixpoint degrees_of (g : t R) (vs : list Z) : outcome (list Z) :=
  match vs with
  | [] => Return []
  | i :: vs' =>
      do ns <- get_neighbors g i;
      do ds <- degrees_of g vs';
      Return (Z.of_nat (length ns) :: ds)
  end.

Definition _calculate_all_degrees (g : t R) : outcome (list Z) * t R :=
  match _all_degrees_cache g with
  | Some ds => (Return ds, g)
  | None =>
      match degrees_of g (range1 (vertex_count g)) with
      | Raise e => (Raise e, g)
      | Return ds =>
          (Return ds,
           {| _num_vertices := _num_vertices g;
              _representation := _representation g;
              _all_degrees_cache := Some ds |})
      end
  end.

(** [sorted_degrees[n // 2]], or the mean of the two entries in the middle. *)
Definition median_of `{FloatArithmetic} (sorted_degrees : list Z) : outcome number :=
  let n := Z.of_nat (length sorted_degrees) in
  let median := Int 0 in
  if decide (n > 0) then
    if decide (n `mod` 2 = 1) then
      do median <- list_getitem sorted_degrees (n `div` 2);
      Return (Int median)
    else
      do mid1 <- list_getitem sorted_degrees (n `div` 2 - 1);
      do mid2 <- list_getitem sorted_degrees (n `div` 2);
      Return (Float (truediv (mid1 + mid2) 2))
  else Return median.

Definition get_degree_metrics `{FloatArithmetic} (g : t R)
    : outcome degree_metrics * t R :=
  match _calculate_all_degrees g with
  | (Raise e, g') => (Raise e, g')
  | (Return degrees, g') =>
      let sorted_degrees := sorted id false degrees in
      (do median <- median_of sorted_degrees;
       do min_degree <- (if degrees is [] then Return 0 else py_min degrees);
       do max_degree <- (if degrees is [] then Return 0 else py_max degrees);
       Return {| min_degree := min_degree;
                 max_degree := max_degree;
                 avg_degree := if degrees is [] then Int 0 else Float (np_mean degrees);
                 median_degree := median |},
       g')
  end.

(** *** Breadth-first search *)

(** Body of [for v in self.get_neighbors(u)]. *)
Definition bfs_visit (u v : Z) (st : bfs_state) : outcome bfs_state :=
  do lv <- getitem (bfs_levels st) v;
  if decide (lv = -1) then
    do lu <- getitem (bfs_levels st) u;
    Return {| bfs_parents := <[v := Some u]> (bfs_parents st);
              bfs_levels := <[v := lu + 1]> (bfs_levels st);
              bfs_queue := bfs_queue st ++ [v] |}
  else Return st.

Fixpoint bfs_for (u : Z) (vs : list Z) (st : bfs_state) : outcome bfs_state :=
  match vs with
  | [] => Return st
  | v :: vs' =>
      do st' <- bfs_visit u v st;
      bfs_for u vs' st'
  end.

(** [while queue: ...]; one unit of fuel per test of the loop condition. *)
Fixpoint bfs_while (fuel : nat) (g : t R) (st : bfs_state)
    : option (outcome (gmap Z (option Z) * gmap Z Z)) :=
  match fuel with
  | O => None
  | S fuel' =>
      match bfs_queue st with
      | [] => Some (Return (bfs_parents st, bfs_levels st))
      | u :: queue' =>
          match get_neighbors g u with
          | Raise e => Some (Raise e)
          | Return ns =>
              match bfs_for u ns {| bfs_parents := bfs_parents st;
                                    bfs_levels := bfs_levels st;
                                    bfs_queue := queue' |} with
              | Raise e => Some (Raise e)
              | Return st' => bfs_while fuel' g st'
              end
          end
      end
  end.

(** [{v: x for v in range(1, n + 1)}] *)
Definition dict_of_range {V : Type} (n : Z) (x : V) : gmap Z V :=
  list_to_map ((λ v, (v, x)) <$> range1 n).

(** Every vertex enters the queue at most once, so the loop condition is
    tested at most [vertex_count + 1] times. *)
Definition search_fuel (g : t R) : nat := S (Z.to_nat (vertex_count g)).

Definition breadth_first_search (g : t R) (start_vertex : Z)
    : option (outcome (gmap Z (option Z) * gmap Z Z)) :=
  if negb (GraphUtils.is_vertex_within_bounds start_vertex (vertex_count g))
  then Some (Raise ValueError)
  else
    let parents := dict_of_range (vertex_count g) (None : option Z) in
    let levels := dict_of_range (vertex_count g) (-1) in
    let queue := [start_vertex] in
    let levels := <[start_vertex := 0]> levels in
    bfs_while (search_fuel g) g
      {| bfs_parents := parents; bfs_levels := levels; bfs_queue := queue |}.

(** *** Depth-first search *)

Definition dfs_visit (u level v : Z) (st : dfs_state) : dfs_state :=
  if decide (v ∈ dfs_visited st) then st
  else
    {| dfs_parents := <[v := Some u]> (dfs_parents st);
       dfs_levels := <[v := level + 1]> (dfs_levels st);
       dfs_stack := dfs_stack st ++ [(v, level + 1)];
       dfs_visited := dfs_visited st ∪ {[v]} |}.

Definition dfs_for (u level : Z) (vs : list Z) (st : dfs_state) : dfs_state :=
  foldl (λ st v, dfs_visit u level v st) st vs.

Fixpoint dfs_while (fuel : nat) (g : t R) (st : dfs_state)
    : option (outcome (gmap Z (option Z) * gmap Z Z)) :=
  match fuel with
  | O => None
  | S fuel' =>
      match list_pop (dfs_stack st) with
      | None => Some (Return (dfs_parents st, dfs_levels st))
      | Some (stack', (u, level)) =>
          match get_neighbors g u with
          | Raise e => Some (Raise e)
          | Return ns =>
              dfs_while fuel' g
                (dfs_for u level (sorted id true ns)
                   {| dfs_parents := dfs_parents st;
                      dfs_levels := dfs_levels st;
                      dfs_stack := stack';
                      dfs_visited := dfs_visited st |})
          end
      end
  end.

Definition depth_first_search (g : t R) (start_vertex : Z)
    : option (outcome (gmap Z (option Z) * gmap Z Z)) :=
  if negb ((1 <=? start_vertex) && (start_vertex <=? vertex_count g))
  then Some (Raise ValueError)
  else
    let parents := dict_of_range (vertex_count g) (None : option Z) in
    let levels := dict_of_range (vertex_count g) (-1) in
    let stack := [(start_vertex, 0)] in
    let visited : gset Z := {[start_vertex]} in
    let parents := <[start_vertex := None]> parents in
    let levels := <[start_vertex := 0]> levels in
    dfs_while (search_fuel g) g
      {| dfs_parents := parents; dfs_levels := levels;
         dfs_stack := stack; dfs_visited := visited |}.

(** *** Distance and diameter *)

Definition get_distance (g : t R) (u v : Z) : option (outcome Z) :=
  run result <- breadth_first_search g u;
  let levels := result.2 in
  Some (getitem levels v).

(** [levels.values()] *)
Definition dict_values {V : Type} (d : gmap Z V) : list V := (map_to_list d).*2.

Fixpoint diameter_for (g : t R) (vs : list Z) (max_dist : Z) : option (outcome Z) :=
  match vs with
  | [] => Some (Return max_dist)
  | i :: vs' =>
      run result <- breadth_first_search g i;
      let levels := result.2 in
      run current_max <- Some (py_max (dict_values levels));
      if decide (current_max > max_dist)
      then diameter_for g vs' current_max
      else diameter_for g vs' max_dist
  end.

Definition get_diameter (g : t R) : option (outcome Z) :=
  let max_dist := 0 in
  diameter_for g (range1 (vertex_count g)) max_dist.

(** *** Connected components *)

Definition fill_visit (neighbor : Z) (st : fill_state) : fill_state :=
  if decide (neighbor ∈ fill_visited st) then st
  else
    {| fill_visited := fill_visited st ∪ {[neighbor]};
       fill_component_nodes := fill_component_nodes st ∪ {[neighbor]};
       fill_queue := fill_queue st ++ [neighbor] |}.

Definition fill_for (vs : list Z) (st : fill_state) : fill_state :=
  foldl (λ st neighbor, fill_visit neighbor st) st vs.

Fixpoint fill_while (fuel : nat) (g : t R) (st : fill_state)
    : option (outcome fill_state) :=
  match fuel with
  | O => None
  | S fuel' =>
      match fill_queue st with
      | [] => Some (Return st)
      | u :: queue' =>
          match get_neighbors g u with
          | Raise e => Some (Raise e)
          | Return ns =>
              fill_while fuel' g
                (fill_for ns {| fill_visited := fill_visited st;
                                fill_component_nodes := fill_component_nodes st;
                                fill_queue := queue' |})
          end
      end
  end.

(** [for v in range(1, n + 1)] of [get_connected_components]. *)
Fixpoint components_for `{SetIteration} (g : t R) (vs : list Z)
    (visited : gset Z) (components : list component)
    : option (outcome (list component)) :=
  match vs with
  | [] => Some (Return components)
  | v :: vs' =>
      if decide (v ∈ visited) then components_for g vs' visited components
      else
        run st <- fill_while (search_fuel g) g
                    {| fill_visited := visited ∪ {[v]};
                       fill_component_nodes := {[v]};
                       fill_queue := [v] |};
        components_for g vs' (fill_visited st)
          (components ++
             [{| size := Z.of_nat (stdpp.base.size (fill_component_nodes st));
                 vertices := sorted id false (set_to_list (fill_component_nodes st)) |}])
  end.

Definition get_connected_components `{SetIteration} (g : t R)
    : option (outcome (list component)) :=
  run components <- components_for g (range1 (vertex_count g)) ∅ [];
  Some (Return (sorted size true components)).

(** A client of the facade: it builds a graph and then issues calls that
    can change it, [add_edge] (accepted or rejected) and the degree
    computation that fills the cache, going on after each call with the
    graph as the call left it. *)
Definition run_call (c : call) (g : t R) : t R :=
  match c with
  | AddEdge u v => (add_edge u v g).2
  | CalculateAllDegrees => (_calculate_all_degrees g).2
  end.

Definition run_calls (cs : list call) (g : t R) : t R :=
  foldl (λ g c, run_call c g) g cs.

Definition build (num_vertices : Z) (cs : list call) : outcome (t R) :=
  do g <- init num_vertices;
  Return (run_calls cs g).

End operations.

End Graph.

(** ** Example graphs *)

(** Five vertices and the edges (1,2), (2,3), (4,5). *)
Definition example_calls : list Graph.call :=
  [Graph.AddEdge 1 2; Graph.AddEdge 2 3; Graph.AddEdge 4 5].

Definition example_dense : Graph.t AdjacencyMatrix.t :=
  Graph.run_calls example_calls
    (Graph.mk 5 (AdjacencyMatrix.mk (replicate 5 (replicate 5 0)) 0) None).

(** The same edges in another order, each once more or in the other
    direction, with a rejected call and a degree computation in between. *)
Definition reordered_calls : list Graph.call :=
  [Graph.AddEdge 5 4; Graph.AddEdge 3 2; Graph.CalculateAllDegrees; Graph.AddEdge 9 1;
   Graph.AddEdge 2 1; Graph.AddEdge 1 2].


(** The dense representation of three vertices without edges. *)
Definition example_empty_matrix : AdjacencyMatrix.t :=
  AdjacencyMatrix.mk (replicate 3 (replicate 3 0)) 0.

(** An arithmetic for the examples: a float is kept as the fraction it
    rounds. *)
Definition fraction_arithmetic : FloatArithmetic :=
  {| float := Z * Z;
     truediv a b := (a, b);
     np_mean l := (foldr Z.add 0 l, Z.of_nat (length l)) |}.

(** * Specification vocabulary *)

(** The set of vertices a representation enumerates as adjacent to [w]. *)
Definition rep_neighbor_set {R : Type} `{GraphRepresentation R} (r : R) (w : Z) : gset Z :=
  match rep_get_neighbors r w with
  | Return ns => list_to_set ns
  | Raise _ => ∅
  end.

(** What the facade relies on: on vertices of [1, N] a representation
    stores adjacency sets, [add_edge] adds the pair in both directions
    when it is new and does nothing otherwise, and [get_neighbors]
    enumerates without repetition. *)
Class FaithfulRepresentation (R : Type) `{GraphRepresentation R} : Type := {
  rep_inv : Z → R → Prop;
  rep_init_ok : ∀ N, 0 < N →
    ∃ r, rep_init N = Return r ∧ rep_inv N r ∧ rep_edge_count r = 0 ∧
         ∀ w, 1 ≤ w ≤ N → rep_neighbor_set r w = ∅;
  rep_get_neighbors_ok : ∀ N r w, rep_inv N r → 1 ≤ w ≤ N →
    ∃ ns, rep_get_neighbors r w = Return ns ∧ NoDup ns;
  rep_add_edge_present : ∀ N r u v, rep_inv N r → 1 ≤ u ≤ N → 1 ≤ v ≤ N →
    v ∈ rep_neighbor_set r u → rep_add_edge u v r = (Return (), r);
  rep_add_edge_fresh : ∀ N r u v, rep_inv N r → 1 ≤ u ≤ N → 1 ≤ v ≤ N →
    v ∉ rep_neighbor_set r u →
    ∃ r', rep_add_edge u v r = (Return (), r') ∧ rep_inv N r' ∧
          rep_edge_count r' = rep_edge_count r + 1 ∧
          ∀ w, 1 ≤ w ≤ N →
            rep_neighbor_set r' w =
              rep_neighbor_set r w
              ∪ (if decide (w = u) then {[v]} else ∅)
              ∪ (if decide (w = v) then {[u]} else ∅)
}.

(** ** Graphs, walks and distances *)

Section vocabulary.
Context {R : Type} `{GraphRepresentation R}.

(** [v] is listed among the neighbours of [u]. *)
Definition adjacent (g : Graph.t R) (u v : Z) : Prop :=
  ∃ ns, Graph.get_neighbors g u = Return ns ∧ v ∈ ns.

(** A walk of [n] edges. *)
Inductive walk (g : Graph.t R) (u : Z) : Z → nat → Prop :=
  | walk_here : walk g u u 0
  | walk_step v w n : walk g u v n → adjacent g v w → walk g u w (S n).

Definition connected (g : Graph.t R) (u v : Z) : Prop := ∃ n, walk g u v n.

(** [n] is the hop count of a shortest walk from [u] to [v]. *)
Definition distance (g : Graph.t R) (u v : Z) (n : nat) : Prop :=
  walk g u v n ∧ ∀ m, walk g u v m → (n ≤ m)%nat.

(** The pair was passed to [add_edge], in either order. *)
Definition linked (cs : list Graph.call) (u v : Z) : Prop :=
  Graph.AddEdge u v ∈ cs ∨ Graph.AddEdge v u ∈ cs.

Definition sumZ (f : Z → Z) (l : list Z) : Z := foldr (λ w acc, f w + acc) 0 l.

(** Number of vertices that are listed among their own neighbours. *)
Definition self_loop (g : Graph.t R) (w : Z) : Z :=
  match Graph.get_neighbors g w with
  | Return ns => if decide (w ∈ ns) then 1 else 0
  | Raise _ => 0
  end.

Definition self_loops (g : Graph.t R) : Z :=
  sumZ (self_loop g) (range1 (Graph.vertex_count g)).

(** What the searches need of a graph: neighbour lists exist for the
    vertices of [1, N] and stay inside [1, N]. *)
Record searchable (g : Graph.t R) : Prop := {
  searchable_pos : 0 < Graph.vertex_count g;
  searchable_neighbors : ∀ u, 1 ≤ u ≤ Graph.vertex_count g →
    ∃ ns, Graph.get_neighbors g u = Return ns ∧ NoDup ns ∧
          ∀ x, x ∈ ns → 1 ≤ x ≤ Graph.vertex_count g
}.

End vocabulary.

(** ** Invariants of the two representations *)

(** Sparse: every vertex of [1, N] is a key of the adjacency dictionary. *)
Definition list_inv (N : Z) (r : AdjacencyList.t) : Prop :=
  ∀ w, 1 ≤ w ≤ N → is_Some (AdjacencyList._adj r !! w).

(** Dense: the matrix is N by N. *)
Definition matrix_inv (N : Z) (r : AdjacencyMatrix.t) : Prop :=
  length (AdjacencyMatrix._matrix r) = Z.to_nat N ∧
  Forall (λ row, length row = Z.to_nat N) (AdjacencyMatrix._matrix r).

(** Entry [(i, j)] of a matrix, when it exists. *)
Definition entry (m : list (list Z)) (i j : nat) : option Z :=
  m !! i ≫= (λ row, row !! j).

(** ** The state of a graph after a sequence of calls *)

Section facade_invariant.
Context {R : Type} `{FaithfulRepresentation R}.

Definition handshake_term (r : R) (w : Z) : Z :=
  Z.of_nat (size (rep_neighbor_set r w))
  + (if decide (w ∈ rep_neighbor_set r w) then 1 else 0).

(** The state of a graph after the calls [cs]. *)
Record models (cs : list Graph.call) (g : Graph.t R) : Prop := {
  models_pos : 0 < Graph._num_vertices g;
  models_rep : rep_inv (Graph._num_vertices g) (Graph._representation g);
  models_adj : ∀ w x, 1 ≤ w ≤ Graph._num_vertices g →
    x ∈ rep_neighbor_set (Graph._representation g) w ↔
    1 ≤ x ≤ Graph._num_vertices g ∧ linked cs w x;
  models_cache : ∀ ds, Graph._all_degrees_cache g = Some ds →
    Graph.degrees_of g (range1 (Graph._num_vertices g)) = Return ds;
  models_handshake :
    sumZ (handshake_term (Graph._representation g)) (range1 (Graph._num_vertices g))
    = 2 * Graph.edge_count g
}.

End facade_invariant.

(** [sum(degrees)] *)
Definition total (ds : list Z) : Z := foldr Z.add 0 ds.

(** ** Invariants of the searches *)

(** Vertices whose level is still the sentinel. *)
Definition unseen (L : gmap Z Z) : gset Z := dom (filter (λ kv : Z * Z, kv.2 = -1) L).

(** The vertices [1 .. n]. *)
Definition vertex_set (n : Z) : gset Z := list_to_set (range1 n).

(** The order [sorted] establishes between an element and a later one. *)
Definition key_before {A : Type} (key : A → Z) (reverse : bool) (x y : A) : Prop :=
  if reverse then key y ≤ key x else key x ≤ key y.

(** [a] occurs before [b] in [l]. *)
Definition occurs_before {A : Type} (l : list A) (a b : A) : Prop :=
  ∃ l1 l2 l3, l = l1 ++ a :: l2 ++ b :: l3.

(** The smallest vertex of a component, the one it was discovered from. *)
Definition component_min (c : Graph.component) : Z := hd 0 (Graph.vertices c).

Definition sizes_total (cs : list Graph.component) : Z :=
  foldr (λ c acc, Graph.size c + acc) 0 cs.

Section search_invariants.
Context {R : Type} `{GraphRepresentation R}.
Variable g : Graph.t R.
Variable s : Z.

Definition bfs_measure (st : Graph.bfs_state) : nat :=
  (size (unseen (Graph.bfs_levels st)) + length (Graph.bfs_queue st))%nat.

(** Invariant of the search; [cur] is the vertex taken from the queue
    whose neighbours are being scanned, if any.  The vertices waiting
    ([cur] and the queue) carry at most two consecutive levels, in order,
    and no vertex has a larger level. *)
Record bfs_inv (cur : list Z) (st : Graph.bfs_state) : Prop := {
  bi_dom : ∀ v, is_Some (Graph.bfs_levels st !! v) ↔ 1 ≤ v ≤ Graph.vertex_count g;
  bi_pdom : ∀ v, is_Some (Graph.bfs_parents st !! v) ↔ 1 ≤ v ≤ Graph.vertex_count g;
  bi_start : Graph.bfs_levels st !! s = Some 0;
  bi_pstart : Graph.bfs_parents st !! s = Some None;
  bi_punseen : ∀ v, Graph.bfs_levels st !! v = Some (-1) →
    Graph.bfs_parents st !! v = Some None;
  bi_sound : ∀ v l, Graph.bfs_levels st !! v = Some l → l ≠ -1 →
    0 ≤ l ∧ walk g s v (Z.to_nat l);
  bi_window : ∃ k qa qb, 0 ≤ k ∧ cur ++ Graph.bfs_queue st = qa ++ qb ∧
    Forall (λ x, Graph.bfs_levels st !! x = Some k) qa ∧
    Forall (λ x, Graph.bfs_levels st !! x = Some (k + 1)) qb ∧
    ∀ v l, Graph.bfs_levels st !! v = Some l → l ≤ k + 1;
  bi_done : ∀ v l, Graph.bfs_levels st !! v = Some l → l ≠ -1 →
    v ∉ cur ++ Graph.bfs_queue st →
    ∀ w, adjacent g v w →
      ∃ lw, Graph.bfs_levels st !! w = Some lw ∧ lw ≠ -1 ∧ lw ≤ l + 1
}.

Definition dfs_measure (st : Graph.dfs_state) : nat :=
  (size (vertex_set (Graph.vertex_count g) ∖ Graph.dfs_visited st)
   + length (Graph.dfs_stack st))%nat.

(** Invariant of the search; [cur] is the vertex popped from the stack
    whose neighbours are being scanned, if any. *)
Record dfs_inv (cur : list Z) (st : Graph.dfs_state) : Prop := {
  di_dom : ∀ v, is_Some (Graph.dfs_levels st !! v) ↔ 1 ≤ v ≤ Graph.vertex_count g;
  di_pdom : ∀ v, is_Some (Graph.dfs_parents st !! v) ↔ 1 ≤ v ≤ Graph.vertex_count g;
  di_start : Graph.dfs_levels st !! s = Some 0;
  di_pstart : Graph.dfs_parents st !! s = Some None;
  di_unvisited : ∀ v, v ∉ Graph.dfs_visited st → 1 ≤ v ≤ Graph.vertex_count g →
    Graph.dfs_levels st !! v = Some (-1) ∧ Graph.dfs_parents st !! v = Some None;
  di_sound : ∀ v, v ∈ Graph.dfs_visited st →
    1 ≤ v ≤ Graph.vertex_count g ∧
    ∃ l, Graph.dfs_levels st !! v = Some l ∧ 0 ≤ l ∧ walk g s v (Z.to_nat l);
  di_stack : ∀ x lvl, (x, lvl) ∈ Graph.dfs_stack st →
    x ∈ Graph.dfs_visited st ∧ Graph.dfs_levels st !! x = Some lvl;
  di_done : ∀ v, v ∈ Graph.dfs_visited st → v ∉ cur ++ (Graph.dfs_stack st).*1 →
    ∀ w, adjacent g v w → w ∈ Graph.dfs_visited st
}.

Definition fill_measure (st : Graph.fill_state) : nat :=
  (size (vertex_set (Graph.vertex_count g) ∖ Graph.fill_visited st)
   + length (Graph.fill_queue st))%nat.

(** Invariant of the flood fill started with the vertices [V0] already
    visited. *)
Record fill_inv (V0 : gset Z) (cur : list Z) (st : Graph.fill_state) : Prop := {
  fi_visited : Graph.fill_visited st = V0 ∪ Graph.fill_component_nodes st;
  fi_disjoint : Graph.fill_component_nodes st ## V0;
  fi_queue : ∀ x, x ∈ cur ++ Graph.fill_queue st → x ∈ Graph.fill_component_nodes st;
  fi_valid : ∀ x, x ∈ Graph.fill_component_nodes st → 1 ≤ x ≤ Graph.vertex_count g
}.

(** Invariant of the loop over the vertices: [lo] is the next vertex. *)
Record components_inv (lo : Z) (visited : gset Z) (cs : list Graph.component) : Prop := {
  ci_visited : ∀ v, v ∈ visited ↔ ∃ c, c ∈ cs ∧ v ∈ Graph.vertices c;
  ci_valid : ∀ v, v ∈ visited → 1 ≤ v ≤ Graph.vertex_count g;
  ci_below : ∀ v, 1 ≤ v < lo → v ∈ visited;
  ci_nodup : NoDup (mjoin (Graph.vertices <$> cs));
  ci_size : ∀ c, c ∈ cs → Graph.size c = Z.of_nat (length (Graph.vertices c));
  ci_sorted : ∀ c, c ∈ cs → StronglySorted Z.le (Graph.vertices c);
  ci_min : ∀ c, c ∈ cs → component_min c ∈ Graph.vertices c ∧ component_min c < lo;
  ci_order : StronglySorted Z.lt (component_min <$> cs)
}.

End search_invariants.

(** Same vertex count and, for every argument, neighbour lists that are
    permutations of each other, or the same exception. *)
Definition same_neighbors {R1 R2 : Type} `{GraphRepresentation R1} `{GraphRepresentation R2}
    (g1 : Graph.t R1) (g2 : Graph.t R2) : Prop :=
  Graph.vertex_count g1 = Graph.vertex_count g2 ∧
  ∀ u, match Graph.get_neighbors g1 u, Graph.get_neighbors g2 u with
       | Return n1, Return n2 => n1 ≡ₚ n2
       | Raise e1, Raise e2 => e1 = e2
       | _, _ => False
       end.

(** ** Properties of search results *)

(** What it means for a level map to record hop counts from [s]. *)
Definition levels_are_distances {R : Type} `{GraphRepresentation R}
    (g : Graph.t R) (s : Z) (levels : gmap Z Z) : Prop :=
  levels !! s = Some 0 ∧
  (∀ v, 1 ≤ v ≤ Graph.vertex_count g → levels !! v = Some (-1) ↔ ¬ connected g s v) ∧
  (∀ v n, distance g s v n ↔ levels !! v = Some (Z.of_nat n)).

(** The shape both searches give their two maps: a key for every vertex,
    the start at level 0 without parent, and no parent where the level is
    the sentinel. *)
Definition search_maps_shape (n s : Z) (parents : gmap Z (option Z)) (levels : gmap Z Z) : Prop :=
  dom parents = vertex_set n ∧ dom levels = vertex_set n ∧
  parents !! s = Some None ∧ levels !! s = Some 0 ∧
  ∀ v, levels !! v = Some (-1) → parents !! v = Some None.

(** ** Counting edges *)

(** The unordered pair of [u] and [v]. *)
Definition edge_key (u v : Z) : Z * Z := (Z.min u v, Z.max u v).

(** The pair an [add_edge] call inserts in a graph of [n] vertices, if it is
    accepted. *)
Definition inserted_edge (n : Z) (c : Graph.call) : option (Z * Z) :=
  match c with
  | Graph.AddEdge u v =>
      if decide (1 ≤ u ≤ n ∧ 1 ≤ v ≤ n) then Some (edge_key u v) else None
  | Graph.CalculateAllDegrees => None
  end.

(** The distinct unordered pairs the calls [cs] insert. *)
Definition inserted_edges (n : Z) (cs : list Graph.call) : gset (Z * Z) :=
  list_to_set (omap (inserted_edge n) cs).

(** ** Search trees *)

(** What a parent map records of a search from [s]: a recorded parent is a
    neighbour exactly one level above, and every reached vertex other than
    the start has a parent. *)
Definition parent_tree {R : Type} `{GraphRepresentation R} (g : Graph.t R) (s : Z)
    (parents : gmap Z (option Z)) (levels : gmap Z Z) : Prop :=
  (∀ v p, parents !! v = Some (Some p) →
     adjacent g p v ∧
     ∃ lp, levels !! p = Some lp ∧ 0 ≤ lp ∧ levels !! v = Some (lp + 1)) ∧
  (∀ v l, levels !! v = Some l → l ≠ -1 → v ≠ s → ∃ p, parents !! v = Some (Some p)).

(** [k] steps along the parent map lead from [v] to [a]. *)
Inductive ancestor (parents : gmap Z (option Z)) : Z → Z → nat → Prop :=
  | ancestor_here v : ancestor parents v v 0
  | ancestor_step v p a k :
      parents !! v = Some (Some p) → ancestor parents p a k →
      ancestor parents v a (S k).

(** ** Connectivity classes *)

Section connectivity_invariants.
Context {R : Type} `{GraphRepresentation R}.
Variable g : Graph.t R.

(** Invariant of the flood fill from [v0]: the collected vertices are
    connected to [v0], and the neighbours of a collected vertex that is no
    longer waiting are all visited. *)
Record fill_conn (v0 : Z) (cur : list Z) (st : Graph.fill_state) : Prop := {
  fc_sound : ∀ x, x ∈ Graph.fill_component_nodes st → connected g v0 x;
  fc_done : ∀ x, x ∈ Graph.fill_component_nodes st →
    x ∉ cur ++ Graph.fill_queue st →
    ∀ y, adjacent g x y → y ∈ Graph.fill_visited st
}.

(** A list of vertices that holds, with each of its members, exactly the
    vertices connected to it. *)
Definition connectivity_class (vs : list Z) : Prop :=
  ∀ x, x ∈ vs → ∀ y, y ∈ vs ↔ connected g x y.

(** Invariant of the loop over the vertices: no edge leaves the visited
    set, and every component found so far is a connectivity class. *)
Record components_conn (visited : gset Z) (cs : list Graph.component) : Prop := {
  cc_closed : ∀ x y, x ∈ visited → adjacent g x y → y ∈ visited;
  cc_class : ∀ c, c ∈ cs → connectivity_class (Graph.vertices c)
}.

End connectivity_invariants.

(** * Facts about the built-ins *)

Lemma is_vertex_within_bounds_true v n :
  GraphUtils.is_vertex_within_bounds v n = true ↔ 1 ≤ v ≤ n.
Proof. unfold GraphUtils.is_vertex_within_bounds. rewrite andb_true_iff. lia. Qed.

Lemma is_vertex_within_bounds_false v n :
  GraphUtils.is_vertex_within_bounds v n = false ↔ ¬ (1 ≤ v ≤ n).
Proof.
  rewrite <- is_vertex_within_bounds_true.
  destruct (GraphUtils.is_vertex_within_bounds v n); naive_solver.
Qed.

Lemma lookup_range_dict {V : Type} (n : Z) (x : V) (w : Z) :
  (list_to_map ((λ v, (v, x)) <$> range1 n) : gmap Z V) !! w
  = if decide (1 ≤ w ≤ n) then Some x else None.
Proof.
  unfold range1. case_decide as Hw.
  - apply elem_of_list_to_map_1.
    + rewrite <- list_fmap_compose. simpl.
      rewrite list_fmap_id. apply NoDup_seqZ.
    + apply list_elem_of_fmap. exists w. split; [done|]. apply elem_of_seqZ. lia.
  - apply not_elem_of_list_to_map_1.
    rewrite <- list_fmap_compose. simpl. rewrite list_fmap_id.
    rewrite elem_of_seqZ. lia.
Qed.

Lemma set_to_list_NoDup `{SetIteration} (X : gset Z) : NoDup (set_to_list X).
Proof. rewrite set_to_list_perm. apply NoDup_elements. Qed.

Lemma elem_of_set_to_list `{SetIteration} (X : gset Z) x : x ∈ set_to_list X ↔ x ∈ X.
Proof. rewrite set_to_list_perm. apply elem_of_elements. Qed.

Lemma list_to_set_set_to_list `{SetIteration} (X : gset Z) :
  list_to_set (set_to_list X) = X.
Proof. apply set_eq. intros x. rewrite elem_of_list_to_set. apply elem_of_set_to_list. Qed.

(** * The sparse representation is faithful *)

Section adjacency_list.
Context `{SetIteration}.

Lemma list_neighbor_set r w s :
  AdjacencyList._adj r !! w = Some s →
  rep_neighbor_set (R := AdjacencyList.t) r w = s.
Proof.
  intros Hs. unfold rep_neighbor_set. simpl.
  unfold AdjacencyList.get_neighbors, getitem. rewrite Hs. simpl.
  apply list_to_set_set_to_list.
Qed.

Lemma list_init_ok N : 0 < N →
  ∃ r, AdjacencyList.init N = Return r ∧ list_inv N r ∧
       AdjacencyList.edge_count r = 0 ∧
       ∀ w, 1 ≤ w ≤ N → rep_neighbor_set (R := AdjacencyList.t) r w = ∅.
Proof.
  intros HN. eexists. split; [reflexivity|]. split; [|split; [reflexivity|]].
  - intros w Hw. simpl. rewrite lookup_range_dict. rewrite decide_True by done. eauto.
  - intros w Hw. apply list_neighbor_set. simpl.
    rewrite lookup_range_dict. by rewrite decide_True.
Qed.

Lemma list_get_neighbors_ok N r w : list_inv N r → 1 ≤ w ≤ N →
  ∃ ns, AdjacencyList.get_neighbors r w = Return ns ∧ NoDup ns.
Proof.
  intros Hinv Hw. destruct (Hinv w Hw) as [s Hs].
  exists (set_to_list s). split; [|apply set_to_list_NoDup].
  unfold AdjacencyList.get_neighbors, getitem. by rewrite Hs.
Qed.

Lemma list_add_edge_present N r u v : list_inv N r → 1 ≤ u ≤ N → 1 ≤ v ≤ N →
  v ∈ rep_neighbor_set (R := AdjacencyList.t) r u →
  AdjacencyList.add_edge u v r = (Return (), r).
Proof.
  intros Hinv Hu Hv Hin. destruct (Hinv u Hu) as [su Hsu].
  rewrite (list_neighbor_set _ _ _ Hsu) in Hin.
  unfold AdjacencyList.add_edge. rewrite Hsu. by rewrite decide_True.
Qed.

Lemma list_add_edge_fresh N r u v : list_inv N r → 1 ≤ u ≤ N → 1 ≤ v ≤ N →
  v ∉ rep_neighbor_set (R := AdjacencyList.t) r u →
  ∃ r', AdjacencyList.add_edge u v r = (Return (), r') ∧ list_inv N r' ∧
        AdjacencyList.edge_count r' = AdjacencyList.edge_count r + 1 ∧
        ∀ w, 1 ≤ w ≤ N →
          rep_neighbor_set (R := AdjacencyList.t) r' w =
            rep_neighbor_set (R := AdjacencyList.t) r w
            ∪ (if decide (w = u) then {[v]} else ∅)
            ∪ (if decide (w = v) then {[u]} else ∅).
Proof.
  intros Hinv Hu Hv Hnin. destruct (Hinv u Hu) as [su Hsu].
  rewrite (list_neighbor_set _ _ _ Hsu) in Hnin.
  unfold AdjacencyList.add_edge. rewrite Hsu. rewrite decide_False by done.
  cbn [AdjacencyList._adj AdjacencyList._edge_count].
  assert (∃ sv, <[u:=su ∪ {[v]}]> (AdjacencyList._adj r) !! v = Some sv
                ∧ sv = (if decide (v = u) then su ∪ {[v]}
                        else default ∅ (AdjacencyList._adj r !! v))) as (sv & Hsv & Hsv').
  { destruct (decide (v = u)) as [->|Hne].
    - rewrite lookup_insert_eq. eauto.
    - rewrite lookup_insert_ne by done.
      destruct (Hinv v Hv) as [sv Hsv]. rewrite Hsv. eauto. }
  rewrite Hsv. eexists. split; [reflexivity|]. split; [|split; [reflexivity|]].
  - intros w Hw. cbn [AdjacencyList._adj].
    destruct (decide (w = v)) as [->|]; [rewrite lookup_insert_eq; eauto|].
    rewrite lookup_insert_ne by done.
    destruct (decide (w = u)) as [->|]; [rewrite lookup_insert_eq; eauto|].
    rewrite lookup_insert_ne by done. by apply Hinv.
  - intros w Hw. destruct (Hinv w Hw) as [sw Hsw].
    rewrite (list_neighbor_set r w sw Hsw).
    destruct (decide (w = v)) as [->|Hwv].
    + erewrite list_neighbor_set; [|cbn [AdjacencyList._adj]; apply lookup_insert_eq].
      subst sv. destruct (decide (v = u)) as [->|Hvu].
      * assert (sw = su) as -> by congruence. set_solver.
      * rewrite Hsw. simpl. set_solver.
    + destruct (decide (w = u)) as [->|Hwu].
      * erewrite list_neighbor_set;
          [|cbn [AdjacencyList._adj]; rewrite lookup_insert_ne by done; apply lookup_insert_eq].
        assert (sw = su) as -> by congruence. set_solver.
      * erewrite list_neighbor_set;
          [|cbn [AdjacencyList._adj]; rewrite !lookup_insert_ne by done; exact Hsw].
        set_solver.
Qed.

#[export] Instance AdjacencyList_faithful : FaithfulRepresentation AdjacencyList.t :=
  {| rep_inv := list_inv;
     rep_init_ok := list_init_ok;
     rep_get_neighbors_ok := list_get_neighbors_ok;
     rep_add_edge_present := list_add_edge_present;
     rep_add_edge_fresh := list_add_edge_fresh |}.

End adjacency_list.

(** * The dense representation is faithful *)

Section adjacency_matrix.

Lemma elem_of_nonzero_from i row x :
  x ∈ AdjacencyMatrix.nonzero_from i row ↔
  ∃ j : nat, x = i + Z.of_nat j ∧ ∃ y, row !! j = Some y ∧ y ≠ 0.
Proof.
  revert i. induction row as [|a row IH]; intros i; simpl.
  - split; [by intros ?%elem_of_nil|]. by intros (j & _ & y & ? & _).
  - case_decide as Ha.
    + rewrite IH. split.
      * intros (j & -> & y & Hy & Hne). exists (S j). split; [lia|]. eauto.
      * intros ([|j] & -> & y & Hy & Hne); simpl in Hy; [congruence|].
        exists j. split; [lia|]. eauto.
    + rewrite elem_of_cons, IH. split.
      * intros [->|(j & -> & y & Hy & Hne)].
        -- exists 0%nat. split; [lia|]. eauto.
        -- exists (S j). split; [lia|]. eauto.
      * intros ([|j] & -> & y & Hy & Hne); simpl in Hy.
        -- left. lia.
        -- right. exists j. split; [lia|]. eauto.
Qed.

Lemma NoDup_nonzero_from i row : NoDup (AdjacencyMatrix.nonzero_from i row).
Proof.
  revert i. induction row as [|a row IH]; intros i; simpl; [constructor|].
  case_decide; [apply IH|]. constructor; [|apply IH].
  rewrite elem_of_nonzero_from. intros (j & ? & _). lia.
Qed.

Lemma np_index_in_range (len : nat) (i : Z) :
  0 ≤ i < Z.of_nat len → AdjacencyMatrix.np_index len i = Return (Z.to_nat i).
Proof. intros. unfold AdjacencyMatrix.np_index. by rewrite decide_True. Qed.

Lemma matrix_row N r w : matrix_inv N r → 1 ≤ w ≤ N →
  ∃ row, AdjacencyMatrix._matrix r !! Z.to_nat (w - 1) = Some row ∧
         length row = Z.to_nat N.
Proof.
  intros [Hlen Hrows] Hw.
  destruct (lookup_lt_is_Some_2 (AdjacencyMatrix._matrix r) (Z.to_nat (w - 1)))
    as [row Hrow]; [lia|].
  exists row. split; [done|].
  by eapply (proj1 (Forall_lookup _ _) Hrows).
Qed.

Lemma matrix_get_neighbors N r w row : matrix_inv N r → 1 ≤ w ≤ N →
  AdjacencyMatrix._matrix r !! Z.to_nat (w - 1) = Some row →
  AdjacencyMatrix.get_neighbors r w
  = Return ((λ i, i + 1) <$> AdjacencyMatrix.nonzero row).
Proof.
  intros [Hlen Hrows] Hw Hrow. unfold AdjacencyMatrix.get_neighbors, AdjacencyMatrix.getrow.
  rewrite np_index_in_range by lia. simpl. by rewrite Hrow.
Qed.

Lemma elem_of_matrix_neighbor_set N r w x : matrix_inv N r → 1 ≤ w ≤ N →
  x ∈ rep_neighbor_set (R := AdjacencyMatrix.t) r w ↔
  1 ≤ x ∧ ∃ y, entry (AdjacencyMatrix._matrix r) (Z.to_nat (w - 1)) (Z.to_nat (x - 1)) = Some y
               ∧ y ≠ 0.
Proof.
  intros Hinv Hw. destruct (matrix_row N r w Hinv Hw) as (row & Hrow & Hlen).
  unfold rep_neighbor_set. simpl. rewrite (matrix_get_neighbors N r w row) by done.
  rewrite elem_of_list_to_set, list_elem_of_fmap. unfold entry. rewrite Hrow. simpl.
  unfold AdjacencyMatrix.nonzero. setoid_rewrite elem_of_nonzero_from. split.
  - intros (i & -> & j & -> & y & Hy & Hne). split; [lia|].
    exists y. split; [|done]. by replace (Z.to_nat (0 + Z.of_nat j + 1 - 1)) with j by lia.
  - intros (Hx & y & Hy & Hne). exists (x - 1). split; [lia|].
    exists (Z.to_nat (x - 1)). split; [lia|]. eauto.
Qed.

Lemma matrix_init_ok N : 0 < N →
  ∃ r, AdjacencyMatrix.init N = Return r ∧ matrix_inv N r ∧
       AdjacencyMatrix.edge_count r = 0 ∧
       ∀ w, 1 ≤ w ≤ N → rep_neighbor_set (R := AdjacencyMatrix.t) r w = ∅.
Proof.
  intros HN. unfold AdjacencyMatrix.init. rewrite decide_False by lia.
  eexists. split; [reflexivity|].
  assert (matrix_inv N
    {| AdjacencyMatrix._matrix := replicate (Z.to_nat N) (replicate (Z.to_nat N) 0);
       AdjacencyMatrix._edge_count := 0 |}) as Hinv.
  { split; simpl; [by rewrite length_replicate|].
    apply Forall_replicate. by rewrite length_replicate. }
  split; [done|]. split; [reflexivity|].
  intros w Hw. apply set_eq. intros x.
  rewrite (elem_of_matrix_neighbor_set N) by done. simpl. unfold entry.
  split; [|by intros ?%not_elem_of_empty].
  intros (_ & y & Hy & Hne). exfalso.
  destruct (replicate (Z.to_nat N) (replicate (Z.to_nat N) 0) !! Z.to_nat (w - 1))
    as [row|] eqn:Hrow; simpl in Hy; [|done].
  apply lookup_replicate in Hrow as [-> _].
  apply lookup_replicate in Hy as [-> _]. done.
Qed.

Lemma matrix_get_neighbors_ok N r w : matrix_inv N r → 1 ≤ w ≤ N →
  ∃ ns, AdjacencyMatrix.get_neighbors r w = Return ns ∧ NoDup ns.
Proof.
  intros Hinv Hw. destruct (matrix_row N r w Hinv Hw) as (row & Hrow & Hlen).
  eexists. split; [by eapply matrix_get_neighbors|].
  apply NoDup_fmap_2; [intros ???; lia|]. apply NoDup_nonzero_from.
Qed.

Lemma matrix_getitem2 N r u v : matrix_inv N r → 1 ≤ u ≤ N → 1 ≤ v ≤ N →
  ∃ y, AdjacencyMatrix.getitem2 (AdjacencyMatrix._matrix r) (u - 1) (v - 1) = Return y ∧
       entry (AdjacencyMatrix._matrix r) (Z.to_nat (u - 1)) (Z.to_nat (v - 1)) = Some y.
Proof.
  intros Hinv Hu Hv. destruct (matrix_row N r u Hinv Hu) as (row & Hrow & Hlen).
  destruct Hinv as [Hm _].
  destruct (lookup_lt_is_Some_2 row (Z.to_nat (v - 1))) as [y Hy]; [lia|].
  exists y. unfold AdjacencyMatrix.getitem2, entry.
  rewrite !np_index_in_range by lia. simpl. by rewrite Hrow; simpl; rewrite Hy.
Qed.

Lemma matrix_setitem2 N r u v x : matrix_inv N r → 1 ≤ u ≤ N → 1 ≤ v ≤ N →
  ∃ m', AdjacencyMatrix.setitem2 (AdjacencyMatrix._matrix r) (u - 1) (v - 1) x = Return m' ∧
        (∀ c, matrix_inv N {| AdjacencyMatrix._matrix := m'; AdjacencyMatrix._edge_count := c |}) ∧
        ∀ a b, entry m' a b =
               if decide (a = Z.to_nat (u - 1) ∧ b = Z.to_nat (v - 1)) then Some x
               else entry (AdjacencyMatrix._matrix r) a b.
Proof.
  intros Hinv Hu Hv. destruct (matrix_row N r u Hinv Hu) as (row & Hrow & Hlen).
  destruct Hinv as [Hm Hrows].
  eexists. split.
  { unfold AdjacencyMatrix.setitem2. rewrite !np_index_in_range by lia. simpl.
    by rewrite Hrow. }
  split.
  - intros c. split; simpl; [by rewrite length_insert|].
    apply Forall_insert; [done|]. by rewrite length_insert.
  - intros a b. unfold entry. case_decide as Hab.
    + destruct Hab as [-> ->]. rewrite list_lookup_insert_eq by lia. simpl.
      apply list_lookup_insert_eq. lia.
    + destruct (decide (a = Z.to_nat (u - 1))) as [->|Hne].
      * rewrite list_lookup_insert_eq by lia. rewrite Hrow. simpl.
        apply list_lookup_insert_ne. naive_solver.
      * by rewrite list_lookup_insert_ne.
Qed.

Lemma matrix_add_edge_present N r u v : matrix_inv N r → 1 ≤ u ≤ N → 1 ≤ v ≤ N →
  v ∈ rep_neighbor_set (R := AdjacencyMatrix.t) r u →
  AdjacencyMatrix.add_edge u v r = (Return (), r).
Proof.
  intros Hinv Hu Hv Hin.
  apply (elem_of_matrix_neighbor_set N) in Hin as (_ & y & Hy & Hne); [|done..].
  destruct (matrix_getitem2 N r u v Hinv Hu Hv) as (y' & Hget & Hy').
  assert (y' = y) as -> by congruence.
  unfold AdjacencyMatrix.add_edge. simpl. rewrite Hget. by rewrite decide_False.
Qed.

Lemma matrix_add_edge_fresh N r u v : matrix_inv N r → 1 ≤ u ≤ N → 1 ≤ v ≤ N →
  v ∉ rep_neighbor_set (R := AdjacencyMatrix.t) r u →
  ∃ r', AdjacencyMatrix.add_edge u v r = (Return (), r') ∧ matrix_inv N r' ∧
        AdjacencyMatrix.edge_count r' = AdjacencyMatrix.edge_count r + 1 ∧
        ∀ w, 1 ≤ w ≤ N →
          rep_neighbor_set (R := AdjacencyMatrix.t) r' w =
            rep_neighbor_set (R := AdjacencyMatrix.t) r w
            ∪ (if decide (w = u) then {[v]} else ∅)
            ∪ (if decide (w = v) then {[u]} else ∅).
Proof.
  intros Hinv Hu Hv Hnin.
  destruct (matrix_getitem2 N r u v Hinv Hu Hv) as (y & Hget & Hy).
  assert (y = 0) as ->.
  { destruct (decide (y = 0)); [done|]. exfalso. apply Hnin.
    apply (elem_of_matrix_neighbor_set N); [done..|]. split; [lia|]. eauto. }
  destruct (matrix_setitem2 N r u v 1 Hinv Hu Hv) as (m1 & Hset1 & Hinv1 & Hent1).
  destruct (matrix_setitem2 N {| AdjacencyMatrix._matrix := m1;
                                 AdjacencyMatrix._edge_count := AdjacencyMatrix._edge_count r |}
              v u 1 (Hinv1 _) Hv Hu) as (m2 & Hset2 & Hinv2 & Hent2).
  simpl in Hset2, Hent2.
  unfold AdjacencyMatrix.add_edge. simpl. rewrite Hget. rewrite decide_True by done.
  rewrite Hset1, Hset2. eexists. split; [reflexivity|].
  split; [apply Hinv2|]. split; [reflexivity|].
  intros w Hw. apply set_eq. intros x.
  rewrite !elem_of_union, !(elem_of_matrix_neighbor_set N) by (done || apply Hinv2).
  simpl. rewrite Hent2, Hent1.
  assert (∀ a b, 1 ≤ a → 1 ≤ b → Z.to_nat (a - 1) = Z.to_nat (b - 1) ↔ a = b) as Hinj
    by (intros; lia).
  split.
  - intros (Hx & y & Hy' & Hne).
    case_decide as H1; [destruct H1 as [H1 H2]|].
    { apply Hinj in H1, H2; [|lia..]. subst. right. rewrite decide_True by done.
      by apply elem_of_singleton. }
    case_decide as H2; [destruct H2 as [H2 H3]|].
    { apply Hinj in H2, H3; [|lia..]. subst. left. right. rewrite decide_True by done.
      by apply elem_of_singleton. }
    left. left. eauto.
  - intros [[(Hx & y & Hy' & Hne)|Hwu]|Hwv].
    + split; [done|]. repeat case_decide; eauto. all: exists 1; done.
    + case_decide as Heq; [|by apply not_elem_of_empty in Hwu].
      apply elem_of_singleton in Hwu. subst. split; [lia|]. exists 1. split; [|done].
      case_decide; [done|]. by rewrite decide_True.
    + case_decide as Heq; [|by apply not_elem_of_empty in Hwv].
      apply elem_of_singleton in Hwv. subst. split; [lia|]. exists 1. split; [|done].
      by rewrite decide_True.
Qed.

#[export] Instance AdjacencyMatrix_faithful : FaithfulRepresentation AdjacencyMatrix.t :=
  {| rep_inv := matrix_inv;
     rep_init_ok := matrix_init_ok;
     rep_get_neighbors_ok := matrix_get_neighbors_ok;
     rep_add_edge_present := matrix_add_edge_present;
     rep_add_edge_fresh := matrix_add_edge_fresh |}.

End adjacency_matrix.

(** * Graphs built through the facade *)

Section facade.
Context {R : Type} `{FaithfulRepresentation R}.
Implicit Types (g : Graph.t R) (cs : list Graph.call).

Lemma get_neighbors_valid g w : 1 ≤ w ≤ Graph.vertex_count g →
  Graph.get_neighbors g w = rep_get_neighbors (Graph._representation g) w.
Proof.
  intros Hw. unfold Graph.get_neighbors, Graph.vertex_count in *.
  by rewrite (proj2 (is_vertex_within_bounds_true _ _) Hw).
Qed.

Lemma get_neighbors_invalid g w : ¬ (1 ≤ w ≤ Graph.vertex_count g) →
  Graph.get_neighbors g w = Raise ValueError.
Proof.
  intros Hw. unfold Graph.get_neighbors, Graph.vertex_count in *.
  by rewrite (proj2 (is_vertex_within_bounds_false _ _) Hw).
Qed.

Lemma add_edge_rejected g u v :
  ¬ (1 ≤ u ≤ Graph.vertex_count g ∧ 1 ≤ v ≤ Graph.vertex_count g) →
  Graph.add_edge u v g = (Raise ValueError, g).
Proof.
  intros Hno. unfold Graph.add_edge, Graph.vertex_count in *.
  destruct (GraphUtils.is_vertex_within_bounds u _) eqn:Hu;
    destruct (GraphUtils.is_vertex_within_bounds v _) eqn:Hv; try done.
  apply is_vertex_within_bounds_true in Hu, Hv. by destruct Hno.
Qed.

Lemma add_edge_accepted g u v :
  1 ≤ u ≤ Graph.vertex_count g → 1 ≤ v ≤ Graph.vertex_count g →
  Graph.add_edge u v g =
    match rep_add_edge u v (Graph._representation g) with
    | (Raise e, r') => (Raise e, Graph.mk (Graph._num_vertices g) r' (Graph._all_degrees_cache g))
    | (Return _, r') => (Return (), Graph.mk (Graph._num_vertices g) r' None)
    end.
Proof.
  intros Hu Hv. unfold Graph.add_edge, Graph.vertex_count in *.
  rewrite (proj2 (is_vertex_within_bounds_true _ _) Hu).
  rewrite (proj2 (is_vertex_within_bounds_true _ _) Hv). simpl.
  by destruct (rep_add_edge u v _) as [[[]|] ?].
Qed.

Lemma degrees_of_ext g g' vs :
  Graph._num_vertices g = Graph._num_vertices g' →
  Graph._representation g = Graph._representation g' →
  Graph.degrees_of g vs = Graph.degrees_of g' vs.
Proof.
  intros HN Hr. induction vs as [|i vs IH]; simpl; [done|].
  unfold Graph.get_neighbors. by rewrite HN, Hr, IH.
Qed.

Lemma neighbors_of_model cs g w : models cs g → 1 ≤ w ≤ Graph.vertex_count g →
  ∃ ns, Graph.get_neighbors g w = Return ns ∧ NoDup ns ∧
        rep_neighbor_set (Graph._representation g) w = list_to_set ns ∧
        ∀ x, x ∈ ns ↔ 1 ≤ x ≤ Graph.vertex_count g ∧ linked cs w x.
Proof.
  intros Hm Hw.
  destruct (rep_get_neighbors_ok _ _ w (models_rep _ _ Hm) Hw) as (ns & Hns & Hnd).
  exists ns. rewrite get_neighbors_valid by done.
  assert (rep_neighbor_set (Graph._representation g) w = list_to_set ns) as Hset
    by (unfold rep_neighbor_set; by rewrite Hns).
  split; [done|]. split; [done|]. split; [done|].
  intros x. rewrite <- (models_adj _ _ Hm w x Hw), Hset. by rewrite elem_of_list_to_set.
Qed.

Lemma models_searchable cs g : models cs g → searchable g.
Proof.
  intros Hm. split; [apply (models_pos _ _ Hm)|].
  intros u Hu. destruct (neighbors_of_model cs g u Hm Hu) as (ns & Hns & Hnd & _ & Hin).
  exists ns. split; [done|]. split; [done|]. intros x Hx. by apply Hin.
Qed.

Lemma sumZ_add f1 f2 l : sumZ (λ w, f1 w + f2 w) l = sumZ f1 l + sumZ f2 l.
Proof. induction l as [|a l IH]; simpl; lia. Qed.

Lemma sumZ_ext f1 f2 l : (∀ w, w ∈ l → f1 w = f2 w) → sumZ f1 l = sumZ f2 l.
Proof.
  induction l as [|a l IH]; intros Hext; simpl; [done|].
  rewrite (Hext a) by apply list_elem_of_here. rewrite IH; [done|].
  intros w Hw. apply Hext. by apply list_elem_of_further.
Qed.

Lemma sumZ_indicator (u : Z) l : NoDup l → u ∈ l →
  sumZ (λ w, if decide (w = u) then 1 else 0) l = 1.
Proof.
  induction 1 as [|a l Ha Hnd IH]; intros Hu; [by apply elem_of_nil in Hu|].
  simpl. apply elem_of_cons in Hu as [->|Hu].
  - rewrite decide_True by done.
    rewrite (sumZ_ext _ (λ _, 0) l); [clear; induction l; simpl; lia|].
    intros w Hw. rewrite decide_False; [done|]. by intros ->.
  - rewrite decide_False by (by intros ->). by rewrite IH.
Qed.

Lemma term_union_fresh (X : gset Z) (w a : Z) : a ∉ X →
  Z.of_nat (size (X ∪ {[a]})) + (if decide (w ∈ X ∪ {[a]}) then 1 else 0)
  = Z.of_nat (size X) + (if decide (w ∈ X) then 1 else 0) + 1
    + (if decide (w = a) then 1 else 0).
Proof.
  intros Ha. rewrite size_union by set_solver. rewrite size_singleton.
  repeat case_decide; try lia; set_solver.
Qed.

Lemma linked_app cs c u v :
  linked (cs ++ [c]) u v ↔ linked cs u v ∨ c = Graph.AddEdge u v ∨ c = Graph.AddEdge v u.
Proof.
  unfold linked. rewrite !elem_of_app, !list_elem_of_singleton. naive_solver.
Qed.

Lemma models_init N : 0 < N →
  ∃ g, Graph.init N = Return g ∧ Graph._num_vertices g = N ∧ models [] g.
Proof.
  intros HN. destruct (rep_init_ok N HN) as (r & Hr & Hinv & Hcount & Hempty).
  unfold Graph.init. rewrite decide_False by lia. rewrite Hr. simpl.
  eexists. split; [reflexivity|]. split; [reflexivity|].
  split; simpl; try done.
  - intros w x Hw. rewrite Hempty by done. unfold linked.
    split; [by intros ?%not_elem_of_empty|]. intros [_ [?%elem_of_nil|?%elem_of_nil]]; done.
  - unfold Graph.edge_count. simpl. rewrite Hcount.
    rewrite (sumZ_ext _ (λ _, 0)).
    + generalize (range1 N). intros l. induction l; simpl; lia.
    + intros w Hw. apply elem_of_seqZ in Hw. unfold handshake_term.
      rewrite Hempty by lia. rewrite size_empty. by rewrite decide_False by set_solver.
Qed.

Lemma models_add_edge cs g u v : models cs g →
  models (cs ++ [Graph.AddEdge u v]) (Graph.add_edge u v g).2 ∧
  Graph._num_vertices (Graph.add_edge u v g).2 = Graph._num_vertices g.
Proof.
  intros Hm. pose proof (models_pos _ _ Hm) as Hpos.
  destruct (decide (1 ≤ u ≤ Graph.vertex_count g ∧ 1 ≤ v ≤ Graph.vertex_count g))
    as [[Hu Hv]|Hno].
  2:{ rewrite add_edge_rejected by done. simpl. split; [|done].
      destruct Hm. split; try done.
      intros w x Hw. rewrite models_adj0, linked_app by done.
      split; [naive_solver|]. intros (Hx & [?|[?|?]]); [done|simplify_eq..];
        exfalso; apply Hno; done. }
  rewrite add_edge_accepted by done.
  destruct (decide (v ∈ rep_neighbor_set (Graph._representation g) u)) as [Hin|Hnin].
  - rewrite (rep_add_edge_present _ _ u v (models_rep _ _ Hm) Hu Hv Hin). simpl.
    split; [|done]. destruct Hm. split; simpl; try done.
    intros w x Hw. rewrite models_adj0, linked_app by done.
    apply models_adj0 in Hin as [_ Hl]; [|done].
    unfold linked in *. naive_solver.
  - destruct (rep_add_edge_fresh _ _ u v (models_rep _ _ Hm) Hu Hv Hnin)
      as (r' & Hadd & Hinv' & Hcount' & Hadj').
    rewrite Hadd. simpl. split; [|done].
    assert (u ∉ rep_neighbor_set (Graph._representation g) v) as Hnin'.
    { intros Hin. apply Hnin. apply (models_adj _ _ Hm) in Hin as [_ Hl]; [|done].
      apply (models_adj _ _ Hm); [done|]. split; [done|]. destruct Hl; [by right|by left]. }
    split; simpl; try done.
    + intros w x Hw. rewrite Hadj', !elem_of_union, linked_app by done.
      rewrite (models_adj _ _ Hm) by done.
      repeat case_decide; subst; rewrite ?elem_of_singleton, ?elem_of_empty;
        unfold Graph.vertex_count in *; naive_solver.
    + unfold Graph.edge_count. simpl. rewrite Hcount'.
      pose proof (models_handshake _ _ Hm) as Hhs. unfold Graph.edge_count in Hhs.
      rewrite (sumZ_ext _ (λ w, handshake_term (Graph._representation g) w
                               + ((if decide (w = u) then 1 else 0)
                                  + (if decide (w = v) then 1 else 0)))).
      * rewrite !sumZ_add. unfold Graph.vertex_count in *.
        rewrite !sumZ_indicator;
          [lia|apply NoDup_seqZ|apply elem_of_seqZ; lia|apply NoDup_seqZ|apply elem_of_seqZ; lia].
      * intros w Hw. apply elem_of_seqZ in Hw. unfold handshake_term.
        rewrite Hadj' by lia.
        destruct (decide (w = u)) as [Heq|Hwu], (decide (w = v)) as [Heq'|Hwv];
          simplify_eq; rewrite ?union_empty_r_L.
        -- rewrite <- union_assoc_L, union_idemp_L, term_union_fresh by done.
           repeat case_decide; (lia || done).
        -- rewrite term_union_fresh by done. repeat case_decide; (lia || done).
        -- rewrite term_union_fresh by done. repeat case_decide; (lia || done).
        -- lia.
Qed.

Lemma models_calculate_all_degrees cs g : models cs g →
  models (cs ++ [Graph.CalculateAllDegrees]) (Graph._calculate_all_degrees g).2 ∧
  Graph._num_vertices (Graph._calculate_all_degrees g).2 = Graph._num_vertices g.
Proof.
  intros Hm.
  assert (∀ g', Graph._num_vertices g' = Graph._num_vertices g →
                Graph._representation g' = Graph._representation g →
                (∀ ds, Graph._all_degrees_cache g' = Some ds →
                       Graph.degrees_of g (range1 (Graph._num_vertices g)) = Return ds) →
                models (cs ++ [Graph.CalculateAllDegrees]) g') as Hgen.
  { intros g' HN Hr Hc. destruct Hm. split; rewrite ?HN, ?Hr; try done.
    - intros w x Hw. rewrite models_adj0, linked_app by done. naive_solver.
    - intros ds Hds. rewrite <- (Hc ds Hds). by apply degrees_of_ext.
    - unfold Graph.edge_count. by rewrite Hr. }
  unfold Graph._calculate_all_degrees.
  destruct (Graph._all_degrees_cache g) as [ds|] eqn:Hcache; simpl.
  - split; [|done]. apply Hgen; try done. intros ds' Hds'. rewrite Hcache in Hds'.
    simplify_eq. by apply (models_cache _ _ Hm).
  - unfold Graph.vertex_count.
    destruct (Graph.degrees_of g (range1 (Graph._num_vertices g))) as [ds|e] eqn:Hdeg; simpl.
    + split; [|done]. apply Hgen; try done. simpl. by intros ds' [= <-].
    + split; [|done]. apply Hgen; try done. by rewrite Hcache.
Qed.

Lemma models_run_calls cs0 cs g : models cs0 g →
  models (cs0 ++ cs) (Graph.run_calls cs g) ∧
  Graph._num_vertices (Graph.run_calls cs g) = Graph._num_vertices g.
Proof.
  revert cs0 g. induction cs as [|c cs IH]; intros cs0 g Hm; simpl.
  - by rewrite app_nil_r.
  - assert (models (cs0 ++ [c]) (Graph.run_call c g) ∧
            Graph._num_vertices (Graph.run_call c g) = Graph._num_vertices g) as [Hm' HN'].
    { destruct c as [u v|]; simpl.
      - by apply models_add_edge.
      - by apply models_calculate_all_degrees. }
    destruct (IH _ _ Hm') as [Hm'' HN'']. rewrite <- app_assoc in Hm''.
    split; [done|]. by rewrite HN''.
Qed.

Lemma models_build N cs : 0 < N →
  ∃ g, Graph.build N cs = Return g ∧ Graph.vertex_count g = N ∧ models cs g.
Proof.
  intros HN. destruct (models_init N HN) as (g0 & Hinit & HN0 & Hm0).
  unfold Graph.build. rewrite Hinit. simpl.
  destruct (models_run_calls [] cs g0 Hm0) as [Hm HN'].
  eexists. split; [reflexivity|]. split; [|done]. unfold Graph.vertex_count. congruence.
Qed.

End facade.

(** * Counting the vertices a search has not reached *)

Lemma elem_of_unseen L v : v ∈ unseen L ↔ L !! v = Some (-1).
Proof.
  unfold unseen. rewrite elem_of_dom. unfold is_Some.
  setoid_rewrite map_lookup_filter_Some. simpl. naive_solver.
Qed.

Lemma unseen_insert L w x : L !! w = Some (-1) → x ≠ -1 →
  size (unseen L) = S (size (unseen (<[w:=x]> L))).
Proof.
  intros Hw Hx.
  assert (unseen L = {[w]} ∪ unseen (<[w:=x]> L)) as ->.
  { apply set_eq. intros v. rewrite elem_of_union, elem_of_singleton, !elem_of_unseen.
    destruct (decide (v = w)) as [->|Hne].
    - naive_solver.
    - rewrite lookup_insert_ne by done. naive_solver. }
  rewrite size_union, size_singleton; [done|].
  apply disjoint_singleton_l. rewrite elem_of_unseen, lookup_insert_eq. naive_solver.
Qed.

Lemma size_vertex_set (n : Z) : size (vertex_set n) = Z.to_nat n.
Proof.
  unfold vertex_set. rewrite size_list_to_set by apply NoDup_seqZ.
  unfold range1. by rewrite length_seqZ.
Qed.

Lemma elem_of_vertex_set n v : v ∈ vertex_set n ↔ 1 ≤ v ≤ n.
Proof. unfold vertex_set, range1. rewrite elem_of_list_to_set, elem_of_seqZ. lia. Qed.

Lemma size_unvisited_insert (n : Z) (X : gset Z) (w : Z) : 1 ≤ w ≤ n → w ∉ X →
  size (vertex_set n ∖ X) = S (size (vertex_set n ∖ (X ∪ {[w]}))).
Proof.
  intros Hw Hnin.
  assert (vertex_set n ∖ X = {[w]} ∪ vertex_set n ∖ (X ∪ {[w]})) as ->.
  { apply set_eq. intros v.
    rewrite elem_of_union, !elem_of_difference, elem_of_union, elem_of_singleton,
      !elem_of_vertex_set.
    destruct (decide (v = w)) as [->|]; naive_solver. }
  rewrite size_union, size_singleton; [done|]. set_solver.
Qed.

(** * Breadth-first search computes shortest hop counts *)

Section bfs.
Context {R : Type} `{GraphRepresentation R}.
Variable g : Graph.t R.
Hypothesis Hg : searchable g.
Variable s : Z.
Hypothesis Hs : 1 ≤ s ≤ Graph.vertex_count g.

Local Abbreviation N := (Graph.vertex_count g).
Local Abbreviation levels := Graph.bfs_levels.
Local Abbreviation parents := Graph.bfs_parents.
Local Abbreviation queue := Graph.bfs_queue.

(** The head of the waiting vertices has level [k] or [k + 1], and no
    level exceeds its own by more than one. *)
Lemma window_head u q st : bfs_inv g s (u :: q) st →
  ∃ lu, levels st !! u = Some lu ∧ 0 ≤ lu ∧
        ∀ v l, levels st !! v = Some l → l ≤ lu + 1.
Proof.
  intros Hinv. destruct (bi_window _ _ _ _ Hinv) as (k & qa & qb & Hk & Hsplit & Ha & Hb & Hmax).
  destruct qa as [|a qa].
  - destruct qb as [|b qb]; [done|]. simpl in Hsplit. injection Hsplit as <- _.
    apply Forall_cons_1 in Hb as [Hb _]. exists (k + 1). split; [done|].
    split; [lia|]. intros v l Hl. specialize (Hmax v l Hl). lia.
  - simpl in Hsplit. injection Hsplit as <- _.
    apply Forall_cons_1 in Ha as [Ha _]. exists k. eauto.
Qed.

Lemma bfs_visit_inv u q w st :
  bfs_inv g s (u :: q) st → adjacent g u w →
  ∃ st', Graph.bfs_visit u w st = Return st' ∧ bfs_inv g s (u :: q) st' ∧
         (∃ lw, levels st' !! w = Some lw ∧ lw ≠ -1) ∧
         bfs_measure st' = bfs_measure st ∧
         (∀ v l, levels st !! v = Some l → l ≠ -1 → levels st' !! v = Some l).
Proof.
  intros Hinv Hadj.
  destruct (window_head _ _ _ Hinv) as (lu & Hlu & Hlu0 & Hmax).
  assert (1 ≤ w ≤ N) as Hw.
  { destruct Hadj as (ns & Hns & Hin).
    assert (1 ≤ u ≤ N) as Hu by (apply (bi_dom _ _ _ _ Hinv); eauto).
    destruct (searchable_neighbors _ Hg u Hu) as (ns' & Hns' & _ & Hrange).
    rewrite Hns in Hns'. injection Hns' as <-. by apply Hrange. }
  destruct (proj2 (bi_dom _ _ _ _ Hinv w) Hw) as [lw Hlw].
  unfold Graph.bfs_visit, getitem. rewrite Hlw. simpl.
  case_decide as Hun; [subst lw|by eauto 10].
  rewrite Hlu. simpl. eexists. split; [reflexivity|].
  assert (∀ v l, levels st !! v = Some l → l ≠ -1 →
                 <[w:=lu + 1]> (levels st) !! v = Some l) as Hkeep.
  { intros v l Hl Hne. rewrite lookup_insert_ne; [done|]. intros ->. congruence. }
  split; [|split; [|split]].
  - destruct Hinv as [Hdom Hpdom Hstart Hpstart Hpun Hsound Hwin Hdone].
    split; simpl.
    + intros v. destruct (decide (w = v)) as [<-|Hne].
      * rewrite lookup_insert_eq. naive_solver.
      * rewrite lookup_insert_ne by done. apply Hdom.
    + intros v. destruct (decide (w = v)) as [<-|Hne].
      * rewrite lookup_insert_eq. naive_solver.
      * rewrite lookup_insert_ne by done. apply Hpdom.
    + by apply Hkeep.
    + rewrite lookup_insert_ne; [done|]. intros ->. congruence.
    + intros v Hv. destruct (decide (w = v)) as [<-|Hne].
      * rewrite lookup_insert_eq in Hv. injection Hv as ?. lia.
      * rewrite lookup_insert_ne in Hv by done.
        rewrite lookup_insert_ne by done. by apply Hpun.
    + intros v l Hl Hne. destruct (decide (w = v)) as [<-|Hwv].
      * rewrite lookup_insert_eq in Hl. injection Hl as <-.
        split; [lia|]. replace (Z.to_nat (lu + 1)) with (S (Z.to_nat lu)) by lia.
        eapply walk_step; [|exact Hadj]. apply (Hsound u lu); [done|lia].
      * rewrite lookup_insert_ne in Hl by done. by apply Hsound.
    + destruct Hwin as (k & qa & qb & Hk & Hsplit & Ha & Hb & Hbound).
      assert (∀ (c : Z) (l : list Z), 0 ≤ c →
                Forall (λ x, levels st !! x = Some c) l →
                Forall (λ x, <[w:=lu + 1]> (levels st) !! x = Some c) l) as Hfa.
      { intros c l Hc. apply List.Forall_impl. intros x Hx. apply Hkeep; [done|lia]. }
      destruct qa as [|a qa].
      * destruct qb as [|b qb]; [done|]. simpl in Hsplit.
        assert (b = u) as -> by congruence.
        assert (lu = k + 1) as ->.
        { apply Forall_cons_1 in Hb as [Hb _]. congruence. }
        exists (k + 1), (u :: qb), [w]. split; [lia|]. split.
        { simpl in *. injection Hsplit as Hsplit. by rewrite app_assoc, Hsplit. }
        split; [apply Hfa; [lia|done]|]. split.
        { apply Forall_singleton. by rewrite lookup_insert_eq. }
        intros v l Hl. destruct (decide (w = v)) as [<-|Hwv].
        -- rewrite lookup_insert_eq in Hl. injection Hl as <-. lia.
        -- rewrite lookup_insert_ne in Hl by done. specialize (Hbound v l Hl). lia.
      * simpl in Hsplit. assert (a = u) as -> by congruence.
        assert (lu = k) as ->.
        { apply Forall_cons_1 in Ha as [Ha _]. congruence. }
        exists k, (u :: qa), (qb ++ [w]). split; [done|]. split.
        { simpl in *. injection Hsplit as Hsplit.
          by rewrite app_assoc, Hsplit, <- app_assoc. }
        split; [apply Hfa; [lia|done]|]. split.
        { apply Forall_app. split; [apply Hfa; [lia|done]|].
          apply Forall_singleton. by rewrite lookup_insert_eq. }
        intros v l Hl. destruct (decide (w = v)) as [<-|Hwv].
        -- rewrite lookup_insert_eq in Hl. injection Hl as <-. lia.
        -- rewrite lookup_insert_ne in Hl by done. by apply (Hbound v).
    + intros v l Hl Hne Hnotin w' Hadj'.
      assert (w ≠ v) as Hwv.
      { intros ->. apply Hnotin. set_solver. }
      rewrite lookup_insert_ne in Hl by done.
      destruct (Hdone v l Hl Hne) with (w := w') as (lw & Hlw' & Hlwne & Hle); [|done|].
      { intros Hin. apply Hnotin. set_solver. }
      exists lw. split; [by apply Hkeep|done].
  - simpl. exists (lu + 1). rewrite lookup_insert_eq. split; [done|lia].
  - unfold bfs_measure. simpl. rewrite length_app. simpl.
    rewrite (unseen_insert (levels st) w (lu + 1)) by (done || lia). lia.
  - simpl. done.
Qed.

Lemma bfs_for_inv u q vs st :
  bfs_inv g s (u :: q) st → (∀ w, w ∈ vs → adjacent g u w) →
  ∃ st', Graph.bfs_for u vs st = Return st' ∧ bfs_inv g s (u :: q) st' ∧
         (∀ w, w ∈ vs → ∃ lw, levels st' !! w = Some lw ∧ lw ≠ -1) ∧
         bfs_measure st' = bfs_measure st ∧
         (∀ v l, levels st !! v = Some l → l ≠ -1 → levels st' !! v = Some l).
Proof.
  revert st. induction vs as [|w vs IH]; intros st Hinv Hadj; simpl.
  - exists st. split; [done|]. split; [done|]. split; [|done].
    by intros w ?%elem_of_nil.
  - destruct (bfs_visit_inv u q w st Hinv) as (st1 & Hv & Hinv1 & Hw1 & Hm1 & Hkeep1).
    { apply Hadj. apply list_elem_of_here. }
    rewrite Hv. simpl.
    destruct (IH st1 Hinv1) as (st2 & Hf & Hinv2 & Hw2 & Hm2 & Hkeep2).
    { intros w' Hw'. apply Hadj. by apply list_elem_of_further. }
    exists st2. split; [done|]. split; [done|]. split; [|split].
    + intros w' [->|Hw']%elem_of_cons.
      * destruct Hw1 as (lw & Hlw & Hne). exists lw. split; [by apply Hkeep2|done].
      * by apply Hw2.
    + congruence.
    + intros v l Hl Hne. apply Hkeep2; [|done]. by apply Hkeep1.
Qed.

(** One turn of the loop: the head of the queue has a neighbour list, the
    scan of that list succeeds, and the invariant holds again. *)
Lemma bfs_step_inv P L u q :
  bfs_inv g s [] (Graph.mk_bfs P L (u :: q)) →
  ∃ ns st', Graph.get_neighbors g u = Return ns ∧
            Graph.bfs_for u ns (Graph.mk_bfs P L q) = Return st' ∧
            bfs_inv g s [u] (Graph.mk_bfs P L q) ∧
            bfs_inv g s [] st' ∧
            bfs_measure st' = bfs_measure (Graph.mk_bfs P L q).
Proof.
  intros Hinv.
  assert (bfs_inv g s [u] (Graph.mk_bfs P L q)) as Hinv1.
  { destruct Hinv. split; done. }
  destruct (window_head _ _ _ Hinv1) as (lu & Hlu & Hlu0 & Hmax). simpl in Hlu.
  assert (1 ≤ u ≤ N) as Hu by (apply (bi_dom _ _ _ _ Hinv); simpl; eauto).
  destruct (searchable_neighbors _ Hg u Hu) as (ns & Hns & _ & Hrange).
  destruct (bfs_for_inv u [] ns (Graph.mk_bfs P L q) Hinv1)
    as (st' & Hfor & Hinv' & Hseen & Hm & Hkeep).
  { intros w Hw. exists ns. done. }
  exists ns, st'. split; [done|]. split; [done|]. split; [done|]. split; [|done].
  simpl in Hkeep. pose proof (Hkeep u lu Hlu ltac:(lia)) as Hlu'.
  destruct (window_head _ _ _ Hinv') as (lu2 & Hlu2 & _ & Hmax').
  assert (lu2 = lu) as -> by congruence.
  destruct Hinv' as [Hdom Hpdom Hstart Hpstart Hpun Hsound Hwin Hdone].
  split; try done.
  - destruct Hwin as (k & qa & qb & Hk & Hsplit & Ha & Hb & Hbound).
    simpl in Hsplit. destruct qa as [|a qa].
    + destruct qb as [|b qb]; [done|]. simpl in Hsplit.
      injection Hsplit as -> Hq. apply Forall_cons_1 in Hb as [_ Hb].
      exists (k + 1), qb, []. split; [lia|]. split; [by rewrite app_nil_r|].
      split; [done|]. split; [constructor|].
      intros v l Hl. specialize (Hbound v l Hl). lia.
    + simpl in Hsplit. injection Hsplit as -> Hq.
      apply Forall_cons_1 in Ha as [_ Ha]. exists k, qa, qb. done.
  - intros v l Hl Hne Hnotin w Hadj. simpl in Hnotin.
    destruct (decide (v = u)) as [->|Hvu].
    + assert (l = lu) as -> by congruence.
      destruct Hadj as (ns' & Hns' & Hin). rewrite Hns in Hns'.
      injection Hns' as <-. destruct (Hseen w Hin) as (lw & Hlw & Hlwne).
      exists lw. split; [done|]. split; [done|]. by apply (Hmax' w).
    + apply (Hdone v l Hl Hne); [|done]. simpl.
      rewrite elem_of_cons. naive_solver.
Qed.

(** With more fuel than unseen and waiting vertices the loop ends, in a
    state that satisfies the invariant with an empty queue. *)
Lemma bfs_while_inv fuel st :
  bfs_inv g s [] st → (bfs_measure st < fuel)%nat →
  ∃ P L, Graph.bfs_while fuel g st = Some (Return (P, L)) ∧
         bfs_inv g s [] (Graph.mk_bfs P L []).
Proof.
  revert st. induction fuel as [|fuel IH]; intros st Hinv Hfuel; [lia|].
  destruct st as [P L q]. simpl. destruct q as [|u q].
  - exists P, L. done.
  - destruct (bfs_step_inv P L u q Hinv) as (ns & st' & Hns & Hfor & _ & Hinv' & Hm).
    rewrite Hns, Hfor. apply IH; [done|].
    rewrite Hm. unfold bfs_measure in *. simpl in *. lia.
Qed.

Lemma bfs_initial :
  let st := Graph.mk_bfs (Graph.dict_of_range N None)
              (<[s:=0]> (Graph.dict_of_range N (-1))) [s] in
  bfs_inv g s [] st ∧ (bfs_measure st < Graph.search_fuel g)%nat.
Proof.
  intros st. unfold st, Graph.dict_of_range. split.
  - split; simpl.
    + intros v. destruct (decide (s = v)) as [<-|Hne].
      * rewrite lookup_insert_eq. naive_solver.
      * rewrite lookup_insert_ne, lookup_range_dict by done.
        case_decide; [naive_solver|]. split; [by intros [? ?]|done].
    + intros v. rewrite lookup_range_dict.
      case_decide; [naive_solver|]. split; [by intros [? ?]|done].
    + apply lookup_insert_eq.
    + rewrite lookup_range_dict. by rewrite decide_True.
    + intros v Hv. destruct (decide (s = v)) as [<-|Hne].
      * by rewrite lookup_insert_eq in Hv.
      * rewrite lookup_insert_ne, lookup_range_dict in Hv by done.
        rewrite lookup_range_dict. by case_decide.
    + intros v l Hl Hne. destruct (decide (s = v)) as [<-|Hsv].
      * rewrite lookup_insert_eq in Hl. injection Hl as <-. split; [done|]. constructor.
      * rewrite lookup_insert_ne, lookup_range_dict in Hl by done.
        case_decide; congruence.
    + exists 0, [s], []. split; [done|]. split; [done|]. split.
      { apply Forall_singleton. apply lookup_insert_eq. }
      split; [constructor|]. intros v l Hl.
      destruct (decide (s = v)) as [<-|Hsv].
      * rewrite lookup_insert_eq in Hl. injection Hl as <-. lia.
      * rewrite lookup_insert_ne, lookup_range_dict in Hl by done.
        case_decide; [|done]. injection Hl as <-. lia.
    + intros v l Hl Hne Hnotin. destruct (decide (s = v)) as [<-|Hsv].
      * exfalso. apply Hnotin. apply list_elem_of_here.
      * rewrite lookup_insert_ne, lookup_range_dict in Hl by done.
        case_decide; congruence.
  - unfold bfs_measure, Graph.search_fuel. simpl.
    assert (unseen (<[s:=0]> (list_to_map ((λ v, (v, -1)) <$> range1 N)))
            ⊆ vertex_set N ∖ {[s]}) as Hsub.
    { intros v. rewrite elem_of_unseen, elem_of_difference, elem_of_vertex_set.
      rewrite elem_of_singleton.
      destruct (decide (s = v)) as [<-|Hsv].
      - by rewrite lookup_insert_eq.
      - rewrite lookup_insert_ne, lookup_range_dict by done. case_decide; [|done].
        intros _. split; [lia|congruence]. }
    apply subseteq_size in Hsub.
    rewrite size_difference in Hsub.
    + rewrite size_vertex_set, size_singleton in Hsub. lia.
    + apply singleton_subseteq_l. by apply elem_of_vertex_set.
Qed.

Lemma bfs_returns :
  ∃ P L, Graph.breadth_first_search g s = Some (Return (P, L)) ∧
         bfs_inv g s [] (Graph.mk_bfs P L []).
Proof.
  unfold Graph.breadth_first_search.
  rewrite (proj2 (is_vertex_within_bounds_true _ _) Hs). cbn [negb].
  apply bfs_while_inv; apply bfs_initial.
Qed.

(** At the end every walk from the start is matched by a level. *)
Lemma bfs_complete P L v n :
  bfs_inv g s [] (Graph.mk_bfs P L []) → walk g s v n →
  ∃ l, L !! v = Some l ∧ l ≠ -1 ∧ l ≤ Z.of_nat n.
Proof.
  intros Hinv. induction 1 as [|v w n Hwalk IH Hadj].
  - exists 0. split; [apply (bi_start _ _ _ _ Hinv)|]. lia.
  - destruct IH as (l & Hl & Hne & Hle).
    destruct (bi_done _ _ _ _ Hinv v l Hl Hne) with (w := w) as (lw & Hlw & Hlwne & Hlwle).
    + simpl. by intros ?%elem_of_nil.
    + done.
    + exists lw. split; [done|]. split; [done|]. lia.
Qed.

Lemma bfs_levels_spec P L :
  bfs_inv g s [] (Graph.mk_bfs P L []) →
  L !! s = Some 0 ∧
  (∀ v, is_Some (L !! v) ↔ 1 ≤ v ≤ N) ∧
  (∀ v, 1 ≤ v ≤ N → (L !! v = Some (-1) ↔ ¬ connected g s v)) ∧
  (∀ v n, distance g s v n ↔ L !! v = Some (Z.of_nat n)).
Proof.
  intros Hinv. split; [apply (bi_start _ _ _ _ Hinv)|]. split; [apply (bi_dom _ _ _ _ Hinv)|].
  split.
  - intros v Hv. split.
    + intros Hl [n Hwalk]. destruct (bfs_complete P L v n Hinv Hwalk) as (l & Hl' & Hne & _).
      congruence.
    + intros Hnc. destruct (proj2 (bi_dom _ _ _ _ Hinv v) Hv) as [l Hl]. simpl in Hl.
      destruct (decide (l = -1)) as [->|Hne]; [done|].
      exfalso. apply Hnc. exists (Z.to_nat l). by apply (bi_sound _ _ _ _ Hinv).
  - intros v n. split.
    + intros [Hwalk Hmin].
      destruct (bfs_complete P L v n Hinv Hwalk) as (l & Hl & Hne & Hle).
      destruct (bi_sound _ _ _ _ Hinv v l Hl Hne) as [Hl0 Hwalk'].
      apply Hmin in Hwalk'. rewrite Hl. f_equal. lia.
    + intros Hl. destruct (bi_sound _ _ _ _ Hinv v _ Hl ltac:(lia)) as [_ Hwalk].
      rewrite Nat2Z.id in Hwalk. split; [done|].
      intros m Hm. destruct (bfs_complete P L v m Hinv Hm) as (l & Hl' & _ & Hle).
      simpl in Hl. rewrite Hl in Hl'. injection Hl' as <-. lia.
Qed.

End bfs.

(** * Facts about [sorted] and [list_pop] *)

Section sorted_facts.
Context {A : Type}.
Implicit Types (key : A → Z) (l : list A).

Lemma sorted_insert_Permutation (before : A → A → bool) x l :
  sorted_insert before x l ≡ₚ x :: l.
Proof.
  induction l as [|y l IH]; simpl; [done|].
  destruct (before x y); [done|]. rewrite IH. apply Permutation_swap.
Qed.

Lemma sorted_Permutation key reverse l : sorted key reverse l ≡ₚ l.
Proof.
  induction l as [|x l IH]; simpl; [done|].
  unfold sorted in *. simpl. by rewrite sorted_insert_Permutation, IH.
Qed.

Lemma sorted_insert_StronglySorted key reverse x l :
  StronglySorted (key_before key reverse) l →
  StronglySorted (key_before key reverse)
    (sorted_insert (λ x y, if reverse then key y <=? key x else key x <=? key y) x l).
Proof.
  induction 1 as [|y l Hl IH Hy]; simpl.
  - repeat constructor.
  - destruct (if reverse then key y <=? key x else key x <=? key y) eqn:Hxy.
    + constructor; [by constructor|]. constructor.
      * unfold key_before. destruct reverse; lia.
      * eapply List.Forall_impl; [|exact Hy]. intros z. unfold key_before.
        destruct reverse; lia.
    + constructor; [done|]. rewrite sorted_insert_Permutation. constructor; [|done].
      unfold key_before. destruct reverse; lia.
Qed.

Lemma sorted_StronglySorted key reverse l :
  StronglySorted (key_before key reverse) (sorted key reverse l).
Proof.
  induction l as [|x l IH]; [constructor|].
  unfold sorted in *. simpl. by apply sorted_insert_StronglySorted.
Qed.

End sorted_facts.

Lemma sorted_id_unique (reverse : bool) (l1 l2 : list Z) :
  l1 ≡ₚ l2 → sorted id reverse l1 = sorted id reverse l2.
Proof.
  intros Hperm.
  apply (StronglySorted_unique_strong (key_before id reverse)).
  - intros x y _ _ Hxy Hyx. unfold key_before in *. simpl in *. destruct reverse; lia.
  - apply sorted_StronglySorted.
  - apply sorted_StronglySorted.
  - by rewrite !sorted_Permutation.
Qed.

Lemma list_pop_nil {A : Type} : list_pop (@nil A) = None.
Proof. done. Qed.

Lemma list_pop_snoc {A : Type} (l : list A) (x : A) : list_pop (l ++ [x]) = Some (l, x).
Proof. unfold list_pop. rewrite reverse_snoc. by rewrite reverse_involutive. Qed.

Lemma list_pop_Some {A : Type} (l r : list A) (x : A) :
  list_pop l = Some (r, x) → l = r ++ [x].
Proof.
  destruct l as [|a l _] using rev_ind; [done|].
  rewrite list_pop_snoc. by intros [= -> ->].
Qed.

Lemma list_pop_None {A : Type} (l : list A) : list_pop l = None → l = [].
Proof.
  destruct l as [|a l _] using rev_ind; [done|]. by rewrite list_pop_snoc.
Qed.

(** * Depth-first search *)

Section dfs.
Context {R : Type} `{GraphRepresentation R}.
Variable g : Graph.t R.
Hypothesis Hg : searchable g.
Variable s : Z.
Hypothesis Hs : 1 ≤ s ≤ Graph.vertex_count g.

Local Abbreviation N := (Graph.vertex_count g).
Local Abbreviation levels := Graph.dfs_levels.
Local Abbreviation parents := Graph.dfs_parents.
Local Abbreviation stack := Graph.dfs_stack.
Local Abbreviation visited := Graph.dfs_visited.

Lemma adjacent_valid u w : 1 ≤ u ≤ N → adjacent g u w → 1 ≤ w ≤ N.
Proof.
  intros Hu (ns & Hns & Hin).
  destruct (searchable_neighbors _ Hg u Hu) as (ns' & Hns' & _ & Hrange).
  rewrite Hns in Hns'. injection Hns' as <-. by apply Hrange.
Qed.

Lemma dfs_visit_inv u lvl w st :
  dfs_inv g s [u] st → u ∈ visited st → levels st !! u = Some lvl → adjacent g u w →
  let st' := Graph.dfs_visit u lvl w st in
  dfs_inv g s [u] st' ∧ w ∈ visited st' ∧ dfs_measure g st' = dfs_measure g st ∧
  visited st ⊆ visited st' ∧ levels st' !! u = Some lvl.
Proof.
  intros Hinv Hu Hlu Hadj st'. unfold st', Graph.dfs_visit.
  case_decide as Hvis; [done|].
  destruct (di_sound _ _ _ _ Hinv u Hu) as (Huv & lu & Hlu' & Hlu0 & Hwalk).
  assert (lu = lvl) as -> by congruence.
  assert (1 ≤ w ≤ N) as Hw by (by eapply adjacent_valid).
  assert (u ≠ w) as Huw by (by intros ->).
  split; [|split; [|split; [|split]]]; simpl.
  - destruct Hinv as [Hdom Hpdom Hstart Hpstart Hunv Hsound Hstack Hdone].
    assert (∀ v, v ∈ visited st → <[w:=lvl + 1]> (levels st) !! v = levels st !! v) as Hkeep.
    { intros v Hv. rewrite lookup_insert_ne; [done|]. by intros ->. }
    split; simpl.
    + intros v. destruct (decide (w = v)) as [<-|Hne].
      * rewrite lookup_insert_eq. naive_solver.
      * rewrite lookup_insert_ne by done. apply Hdom.
    + intros v. destruct (decide (w = v)) as [<-|Hne].
      * rewrite lookup_insert_eq. naive_solver.
      * rewrite lookup_insert_ne by done. apply Hpdom.
    + rewrite lookup_insert_ne; [done|]. intros ->.
      destruct (Hunv s Hvis Hs) as [Hl _]. congruence.
    + rewrite lookup_insert_ne; [done|]. intros ->.
      destruct (Hunv s Hvis Hs) as [Hl _]. congruence.
    + intros v Hv Hvalid. apply not_elem_of_union in Hv as [Hv Hvw].
      apply not_elem_of_singleton in Hvw.
      rewrite !lookup_insert_ne by done. by apply Hunv.
    + intros v [Hv|Hv%elem_of_singleton]%elem_of_union.
      * rewrite Hkeep by done. by apply Hsound.
      * subst v. split; [done|]. exists (lvl + 1). rewrite lookup_insert_eq.
        split; [done|]. split; [lia|].
        replace (Z.to_nat (lvl + 1)) with (S (Z.to_nat lvl)) by lia.
        by eapply walk_step.
    + intros x l [Hx|Hx%list_elem_of_singleton]%elem_of_app.
      * destruct (Hstack x l Hx) as [Hxv Hxl].
        split; [set_solver|]. by rewrite Hkeep.
      * injection Hx as -> ->. split; [set_solver|]. by rewrite lookup_insert_eq.
    + intros v Hv Hnotin w' Hadj'. rewrite fmap_app in Hnotin. simpl in Hnotin.
      apply elem_of_union in Hv as [Hv|Hv%elem_of_singleton].
      * apply elem_of_union. left. apply (Hdone v Hv); [|done]. set_solver.
      * subst v. exfalso. apply Hnotin. set_solver.
  - set_solver.
  - unfold dfs_measure. simpl. rewrite length_app. simpl.
    rewrite (size_unvisited_insert N (visited st) w) by done. lia.
  - set_solver.
  - by rewrite lookup_insert_ne.
Qed.

Lemma dfs_for_inv u lvl vs st :
  dfs_inv g s [u] st → u ∈ visited st → levels st !! u = Some lvl →
  (∀ w, w ∈ vs → adjacent g u w) →
  let st' := Graph.dfs_for u lvl vs st in
  dfs_inv g s [u] st' ∧ (∀ w, w ∈ vs → w ∈ visited st') ∧
  dfs_measure g st' = dfs_measure g st ∧ visited st ⊆ visited st'.
Proof.
  revert st. induction vs as [|w vs IH]; intros st Hinv Hu Hlu Hadj; simpl.
  - split; [done|]. split; [by intros w ?%elem_of_nil|done].
  - destruct (dfs_visit_inv u lvl w st Hinv Hu Hlu) as (Hinv1 & Hw1 & Hm1 & Hsub1 & Hlu1).
    { apply Hadj. apply list_elem_of_here. }
    destruct (IH (Graph.dfs_visit u lvl w st) Hinv1) as (Hinv2 & Hw2 & Hm2 & Hsub2).
    { by apply Hsub1. }
    { done. }
    { intros w' Hw'. apply Hadj. by apply list_elem_of_further. }
    unfold Graph.dfs_for in *. split; [done|]. split; [|split].
    + intros w' [->|Hw']%elem_of_cons; [by apply Hsub2|by apply Hw2].
    + congruence.
    + set_solver.
Qed.

(** One turn of the loop: the vertex popped from the stack is visited and
    carries the level stored with it, it has a neighbour list, and the
    invariant holds again after the scan of that list. *)
Lemma dfs_step_inv P L stk u lvl V :
  dfs_inv g s [] (Graph.mk_dfs P L (stk ++ [(u, lvl)]) V) →
  ∃ ns, Graph.get_neighbors g u = Return ns ∧
        u ∈ V ∧ L !! u = Some lvl ∧
        dfs_inv g s [u] (Graph.mk_dfs P L stk V) ∧
        dfs_inv g s [] (Graph.dfs_for u lvl (sorted id true ns) (Graph.mk_dfs P L stk V)) ∧
        dfs_measure g (Graph.dfs_for u lvl (sorted id true ns) (Graph.mk_dfs P L stk V))
          = dfs_measure g (Graph.mk_dfs P L stk V).
Proof.
  intros Hinv.
  destruct (di_stack _ _ _ _ Hinv u lvl) as [Hu Hlu]; [simpl; set_solver|].
  simpl in Hu, Hlu.
  destruct (di_sound _ _ _ _ Hinv u Hu) as (Huv & _).
  destruct (searchable_neighbors _ Hg u Huv) as (ns & Hns & _ & Hrange).
  exists ns. split; [done|]. split; [done|]. split; [done|].
  assert (dfs_inv g s [u] (Graph.mk_dfs P L stk V)) as Hinv1.
  { destruct Hinv as [Hdom Hpdom Hstart Hpstart Hunv Hsound Hstack Hdone].
    split; simpl in *; try done.
    - intros x l Hx. apply Hstack. set_solver.
    - intros v Hv Hnotin. apply Hdone; [done|]. rewrite fmap_app. simpl. set_solver. }
  split; [done|].
  destruct (dfs_for_inv u lvl (sorted id true ns) (Graph.mk_dfs P L stk V) Hinv1 Hu Hlu)
    as (Hinv' & Hseen & Hm & Hsub).
  { intros w Hw. exists ns. split; [done|]. by rewrite sorted_Permutation in Hw. }
  split; [|done].
  destruct Hinv' as [Hdom Hpdom Hstart Hpstart Hunv Hsound Hstack Hdone].
  split; try done.
  intros v Hv Hnotin w Hadj. destruct (decide (v = u)) as [->|Hvu].
  - destruct Hadj as (ns' & Hns' & Hin). rewrite Hns in Hns'. injection Hns' as <-.
    apply Hseen. by rewrite sorted_Permutation.
  - apply (Hdone v Hv); [|done]. simpl in *. set_solver.
Qed.

Lemma dfs_while_inv fuel st :
  dfs_inv g s [] st → (dfs_measure g st < fuel)%nat →
  ∃ P L, Graph.dfs_while fuel g st = Some (Return (P, L)) ∧
         ∃ V, dfs_inv g s [] (Graph.mk_dfs P L [] V).
Proof.
  revert st. induction fuel as [|fuel IH]; intros st Hinv Hfuel; [lia|].
  destruct st as [P L stk V]. simpl.
  destruct (list_pop stk) as [[stk' [u lvl]]|] eqn:Hpop.
  - apply list_pop_Some in Hpop. subst stk.
    destruct (dfs_step_inv P L stk' u lvl V Hinv) as (ns & Hns & _ & _ & _ & Hinv' & Hm).
    rewrite Hns. apply IH; [done|].
    rewrite Hm. unfold dfs_measure in *. simpl in *. rewrite length_app in Hfuel.
    simpl in Hfuel. lia.
  - apply list_pop_None in Hpop. subst stk. exists P, L. split; [done|]. by exists V.
Qed.

Lemma dfs_initial :
  let st := Graph.mk_dfs (<[s:=None]> (Graph.dict_of_range N None))
              (<[s:=0]> (Graph.dict_of_range N (-1))) [(s, 0)] {[s]} in
  dfs_inv g s [] st ∧ (dfs_measure g st < Graph.search_fuel g)%nat.
Proof.
  intros st. unfold st, Graph.dict_of_range. split.
  - split; simpl.
    + intros v. destruct (decide (s = v)) as [<-|Hne].
      * rewrite lookup_insert_eq. naive_solver.
      * rewrite lookup_insert_ne, lookup_range_dict by done.
        case_decide; [naive_solver|]. split; [by intros [? ?]|done].
    + intros v. destruct (decide (s = v)) as [<-|Hne].
      * rewrite lookup_insert_eq. naive_solver.
      * rewrite lookup_insert_ne, lookup_range_dict by done.
        case_decide; [naive_solver|]. split; [by intros [? ?]|done].
    + apply lookup_insert_eq.
    + apply lookup_insert_eq.
    + intros v Hv Hvalid. apply not_elem_of_singleton in Hv.
      rewrite !lookup_insert_ne, !lookup_range_dict by done.
      by rewrite !decide_True.
    + intros v ->%elem_of_singleton. split; [done|]. exists 0.
      rewrite lookup_insert_eq. split; [done|]. split; [done|]. constructor.
    + intros x l [= -> ->]%list_elem_of_singleton.
      split; [set_solver|]. apply lookup_insert_eq.
    + intros v ->%elem_of_singleton Hnotin. exfalso. apply Hnotin. set_solver.
  - unfold dfs_measure, Graph.search_fuel. simpl.
    pose proof (size_unvisited_insert N ∅ s Hs ltac:(set_solver)) as Hsize.
    rewrite difference_empty_L, union_empty_l_L in Hsize.
    rewrite size_vertex_set in Hsize. lia.
Qed.

Lemma dfs_returns :
  ∃ P L, Graph.depth_first_search g s = Some (Return (P, L)) ∧
         ∃ V, dfs_inv g s [] (Graph.mk_dfs P L [] V).
Proof.
  unfold Graph.depth_first_search.
  assert ((1 <=? s) && (s <=? N) = true) as -> by (apply andb_true_iff; lia).
  cbn [negb]. apply dfs_while_inv; apply dfs_initial.
Qed.

(** At the end the visited vertices are exactly those connected to the
    start. *)
Lemma dfs_complete P L V v n :
  dfs_inv g s [] (Graph.mk_dfs P L [] V) → walk g s v n → v ∈ V.
Proof.
  intros Hinv. induction 1 as [|v w n Hwalk IH Hadj].
  - destruct (decide (s ∈ V)) as [|Hnin]; [done|].
    destruct (di_unvisited _ _ _ _ Hinv s Hnin Hs) as [Hl _].
    pose proof (di_start _ _ _ _ Hinv) as Hl'. simpl in *. congruence.
  - apply (di_done _ _ _ _ Hinv v IH); [|done]. simpl. by intros ?%elem_of_nil.
Qed.

Lemma dfs_spec P L V :
  dfs_inv g s [] (Graph.mk_dfs P L [] V) →
  (∀ v, is_Some (P !! v) ↔ 1 ≤ v ≤ N) ∧
  (∀ v, is_Some (L !! v) ↔ 1 ≤ v ≤ N) ∧
  P !! s = Some None ∧ L !! s = Some 0 ∧
  (∀ v, 1 ≤ v ≤ N → (L !! v = Some (-1) ↔ ¬ connected g s v)) ∧
  (∀ v, L !! v = Some (-1) → P !! v = Some None) ∧
  (∀ v l, L !! v = Some l → l ≠ -1 → 0 ≤ l ∧ walk g s v (Z.to_nat l)).
Proof.
  intros Hinv.
  split; [apply (di_pdom _ _ _ _ Hinv)|]. split; [apply (di_dom _ _ _ _ Hinv)|].
  split; [apply (di_pstart _ _ _ _ Hinv)|]. split; [apply (di_start _ _ _ _ Hinv)|].
  assert (∀ v l, L !! v = Some l → l ≠ -1 → v ∈ V) as Hin.
  { intros v l Hl Hne. destruct (decide (v ∈ V)) as [|Hnin]; [done|].
    assert (1 ≤ v ≤ N) as Hv by (apply (di_dom _ _ _ _ Hinv); simpl; eauto).
    destruct (di_unvisited _ _ _ _ Hinv v Hnin Hv) as [Hl' _]. simpl in *. congruence. }
  split; [|split].
  - intros v Hv. split.
    + intros Hl [n Hwalk]. pose proof (dfs_complete P L V v n Hinv Hwalk) as Hvis.
      destruct (di_sound _ _ _ _ Hinv v Hvis) as (_ & l & Hl' & Hl0 & _). simpl in *.
      rewrite Hl in Hl'. injection Hl' as <-. lia.
    + intros Hnc. destruct (decide (v ∈ V)) as [Hvis|Hnin].
      * exfalso. apply Hnc. destruct (di_sound _ _ _ _ Hinv v Hvis) as (_ & l & _ & _ & Hwalk).
        by exists (Z.to_nat l).
      * by destruct (di_unvisited _ _ _ _ Hinv v Hnin Hv).
  - intros v Hl. destruct (decide (v ∈ V)) as [Hvis|Hnin].
    + destruct (di_sound _ _ _ _ Hinv v Hvis) as (_ & l & Hl' & Hl0 & _). simpl in *.
      rewrite Hl in Hl'. injection Hl' as <-. lia.
    + assert (1 ≤ v ≤ N) as Hv by (apply (di_dom _ _ _ _ Hinv); simpl; eauto).
      by destruct (di_unvisited _ _ _ _ Hinv v Hnin Hv).
  - intros v l Hl Hne. pose proof (Hin v l Hl Hne) as Hvis.
    destruct (di_sound _ _ _ _ Hinv v Hvis) as (_ & l' & Hl' & Hl0 & Hwalk). simpl in *.
    rewrite Hl in Hl'. injection Hl' as <-. done.
Qed.

End dfs.

(** * Two graphs that list the same neighbours *)

Section agreement.
Context {R1 R2 : Type} `{GraphRepresentation R1} `{GraphRepresentation R2}.

Lemma adjacent_agree (g1 : Graph.t R1) (g2 : Graph.t R2) u v :
  same_neighbors g1 g2 → adjacent g1 u v → adjacent g2 u v.
Proof.
  intros [_ Hsame] (ns & Hns & Hin). specialize (Hsame u). rewrite Hns in Hsame.
  destruct (Graph.get_neighbors g2 u) as [ns2|] eqn:Hns2; [|done].
  exists ns2. split; [done|]. by rewrite <- Hsame.
Qed.

Lemma walk_agree (g1 : Graph.t R1) (g2 : Graph.t R2) u v n :
  same_neighbors g1 g2 → walk g1 u v n → walk g2 u v n.
Proof.
  intros Hsame. induction 1 as [|v w n Hwalk IH Hadj]; [constructor|].
  eapply walk_step; [done|]. by eapply adjacent_agree.
Qed.

Lemma dfs_while_agree fuel (g1 : Graph.t R1) (g2 : Graph.t R2) st : same_neighbors g1 g2 →
  Graph.dfs_while fuel g1 st = Graph.dfs_while fuel g2 st.
Proof.
  intros Hsame. revert st. induction fuel as [|fuel IH]; intros st; simpl; [done|].
  destruct (list_pop (Graph.dfs_stack st)) as [[stk [u lvl]]|]; [|done].
  destruct Hsame as [HN Hnb]. specialize (Hnb u).
  destruct (Graph.get_neighbors g1 u) as [n1|e1], (Graph.get_neighbors g2 u) as [n2|e2];
    try done; [|by subst].
  rewrite (sorted_id_unique true n1 n2 Hnb). apply IH.
Qed.

Lemma depth_first_search_agree (g1 : Graph.t R1) (g2 : Graph.t R2) s : same_neighbors g1 g2 →
  Graph.depth_first_search g1 s = Graph.depth_first_search g2 s.
Proof.
  intros Hsame. unfold Graph.depth_first_search, Graph.search_fuel.
  rewrite (dfs_while_agree _ g1 g2) by done. destruct Hsame as [-> _]. done.
Qed.

End agreement.

Lemma same_neighbors_sym {R1 R2 : Type} `{GraphRepresentation R1} `{GraphRepresentation R2}
    (g1 : Graph.t R1) (g2 : Graph.t R2) :
  same_neighbors g1 g2 → same_neighbors g2 g1.
Proof.
  intros [HN Hnb]. split; [done|]. intros u. specialize (Hnb u).
  destruct (Graph.get_neighbors g1 u), (Graph.get_neighbors g2 u); done.
Qed.

(** Graphs that went through the same calls list the same neighbours,
    whatever their representations. *)
Lemma models_same_neighbors {R1 R2 : Type}
    `{FaithfulRepresentation R1} `{FaithfulRepresentation R2}
    (cs : list Graph.call) (g1 : Graph.t R1) (g2 : Graph.t R2) :
  models cs g1 → models cs g2 → Graph.vertex_count g1 = Graph.vertex_count g2 →
  same_neighbors g1 g2.
Proof.
  intros Hm1 Hm2 HN. split; [done|]. intros u.
  destruct (decide (1 ≤ u ≤ Graph.vertex_count g1)) as [Hu|Hu].
  - destruct (neighbors_of_model cs g1 u Hm1 Hu) as (n1 & Hn1 & Hnd1 & _ & Hin1).
    rewrite HN in Hu.
    destruct (neighbors_of_model cs g2 u Hm2 Hu) as (n2 & Hn2 & Hnd2 & _ & Hin2).
    rewrite Hn1, Hn2. apply NoDup_Permutation; [done..|].
    intros x. rewrite Hin1, Hin2, HN. done.
  - rewrite get_neighbors_invalid by done. rewrite HN in Hu.
    by rewrite get_neighbors_invalid.
Qed.

(** * Connected components *)

Section stable_sort.
Context {A : Type}.
Implicit Types (key : A → Z) (l : list A).

Lemma occurs_before_lookup l i j a b :
  (i < j)%nat → l !! i = Some a → l !! j = Some b → occurs_before l a b.
Proof.
  intros Hij Hi Hj.
  destruct (list_elem_of_split_length l i a Hi) as (l1 & l2 & -> & Hlen).
  rewrite lookup_app_r in Hj by lia.
  destruct (j - length l1)%nat as [|j'] eqn:Hj'; [lia|]. simpl in Hj.
  destruct (list_elem_of_split_length l2 j' b Hj) as (l3 & l4 & -> & _).
  by exists l1, l3, l4.
Qed.

Lemma occurs_before_filter (P : A → Prop) `{∀ x, Decision (P x)} l a b :
  occurs_before l a b → P a → P b → occurs_before (filter P l) a b.
Proof.
  intros (l1 & l2 & l3 & ->) Ha Hb.
  exists (filter P l1), (filter P l2), (filter P l3).
  rewrite list.filter_app, filter_cons_True by done.
  by rewrite list.filter_app, filter_cons_True by done.
Qed.

Lemma occurs_before_StronglySorted (Rel : A → A → Prop) l a b :
  StronglySorted Rel l → occurs_before l a b → Rel a b.
Proof.
  intros Hsorted (l1 & l2 & l3 & ->).
  apply StronglySorted_app_1_r in Hsorted.
  apply (StronglySorted_app_1_elem_of _ [a] (l2 ++ b :: l3)); [done|set_solver..].
Qed.

Lemma filter_sorted_insert key (reverse : bool) (k : Z) x l :
  filter (λ y, key y = k)
    (sorted_insert (λ x y, if reverse then key y <=? key x else key x <=? key y) x l)
  = filter (λ y, key y = k) (x :: l).
Proof.
  induction l as [|y l IH]; simpl; [done|].
  destruct (if reverse then key y <=? key x else key x <=? key y) eqn:Hxy; [done|].
  rewrite (filter_cons _ y), IH, !(filter_cons _ x), !(filter_cons _ y).
  repeat case_decide; try done. destruct reverse; lia.
Qed.

(** [sorted] is stable: elements with the same key keep their order. *)
Lemma sorted_stable key reverse (k : Z) l :
  filter (λ y, key y = k) (sorted key reverse l) = filter (λ y, key y = k) l.
Proof.
  induction l as [|x l IH]; [done|].
  unfold sorted in *. simpl. rewrite filter_sorted_insert.
  by rewrite !(filter_cons _ x), IH.
Qed.

End stable_sort.

Section components.
Context {R : Type} `{GraphRepresentation R} `{SetIteration}.
Variable g : Graph.t R.
Hypothesis Hg : searchable g.

Local Abbreviation N := (Graph.vertex_count g).

Lemma fill_visit_inv V0 u w st :
  fill_inv g V0 [u] st → adjacent g u w →
  let st' := Graph.fill_visit w st in
  fill_inv g V0 [u] st' ∧ fill_measure g st' = fill_measure g st ∧
  Graph.fill_component_nodes st ⊆ Graph.fill_component_nodes st'.
Proof.
  intros Hinv Hadj st'. unfold st', Graph.fill_visit.
  case_decide as Hvis; [done|].
  assert (1 ≤ u ≤ N) as Hu.
  { apply (fi_valid _ _ _ _ Hinv). apply (fi_queue _ _ _ _ Hinv). set_solver. }
  assert (1 ≤ w ≤ N) as Hw by (by eapply adjacent_valid).
  destruct Hinv as [Hvisited Hdisj Hqueue Hvalid].
  split; [split|split]; simpl.
  - rewrite Hvisited. set_solver.
  - rewrite Hvisited in Hvis. set_solver.
  - intros x Hx.
    assert (x ∈ [u] ++ Graph.fill_queue st ∨ x = w) as [Hx'| ->] by set_solver;
      [|set_solver].
    apply elem_of_union. left. by apply Hqueue.
  - intros x [Hx|Hx%elem_of_singleton]%elem_of_union; [by apply Hvalid|by subst].
  - unfold fill_measure. simpl. rewrite length_app. simpl.
    rewrite (size_unvisited_insert N (Graph.fill_visited st) w) by done. lia.
  - set_solver.
Qed.

Lemma fill_for_inv V0 u vs st :
  fill_inv g V0 [u] st → (∀ w, w ∈ vs → adjacent g u w) →
  let st' := Graph.fill_for vs st in
  fill_inv g V0 [u] st' ∧ fill_measure g st' = fill_measure g st ∧
  Graph.fill_component_nodes st ⊆ Graph.fill_component_nodes st'.
Proof.
  revert st. induction vs as [|w vs IH]; intros st Hinv Hadj; simpl; [done|].
  destruct (fill_visit_inv V0 u w st Hinv) as (Hinv1 & Hm1 & Hsub1).
  { apply Hadj. apply list_elem_of_here. }
  destruct (IH (Graph.fill_visit w st) Hinv1) as (Hinv2 & Hm2 & Hsub2).
  { intros w' Hw'. apply Hadj. by apply list_elem_of_further. }
  unfold Graph.fill_for in *. split; [done|]. split; [congruence|set_solver].
Qed.

Lemma fill_while_inv V0 fuel st :
  fill_inv g V0 [] st → (fill_measure g st < fuel)%nat →
  ∃ st', Graph.fill_while fuel g st = Some (Return st') ∧ fill_inv g V0 [] st' ∧
         Graph.fill_component_nodes st ⊆ Graph.fill_component_nodes st'.
Proof.
  revert st. induction fuel as [|fuel IH]; intros st Hinv Hfuel; [lia|].
  destruct st as [V C q]. simpl. destruct q as [|u q].
  - eexists. split; [reflexivity|]. done.
  - assert (1 ≤ u ≤ N) as Hu.
    { apply (fi_valid _ _ _ _ Hinv). apply (fi_queue _ _ _ _ Hinv). simpl. set_solver. }
    destruct (searchable_neighbors _ Hg u Hu) as (ns & Hns & _ & Hrange).
    rewrite Hns.
    assert (fill_inv g V0 [u] (Graph.mk_fill V C q)) as Hinv1.
    { destruct Hinv. split; done. }
    destruct (fill_for_inv V0 u ns (Graph.mk_fill V C q) Hinv1) as (Hinv' & Hm & Hsub).
    { intros w Hw. by exists ns. }
    destruct (IH (Graph.fill_for ns (Graph.mk_fill V C q))) as (st' & Hst' & Hinv'' & Hsub').
    + destruct Hinv' as [Hvisited Hdisj Hqueue Hvalid]. split; try done.
      intros x Hx. apply Hqueue. set_solver.
    + rewrite Hm. unfold fill_measure in *. simpl in *. lia.
    + exists st'. split; [done|]. split; [done|]. simpl in *. set_solver.
Qed.

(** The flood fill from an unvisited vertex [v]. *)
Lemma fill_returns V0 v : 1 ≤ v ≤ N → v ∉ V0 →
  ∃ st', Graph.fill_while (Graph.search_fuel g) g
           (Graph.mk_fill (V0 ∪ {[v]}) {[v]} [v]) = Some (Return st') ∧
         fill_inv g V0 [] st' ∧ v ∈ Graph.fill_component_nodes st'.
Proof.
  intros Hv Hnin.
  destruct (fill_while_inv V0 (Graph.search_fuel g) (Graph.mk_fill (V0 ∪ {[v]}) {[v]} [v]))
    as (st' & Hst' & Hinv' & Hsub).
  - split; simpl; [done|set_solver|set_solver|].
    by intros x ->%elem_of_singleton.
  - unfold fill_measure, Graph.search_fuel. simpl.
    pose proof (size_unvisited_insert N V0 v Hv Hnin) as Hsize.
    pose proof (subseteq_size (vertex_set N ∖ V0) (vertex_set N)) as Hle.
    rewrite size_vertex_set in Hle.
    specialize (Hle ltac:(set_solver)). lia.
  - exists st'. split; [done|]. split; [done|]. simpl in Hsub. set_solver.
Qed.

Lemma hd_sorted_min (l : list Z) (v : Z) :
  StronglySorted Z.le l → v ∈ l → (∀ x, x ∈ l → v ≤ x) → hd 0 l = v.
Proof.
  intros Hsorted Hin Hmin. destruct l as [|a l]; [by apply elem_of_nil in Hin|]. simpl.
  apply StronglySorted_inv in Hsorted as [_ Hall].
  assert (v ≤ a) by (apply Hmin; apply list_elem_of_here).
  apply elem_of_cons in Hin as [->|Hin]; [done|].
  rewrite List.Forall_forall in Hall. apply list_elem_of_In, Hall in Hin. lia.
Qed.

Lemma components_for_inv vs lo visited cs :
  vs = seqZ lo (N + 1 - lo) → 1 ≤ lo →
  components_inv g lo visited cs →
  ∃ cs', Graph.components_for g vs visited cs = Some (Return cs') ∧
         ∃ visited', components_inv g (Z.max lo (N + 1)) visited' cs'.
Proof.
  revert lo visited cs. induction vs as [|v vs IH]; intros lo visited cs Hvs Hlo Hinv;
    cbn [Graph.components_for].
  - exists cs. split; [done|]. exists visited.
    assert (N + 1 - lo ≤ 0) as Hle.
    { destruct (decide (N + 1 - lo ≤ 0)); [done|]. rewrite seqZ_cons in Hvs by lia. done. }
    replace (Z.max lo (N + 1)) with lo by lia. done.
  - assert (0 < N + 1 - lo) as Hpos.
    { destruct (decide (0 < N + 1 - lo)); [done|]. rewrite seqZ_nil in Hvs by lia. done. }
    rewrite seqZ_cons in Hvs by lia. injection Hvs as -> Hvs.
    replace (Z.succ lo) with (lo + 1) in Hvs by lia.
    replace (Z.pred (N + 1 - lo)) with (N + 1 - (lo + 1)) in Hvs by lia.
    replace (Z.max lo (N + 1)) with (Z.max (lo + 1) (N + 1)) by lia.
    case_decide as Hvis.
    + apply (IH (lo + 1)); [done|lia|].
      destruct Hinv as [Hvisited Hvalid Hbelow Hnodup Hsize Hsorted Hmin Horder].
      split; try done.
      * intros v Hv. destruct (decide (v = lo)) as [->|]; [done|]. apply Hbelow. lia.
      * intros c Hc. destruct (Hmin c Hc). split; [done|lia].
    + destruct (fill_returns visited lo ltac:(lia) Hvis) as (st' & Hst' & Hfill & Hlo').
      rewrite Hst'. cbn [search_bind].
      destruct Hfill as [Hfvis Hfdisj _ Hfvalid].
      destruct Hinv as [Hvisited Hvalid Hbelow Hnodup Hsize Hsorted Hmin Horder].
      set (C := Graph.fill_component_nodes st') in *.
      set (vl := sorted id false (set_to_list C)).
      assert (vl ≡ₚ elements C) as Hperm.
      { unfold vl. by rewrite sorted_Permutation, set_to_list_perm. }
      assert (∀ x, x ∈ vl ↔ x ∈ C) as Hvl.
      { intros x. by rewrite Hperm, elem_of_elements. }
      assert (∀ x, x ∈ C → lo ≤ x) as Hge.
      { intros x Hx. destruct (decide (lo ≤ x)); [done|]. exfalso.
        apply (Hfdisj x Hx). apply Hbelow. specialize (Hfvalid x Hx). lia. }
      assert (hd 0 vl = lo) as Hhd.
      { apply hd_sorted_min.
        - apply (sorted_StronglySorted id false).
        - by apply Hvl.
        - intros x Hx. apply Hge. by apply Hvl. }
      apply (IH (lo + 1)); [done|lia|]. split.
      * intros v. rewrite Hfvis, elem_of_union, Hvisited. split.
        -- intros [(c & Hc & Hv)|Hv].
           ++ exists c. split; [|done]. apply elem_of_app. by left.
           ++ eexists. split; [apply elem_of_app; right; apply list_elem_of_singleton; done|].
              simpl. by apply Hvl.
        -- intros (c & [Hc|Hc%list_elem_of_singleton]%elem_of_app & Hv).
           ++ left. by exists c.
           ++ subst c. simpl in Hv. right. by apply Hvl.
      * intros v. rewrite Hfvis, elem_of_union. intros [Hv|Hv]; [by apply Hvalid|by apply Hfvalid].
      * intros v Hv. rewrite Hfvis, elem_of_union.
        destruct (decide (v = lo)) as [->|]; [by right|]. left. apply Hbelow. lia.
      * rewrite fmap_app, join_app. simpl. rewrite app_nil_r.
        apply list.NoDup_app. split; [done|]. split.
        -- intros x Hx Hx'. apply Hvl in Hx'. apply (Hfdisj x Hx').
           apply Hvisited. apply list_elem_of_join in Hx as (l & Hxl & Hl).
           apply list_elem_of_fmap in Hl as (c & -> & Hc). by exists c.
        -- rewrite Hperm. apply NoDup_elements.
      * intros c [Hc|Hc%list_elem_of_singleton]%elem_of_app; [by apply Hsize|].
        subst c. simpl. f_equal. unfold size, set_size. simpl. by rewrite Hperm.
      * intros c [Hc|Hc%list_elem_of_singleton]%elem_of_app; [by apply Hsorted|].
        subst c. simpl. apply (sorted_StronglySorted id false).
      * intros c [Hc|Hc%list_elem_of_singleton]%elem_of_app.
        -- destruct (Hmin c Hc). split; [done|lia].
        -- subst c. unfold component_min. simpl. fold vl. rewrite Hhd.
           split; [by apply Hvl|lia].
      * rewrite fmap_app. simpl. apply StronglySorted_app_2; [|done|by repeat constructor].
        intros x y Hx [Hy|Hy%elem_of_nil]%elem_of_cons; [|done].
        subst y. unfold component_min at 1. simpl. fold vl. rewrite Hhd.
        apply list_elem_of_fmap in Hx as (c & -> & Hc). by apply Hmin.
Qed.

Lemma components_initial : components_inv g 1 ∅ [].
Proof.
  split; simpl; try done.
  - intros v. split; [by intros ?%not_elem_of_empty|].
    by intros (c & ?%elem_of_nil & _).
  - intros v. lia.
  - constructor.
  - by intros c ?%elem_of_nil.
  - by intros c ?%elem_of_nil.
  - by intros c ?%elem_of_nil.
  - constructor.
Qed.

End components.

(** * Degrees *)

Section degrees.
Context {R : Type} `{FaithfulRepresentation R}.
Implicit Types (g : Graph.t R) (cs : list Graph.call).

Lemma degrees_of_spec cs g vs : models cs g →
  (∀ v, v ∈ vs → 1 ≤ v ≤ Graph.vertex_count g) →
  ∃ ds, Graph.degrees_of g vs = Return ds ∧
        Forall2 (λ v d, ∃ ns, Graph.get_neighbors g v = Return ns ∧
                              d = Z.of_nat (length ns)) vs ds ∧
        total ds + sumZ (self_loop g) vs
        = sumZ (handshake_term (Graph._representation g)) vs.
Proof.
  intros Hm. induction vs as [|v vs IH]; intros Hvs; simpl.
  - exists []. split; [done|]. split; [constructor|done].
  - destruct IH as (ds & Hds & Hall & Hsum).
    { intros w Hw. apply Hvs. by apply list_elem_of_further. }
    destruct (neighbors_of_model cs g v Hm) as (ns & Hns & Hnd & Hset & _).
    { apply Hvs. apply list_elem_of_here. }
    rewrite Hns, Hds. simpl. eexists. split; [reflexivity|]. split.
    + constructor; [|done]. by exists ns.
    + unfold total in *. simpl. unfold handshake_term at 1, self_loop at 1. rewrite Hns, Hset.
      rewrite size_list_to_set by done.
      destruct (decide (v ∈ ns)) as [Hin|Hnin].
      * rewrite decide_True by (by apply elem_of_list_to_set). lia.
      * rewrite decide_False by (by rewrite elem_of_list_to_set). lia.
Qed.

Lemma calculate_all_degrees_spec cs g : models cs g →
  ∃ ds, (Graph._calculate_all_degrees g).1 = Return ds ∧
        Graph.degrees_of g (range1 (Graph.vertex_count g)) = Return ds.
Proof.
  intros Hm. unfold Graph._calculate_all_degrees.
  destruct (Graph._all_degrees_cache g) as [ds|] eqn:Hcache.
  - exists ds. split; [done|]. by apply (models_cache _ _ Hm).
  - destruct (degrees_of_spec cs g (range1 (Graph.vertex_count g)) Hm) as (ds & Hds & _).
    { intros v Hv. apply elem_of_seqZ in Hv. lia. }
    exists ds. by rewrite Hds.
Qed.

Lemma self_loops_none cs g : models cs g →
  (∀ u, Graph.AddEdge u u ∉ cs) → self_loops g = 0.
Proof.
  intros Hm Hno. unfold self_loops.
  rewrite (sumZ_ext _ (λ _, 0)).
  - generalize (range1 (Graph.vertex_count g)). intros l. induction l; simpl; lia.
  - intros w Hw. apply elem_of_seqZ in Hw.
    destruct (neighbors_of_model cs g w Hm ltac:(lia)) as (ns & Hns & _ & _ & Hin).
    unfold self_loop. rewrite Hns. rewrite decide_False; [done|].
    rewrite Hin. intros [_ [Hl|Hl]]; by apply (Hno w).
Qed.

End degrees.

(** * Diameter *)

Lemma foldl_max_spec (l : list Z) (x : Z) :
  (foldl Z.max x l = x ∨ foldl Z.max x l ∈ l) ∧
  x ≤ foldl Z.max x l ∧ ∀ y, y ∈ l → y ≤ foldl Z.max x l.
Proof.
  revert x. induction l as [|a l IH]; intros x; simpl.
  - split; [by left|]. split; [lia|]. by intros y ?%elem_of_nil.
  - destruct (IH (Z.max x a)) as ([Heq|Hin] & Hle & Hall).
    + split; [|split; [lia|]].
      * rewrite Heq. destruct (Z.max_spec x a) as [[_ ->]|[_ ->]]; [right; left|by left].
      * intros y [->|Hy]%elem_of_cons; [lia|by apply Hall].
    + split; [right; by right|]. split; [lia|].
      intros y [->|Hy]%elem_of_cons; [lia|by apply Hall].
Qed.

Lemma py_max_spec (l : list Z) : l ≠ [] →
  ∃ m, py_max l = Return m ∧ m ∈ l ∧ ∀ y, y ∈ l → y ≤ m.
Proof.
  destruct l as [|x l]; [done|]. intros _. simpl. eexists. split; [reflexivity|].
  destruct (foldl_max_spec l x) as ([Heq|Hin] & Hle & Hall).
  - split; [rewrite Heq; left|]. intros y [->|Hy]%elem_of_cons; [done|by apply Hall].
  - split; [by right|]. intros y [->|Hy]%elem_of_cons; [done|by apply Hall].
Qed.

Lemma elem_of_dict_values {V : Type} (d : gmap Z V) (x : V) :
  x ∈ Graph.dict_values d ↔ ∃ k, d !! k = Some x.
Proof.
  unfold Graph.dict_values. rewrite list_elem_of_fmap. split.
  - intros ([k y] & -> & Hin). exists k. by apply elem_of_map_to_list.
  - intros (k & Hk). exists (k, x). split; [done|]. by apply elem_of_map_to_list.
Qed.

Section diameter.
Context {R : Type} `{GraphRepresentation R}.
Variable g : Graph.t R.
Hypothesis Hg : searchable g.

Local Abbreviation N := (Graph.vertex_count g).

Lemma walk_valid u v n : 1 ≤ u ≤ N → walk g u v n → 1 ≤ v ≤ N.
Proof.
  intros Hu. induction 1 as [|v w n Hwalk IH Hadj]; [done|].
  by eapply adjacent_valid.
Qed.

(** The largest level of a search from [u] is the largest distance from
    [u]. *)
Lemma eccentricity u : 1 ≤ u ≤ N →
  ∃ P L m, Graph.breadth_first_search g u = Some (Return (P, L)) ∧
           py_max (Graph.dict_values L) = Return (Z.of_nat m) ∧
           (∃ v, distance g u v m) ∧
           (∀ v n, distance g u v n → (n ≤ m)%nat).
Proof.
  intros Hu. destruct (bfs_returns g Hg u Hu) as (P & L & Hbfs & Hinv).
  destruct (bfs_levels_spec g u P L Hinv) as (Hstart & Hdom & Hunreached & Hdist).
  destruct (py_max_spec (Graph.dict_values L)) as (m & Hmax & Hin & Hall).
  { intros Hnil. assert (0 ∈ Graph.dict_values L) as Hin
      by (apply elem_of_dict_values; eauto).
    rewrite Hnil in Hin. by apply elem_of_nil in Hin. }
  assert (0 ≤ m) as Hm0 by (apply Hall, elem_of_dict_values; eauto).
  apply elem_of_dict_values in Hin as (v & Hv).
  exists P, L, (Z.to_nat m). rewrite Z2Nat.id by done.
  split; [done|]. split; [done|]. split.
  - exists v. apply Hdist. by rewrite Z2Nat.id.
  - intros w n Hn. apply Hdist in Hn.
    assert (Z.of_nat n ≤ m) by (apply Hall, elem_of_dict_values; eauto). lia.
Qed.

Lemma diameter_for_spec vs (M : nat) :
  (∀ u, u ∈ vs → 1 ≤ u ≤ N) →
  ∃ M' : nat, Graph.diameter_for g vs (Z.of_nat M) = Some (Return (Z.of_nat M')) ∧
    (M ≤ M')%nat ∧
    (M' = M ∨ ∃ u v, u ∈ vs ∧ distance g u v M') ∧
    (∀ u v n, u ∈ vs → distance g u v n → (n ≤ M')%nat).
Proof.
  revert M. induction vs as [|i vs IH]; intros M Hvs; cbn [Graph.diameter_for].
  - exists M. split; [done|]. split; [done|]. split; [by left|].
    by intros u v n ?%elem_of_nil.
  - destruct (eccentricity i) as (P & L & m & Hbfs & Hmax & (v & Hv) & Hall).
    { apply Hvs. apply list_elem_of_here. }
    rewrite Hbfs. cbn [search_bind snd]. rewrite Hmax. cbn [search_bind].
    assert (∀ u, u ∈ vs → 1 ≤ u ≤ N) as Hvs'
      by (intros u Hu; apply Hvs; by apply list_elem_of_further).
    case_decide as Hgt.
    + destruct (IH m Hvs') as (M' & HM' & Hle & Hreal & Hbound).
      exists M'. split; [done|]. split; [lia|]. split.
      * destruct Hreal as [->|(u & w & Hu & Hw)].
        -- right. exists i, v. split; [apply list_elem_of_here|done].
        -- right. exists u, w. split; [by apply list_elem_of_further|done].
      * intros u w n [->|Hu]%elem_of_cons Hn.
        -- specialize (Hall w n Hn). lia.
        -- by apply (Hbound u w).
    + destruct (IH M Hvs') as (M' & HM' & Hle & Hreal & Hbound).
      exists M'. split; [done|]. split; [done|]. split.
      * destruct Hreal as [->|(u & w & Hu & Hw)]; [by left|].
        right. exists u, w. split; [by apply list_elem_of_further|done].
      * intros u w n [->|Hu]%elem_of_cons Hn.
        -- specialize (Hall w n Hn). lia.
        -- by apply (Hbound u w).
Qed.

Lemma distance_self u : distance g u u 0.
Proof. split; [constructor|]. intros m _. lia. Qed.

Lemma get_diameter_spec :
  ∃ d : nat, Graph.get_diameter g = Some (Return (Z.of_nat d)) ∧
    (∃ u v, 1 ≤ u ≤ N ∧ 1 ≤ v ≤ N ∧ distance g u v d) ∧
    (∀ u v n, 1 ≤ u ≤ N → 1 ≤ v ≤ N → distance g u v n → (n ≤ d)%nat).
Proof.
  destruct (diameter_for_spec (range1 N) 0) as (d & Hd & _ & Hreal & Hbound).
  { intros u Hu. apply elem_of_seqZ in Hu. lia. }
  exists d. split; [done|]. split.
  - destruct Hreal as [->|(u & v & Hu & Hv)].
    + pose proof (searchable_pos _ Hg). exists 1, 1.
      split; [lia|]. split; [lia|]. apply distance_self.
    + apply elem_of_seqZ in Hu. exists u, v. split; [lia|]. split; [|done].
      destruct Hv as [Hwalk _]. apply (walk_valid u v d); [lia|done].
  - intros u v n Hu Hv Hn. apply (Hbound u v n); [|done].
    apply elem_of_seqZ. lia.
Qed.

End diameter.

(** * The list of components returned *)

Lemma occurs_before_cons {A : Type} (l : list A) (x a b : A) :
  occurs_before l a b → occurs_before (x :: l) a b.
Proof. intros (l1 & l2 & l3 & ->). by exists (x :: l1), l2, l3. Qed.

Lemma occurs_before_filter_inv {A : Type} (P : A → Prop) `{∀ x, Decision (P x)}
    (l : list A) (a b : A) :
  occurs_before (filter P l) a b → occurs_before l a b.
Proof.
  induction l as [|x l IH]; intros (l1 & l2 & l3 & Heq).
  - by destruct l1.
  - rewrite filter_cons in Heq. case_decide as Hx.
    + destruct l1 as [|y l1]; simpl in Heq; injection Heq as -> Heq.
      * assert (b ∈ filter P l) as Hb by (rewrite Heq; set_solver).
        apply list_elem_of_filter in Hb as [_ Hb].
        apply list_elem_of_split in Hb as (l4 & l5 & ->). by exists [], l4, l5.
      * apply occurs_before_cons, IH. by exists l1, l2, l3.
    + apply occurs_before_cons, IH. by exists l1, l2, l3.
Qed.

Lemma occurs_before_fmap {A B : Type} (f : A → B) (l : list A) (a b : A) :
  occurs_before l a b → occurs_before (f <$> l) (f a) (f b).
Proof.
  intros (l1 & l2 & l3 & ->). exists (f <$> l1), (f <$> l2), (f <$> l3).
  by rewrite fmap_app, fmap_cons, fmap_app, fmap_cons.
Qed.

Lemma NoDup_join_elem {A : Type} (ls : list (list A)) (l : list A) :
  NoDup (mjoin ls) → l ∈ ls → NoDup l.
Proof.
  induction ls as [|l' ls IH]; simpl; [by intros _ ?%elem_of_nil|].
  rewrite list.NoDup_app. intros (Hl' & _ & Hls) [->|Hl]%elem_of_cons; [done|by apply IH].
Qed.

Lemma strictly_sorted (l : list Z) :
  StronglySorted Z.le l → NoDup l → StronglySorted Z.lt l.
Proof.
  induction 1 as [|a l Hl IH Ha]; intros Hnd; [constructor|].
  apply list.NoDup_cons in Hnd as [Hnin Hnd]. constructor; [by apply IH|].
  rewrite List.Forall_forall in Ha |- *. intros x Hx. specialize (Ha x Hx).
  assert (a ≠ x) by (intros ->; by apply Hnin, list_elem_of_In). lia.
Qed.

Section components_result.
Context {R : Type} `{GraphRepresentation R} `{SetIteration}.
Variable g : Graph.t R.
Hypothesis Hg : searchable g.

Local Abbreviation N := (Graph.vertex_count g).

Lemma sizes_total_length (cs : list Graph.component) :
  (∀ c, c ∈ cs → Graph.size c = Z.of_nat (length (Graph.vertices c))) →
  sizes_total cs = Z.of_nat (length (mjoin (Graph.vertices <$> cs))).
Proof.
  induction cs as [|c cs IH]; intros Hsize; [done|].
  change (mjoin (Graph.vertices <$> c :: cs))
    with (Graph.vertices c ++ mjoin (Graph.vertices <$> cs)).
  change (sizes_total (c :: cs)) with (Graph.size c + sizes_total cs).
  rewrite length_app, (Hsize c) by apply list_elem_of_here.
  rewrite IH; [lia|]. intros c' Hc'. apply Hsize. by apply list_elem_of_further.
Qed.

Lemma get_connected_components_spec :
  ∃ comps, Graph.get_connected_components g = Some (Return comps) ∧
    mjoin (Graph.vertices <$> comps) ≡ₚ range1 N ∧
    (∀ c, c ∈ comps →
       Graph.size c = Z.of_nat (length (Graph.vertices c)) ∧
       StronglySorted Z.lt (Graph.vertices c) ∧
       component_min c ∈ Graph.vertices c) ∧
    sizes_total comps = N ∧
    StronglySorted (λ c1 c2, Graph.size c2 ≤ Graph.size c1) comps ∧
    (∀ i j c1 c2, (i < j)%nat → comps !! i = Some c1 → comps !! j = Some c2 →
       Graph.size c1 = Graph.size c2 → component_min c1 < component_min c2).
Proof.
  pose proof (searchable_pos _ Hg) as HN.
  destruct (components_for_inv g Hg (range1 N) 1 ∅ []) as (cs0 & Hcs0 & V & Hinv).
  { unfold range1. f_equal. lia. }
  { done. }
  { apply components_initial. }
  replace (Z.max 1 (N + 1)) with (N + 1) in Hinv by lia.
  unfold Graph.get_connected_components. rewrite Hcs0. cbn [search_bind].
  eexists. split; [reflexivity|].
  destruct Hinv as [Hvisited Hvalid Hbelow Hnodup Hsize Hsorted Hmin Horder].
  set (comps := sorted Graph.size true cs0).
  assert (comps ≡ₚ cs0) as Hperm by apply sorted_Permutation.
  assert (mjoin (Graph.vertices <$> cs0) ≡ₚ range1 N) as Hpart.
  { apply NoDup_Permutation; [done|apply NoDup_seqZ|].
    intros x. unfold range1. rewrite elem_of_seqZ, list_elem_of_join. split.
    - intros (l & Hx & Hl). apply list_elem_of_fmap in Hl as (c & -> & Hc).
      assert (x ∈ V) as Hxv by (apply Hvisited; eauto).
      specialize (Hvalid x Hxv). lia.
    - intros Hx. assert (x ∈ V) as Hxv by (apply Hbelow; lia).
      apply Hvisited in Hxv as (c & Hc & Hxc). exists (Graph.vertices c).
      split; [done|]. apply list_elem_of_fmap. eauto. }
  assert (∀ c, c ∈ comps → c ∈ cs0) as Hin by (intros c; by rewrite Hperm).
  split; [by rewrite Hperm|]. split; [|split; [|split]].
  - intros c Hc%Hin. split; [by apply Hsize|]. split; [|by apply Hmin].
    apply strictly_sorted; [by apply Hsorted|].
    apply (NoDup_join_elem (Graph.vertices <$> cs0)); [done|].
    apply list_elem_of_fmap. eauto.
  - rewrite sizes_total_length by (intros c Hc%Hin; by apply Hsize).
    rewrite Hperm, Hpart. unfold range1. rewrite length_seqZ. lia.
  - apply (sorted_StronglySorted Graph.size true).
  - intros i j c1 c2 Hij Hi Hj Heq.
    pose proof (occurs_before_lookup comps i j c1 c2 Hij Hi Hj) as Hocc.
    apply (occurs_before_filter (λ c, Graph.size c = Graph.size c1)) in Hocc; [|done..].
    unfold comps in Hocc. rewrite sorted_stable in Hocc.
    apply occurs_before_filter_inv in Hocc.
    apply (occurs_before_fmap component_min) in Hocc.
    by apply (occurs_before_StronglySorted Z.lt) in Hocc.
Qed.

End components_result.

(** * Statements about the library *)

Lemma dom_vertex_set {V : Type} (d : gmap Z V) (n : Z) :
  (∀ v, is_Some (d !! v) ↔ 1 ≤ v ≤ n) → dom d = vertex_set n.
Proof.
  intros Hdom. apply set_eq. intros v. by rewrite elem_of_dom, elem_of_vertex_set.
Qed.

Lemma bfs_levels_are_distances {R : Type} `{GraphRepresentation R} (g : Graph.t R) s P L :
  bfs_inv g s [] (Graph.mk_bfs P L []) → levels_are_distances g s L.
Proof.
  intros Hinv.
  destruct (bfs_levels_spec g s P L Hinv) as (Hstart & _ & Hun & Hdist). by split.
Qed.

Lemma distance_agree {R1 R2 : Type} `{GraphRepresentation R1} `{GraphRepresentation R2}
    (g1 : Graph.t R1) (g2 : Graph.t R2) u v n :
  same_neighbors g1 g2 → distance g1 u v n → distance g2 u v n.
Proof.
  intros Hsame [Hwalk Hmin]. split; [by apply (walk_agree g1 g2)|].
  intros m Hm. apply Hmin. apply (walk_agree g2 g1); [by apply same_neighbors_sym|done].
Qed.

(** Level maps that record hop counts agree when the graphs list the same
    neighbours. *)
Lemma bfs_levels_agree {R1 R2 : Type} `{GraphRepresentation R1} `{GraphRepresentation R2}
    (g1 : Graph.t R1) (g2 : Graph.t R2) s P1 L1 P2 L2 :
  same_neighbors g1 g2 →
  bfs_inv g1 s [] (Graph.mk_bfs P1 L1 []) → bfs_inv g2 s [] (Graph.mk_bfs P2 L2 []) →
  L1 = L2.
Proof.
  intros Hsame Hinv1 Hinv2. pose proof Hsame as [HN _].
  destruct (bfs_levels_spec g1 s P1 L1 Hinv1) as (_ & Hdom1 & Hun1 & Hdist1).
  destruct (bfs_levels_spec g2 s P2 L2 Hinv2) as (_ & Hdom2 & Hun2 & Hdist2).
  apply map_eq. intros v.
  destruct (decide (1 ≤ v ≤ Graph.vertex_count g1)) as [Hv|Hv].
  - destruct (proj2 (Hdom1 v) Hv) as [l Hl]. rewrite Hl. symmetry.
    destruct (decide (l = -1)) as [->|Hne].
    + apply Hun2; [by rewrite <- HN|]. intros [n Hwalk].
      apply (Hun1 v Hv); [done|]. exists n.
      apply (walk_agree g2 g1); [by apply same_neighbors_sym|done].
    + destruct (bi_sound _ _ _ _ Hinv1 v l Hl Hne) as [Hl0 _].
      rewrite <- (Z2Nat.id l) in Hl |- * by done.
      apply Hdist2. apply (distance_agree g1 g2); [done|]. by apply Hdist1.
  - assert (L1 !! v = None) as -> by (apply eq_None_not_Some; by rewrite Hdom1).
    symmetry. apply eq_None_not_Some. rewrite Hdom2. by rewrite <- HN.
Qed.

(** C1: for every vertex count N >= 1, every sequence of calls and every
    start vertex s in [1, N], [breadth_first_search] returns, on the sparse
    and on the dense graph, one and the same level map; in it the start has
    level 0, the vertices without a walk from s are exactly those at level
    -1, and every other level is the hop count of a shortest walk. *)
Theorem bfs_levels_are_shortest_hop_counts `{SetIteration}
    (N : Z) (cs : list Graph.call) (s : Z) :
  1 ≤ s ≤ N →
  ∃ (gS : Graph.t AdjacencyList.t) (gD : Graph.t AdjacencyMatrix.t) pS pD levels,
    Graph.build N cs = Return gS ∧ Graph.build N cs = Return gD ∧
    Graph.breadth_first_search gS s = Some (Return (pS, levels)) ∧
    Graph.breadth_first_search gD s = Some (Return (pD, levels)) ∧
    levels_are_distances gS s levels ∧ levels_are_distances gD s levels.
Proof.
  intros Hs.
  destruct (models_build (R := AdjacencyList.t) N cs ltac:(lia)) as (gS & HgS & HNS & HmS).
  destruct (models_build (R := AdjacencyMatrix.t) N cs ltac:(lia)) as (gD & HgD & HND & HmD).
  pose proof (models_same_neighbors cs gS gD HmS HmD ltac:(congruence)) as Hsame.
  destruct (bfs_returns gS (models_searchable _ _ HmS) s ltac:(lia)) as (pS & LS & HbS & HiS).
  destruct (bfs_returns gD (models_searchable _ _ HmD) s ltac:(lia)) as (pD & LD & HbD & HiD).
  assert (LS = LD) as <- by (by apply (bfs_levels_agree gS gD s pS LS pD LD)).
  exists gS, gD, pS, pD, LS. repeat (split; [done|]).
  split; [by apply (bfs_levels_are_distances gS s pS)|by apply (bfs_levels_are_distances gD s pD)].
Qed.

(** C2, as the code has it: the degree list holds the length of each
    vertex's neighbour list, and the degrees add up to twice the edge count
    less one for every vertex that is its own neighbour; without
    [add_edge(u, u)] calls the sum is twice the edge count. *)
Theorem degrees_and_handshake {R : Type} `{FaithfulRepresentation R}
    (N : Z) (cs : list Graph.call) :
  0 < N →
  ∃ (g : Graph.t R) ds,
    Graph.build N cs = Return g ∧
    (Graph._calculate_all_degrees g).1 = Return ds ∧
    length ds = Z.to_nat N ∧
    (∀ v, 1 ≤ v ≤ N → ∃ ns, Graph.get_neighbors g v = Return ns ∧
                            ds !! Z.to_nat (v - 1) = Some (Z.of_nat (length ns))) ∧
    total ds + self_loops g = 2 * Graph.edge_count g ∧
    ((∀ u, Graph.AddEdge u u ∉ cs) → total ds = 2 * Graph.edge_count g).
Proof.
  intros HN. destruct (models_build (R := R) N cs HN) as (g & Hg & HNg & Hm).
  destruct (calculate_all_degrees_spec cs g Hm) as (ds & Hcalc & Hdeg).
  destruct (degrees_of_spec cs g (range1 (Graph.vertex_count g)) Hm) as (ds' & Hdeg' & Hall & Hsum).
  { intros v Hv. apply elem_of_seqZ in Hv. lia. }
  rewrite Hdeg in Hdeg'. injection Hdeg' as <-.
  assert (total ds + self_loops g = 2 * Graph.edge_count g) as Hhand.
  { unfold self_loops. rewrite Hsum. apply (models_handshake _ _ Hm). }
  exists g, ds. repeat (split; [done|]). rewrite HNg in Hall. split; [|split; [|split]].
  - apply Forall2_length in Hall. unfold range1 in Hall. by rewrite length_seqZ in Hall.
  - intros v Hv.
    destruct (Forall2_lookup_l _ _ _ (Z.to_nat (v - 1)) v Hall) as (d & Hd & ns & Hns & ->).
    { unfold range1. rewrite lookup_seqZ_lt by lia. f_equal. lia. }
    by exists ns.
  - done.
  - intros Hno. rewrite (self_loops_none cs g Hm Hno) in Hhand. lia.
Qed.

(** C4: after any sequence of calls, accepted or rejected, and in any
    faithful representation, [v] is listed among the neighbours of [u]
    exactly when [u] is listed among those of [v]. *)
Theorem adjacency_is_symmetric {R : Type} `{FaithfulRepresentation R}
    (N : Z) (cs : list Graph.call) :
  0 < N →
  ∃ g : Graph.t R, Graph.build N cs = Return g ∧
    ∀ u v, 1 ≤ u ≤ N → 1 ≤ v ≤ N →
      ∃ nu nv, Graph.get_neighbors g u = Return nu ∧
               Graph.get_neighbors g v = Return nv ∧
               (v ∈ nu ↔ u ∈ nv).
Proof.
  intros HN. destruct (models_build (R := R) N cs HN) as (g & Hg & HNg & Hm).
  exists g. split; [done|]. intros u v Hu Hv. rewrite <- HNg in Hu, Hv.
  destruct (neighbors_of_model cs g u Hm Hu) as (nu & Hnu & _ & _ & Hinu).
  destruct (neighbors_of_model cs g v Hm Hv) as (nv & Hnv & _ & _ & Hinv).
  exists nu, nv. split; [done|]. split; [done|].
  rewrite Hinu, Hinv. unfold linked. naive_solver.
Qed.

(** C5: once [add_edge(u, v)] has been called with valid vertices, calling
    [add_edge(u, v)] or [add_edge(v, u)] again succeeds and changes neither
    the edge count nor any neighbour list. *)
Theorem add_edge_is_idempotent {R : Type} `{FaithfulRepresentation R}
    (N : Z) (cs : list Graph.call) (u v : Z) :
  1 ≤ u ≤ N → 1 ≤ v ≤ N →
  ∃ g : Graph.t R, Graph.build N cs = Return g ∧
    (Graph.add_edge u v g).1 = Return () ∧
    ∀ a b, (a = u ∧ b = v) ∨ (a = v ∧ b = u) →
      let g1 := (Graph.add_edge u v g).2 in
      let g2 := (Graph.add_edge a b g1).2 in
      (Graph.add_edge a b g1).1 = Return () ∧
      Graph.edge_count g2 = Graph.edge_count g1 ∧
      ∀ w, Graph.get_neighbors g2 w = Graph.get_neighbors g1 w.
Proof.
  intros Hu Hv. destruct (models_build (R := R) N cs ltac:(lia)) as (g & Hg & HNg & Hm).
  exists g. split; [done|].
  pose proof HNg as HNg'. unfold Graph.vertex_count in HNg'.
  destruct (models_add_edge cs g u v Hm) as [Hm1 HN1].
  assert ((Graph.add_edge u v g).1 = Return ()) as Hok.
  { rewrite add_edge_accepted by lia.
    destruct (decide (v ∈ rep_neighbor_set (Graph._representation g) u)) as [Hin|Hnin].
    - by rewrite (rep_add_edge_present _ _ u v (models_rep _ _ Hm) ltac:(lia) ltac:(lia) Hin).
    - destruct (rep_add_edge_fresh _ _ u v (models_rep _ _ Hm) ltac:(lia) ltac:(lia) Hnin)
        as (r' & -> & _). done. }
  split; [done|]. intros a b Hab. cbv zeta.
  set (g1 := (Graph.add_edge u v g).2) in *.
  assert (1 ≤ a ≤ Graph.vertex_count g1 ∧ 1 ≤ b ≤ Graph.vertex_count g1) as [Ha Hb].
  { unfold Graph.vertex_count. rewrite HN1.
    destruct Hab as [[-> ->]|[-> ->]]; lia. }
  assert (b ∈ rep_neighbor_set (Graph._representation g1) a) as Hin.
  { apply (models_adj _ _ Hm1); [done|]. split; [done|]. apply linked_app.
    destruct Hab as [[-> ->]|[-> ->]]; auto. }
  rewrite add_edge_accepted by done.
  rewrite (rep_add_edge_present _ _ a b (models_rep _ _ Hm1) Ha Hb Hin). simpl.
  split; [done|]. split; [done|]. done.
Qed.

(** C6: for every vertex count, sequence of calls and valid start vertex,
    [depth_first_search] returns the same parent map and the same depth map
    on the sparse and on the dense graph. *)
Theorem dfs_is_representation_invariant `{SetIteration}
    (N : Z) (cs : list Graph.call) (s : Z) :
  1 ≤ s ≤ N →
  ∃ (gS : Graph.t AdjacencyList.t) (gD : Graph.t AdjacencyMatrix.t) parents depths,
    Graph.build N cs = Return gS ∧ Graph.build N cs = Return gD ∧
    Graph.depth_first_search gS s = Some (Return (parents, depths)) ∧
    Graph.depth_first_search gD s = Some (Return (parents, depths)).
Proof.
  intros Hs.
  destruct (models_build (R := AdjacencyList.t) N cs ltac:(lia)) as (gS & HgS & HNS & HmS).
  destruct (models_build (R := AdjacencyMatrix.t) N cs ltac:(lia)) as (gD & HgD & HND & HmD).
  pose proof (models_same_neighbors cs gS gD HmS HmD ltac:(congruence)) as Hsame.
  destruct (dfs_returns gS (models_searchable _ _ HmS) s ltac:(lia)) as (P & L & Hdfs & _).
  exists gS, gD, P, L. repeat (split; [done|]).
  by rewrite <- (depth_first_search_agree gS gD s Hsame).
Qed.

Lemma get_distance_spec {R : Type} `{GraphRepresentation R} (g : Graph.t R) (u v : Z) :
  searchable g → 1 ≤ u ≤ Graph.vertex_count g → 1 ≤ v ≤ Graph.vertex_count g →
  ∃ x, Graph.get_distance g u v = Some (Return x) ∧
       (x = -1 ↔ ¬ connected g u v) ∧
       (∀ n, distance g u v n ↔ x = Z.of_nat n).
Proof.
  intros Hg Hu Hv. destruct (bfs_returns g Hg u Hu) as (P & L & Hbfs & Hinv).
  destruct (bfs_levels_spec g u P L Hinv) as (_ & Hdom & Hun & Hdist).
  destruct (proj2 (Hdom v) Hv) as [x Hx].
  exists x. unfold Graph.get_distance, getitem. rewrite Hbfs. cbn [search_bind snd].
  rewrite Hx. split; [done|]. split.
  - rewrite <- (Hun v Hv), Hx. naive_solver.
  - intros n. rewrite Hdist, Hx. naive_solver.
Qed.

Lemma get_distance_source_invalid {R : Type} `{GraphRepresentation R} (g : Graph.t R) (u v : Z) :
  ¬ (1 ≤ u ≤ Graph.vertex_count g) → Graph.get_distance g u v = Some (Raise ValueError).
Proof.
  intros Hu. unfold Graph.get_distance, Graph.breadth_first_search.
  by rewrite (proj2 (is_vertex_within_bounds_false _ _) Hu).
Qed.

(** The second argument of [get_distance] is only used as a key of the
    level map. *)
Lemma get_distance_target_invalid {R : Type} `{GraphRepresentation R} (g : Graph.t R) (u v : Z) :
  searchable g → 1 ≤ u ≤ Graph.vertex_count g → ¬ (1 ≤ v ≤ Graph.vertex_count g) →
  Graph.get_distance g u v = Some (Raise KeyError).
Proof.
  intros Hg Hu Hv. destruct (bfs_returns g Hg u Hu) as (P & L & Hbfs & Hinv).
  destruct (bfs_levels_spec g u P L Hinv) as (_ & Hdom & _).
  unfold Graph.get_distance, getitem. rewrite Hbfs. cbn [search_bind snd].
  assert (L !! v = None) as -> by (apply eq_None_not_Some; by rewrite Hdom). done.
Qed.

(** The vertex arguments the facade does check: [add_edge], [get_neighbors],
    both searches and the first argument of [get_distance] raise
    [ValueError] outside [1, N] and do not raise inside. *)
Lemma checked_vertex_arguments {R : Type} `{FaithfulRepresentation R}
    (N : Z) (cs : list Graph.call) :
  0 < N →
  ∃ g : Graph.t R, Graph.build N cs = Return g ∧
    (∀ u v, (Graph.add_edge u v g).1 =
            if decide (1 ≤ u ≤ N ∧ 1 ≤ v ≤ N) then Return () else Raise ValueError) ∧
    (∀ v, if decide (1 ≤ v ≤ N) then ∃ ns, Graph.get_neighbors g v = Return ns
          else Graph.get_neighbors g v = Raise ValueError) ∧
    (∀ s, if decide (1 ≤ s ≤ N)
          then ∃ r, Graph.breadth_first_search g s = Some (Return r)
          else Graph.breadth_first_search g s = Some (Raise ValueError)) ∧
    (∀ s, if decide (1 ≤ s ≤ N)
          then ∃ r, Graph.depth_first_search g s = Some (Return r)
          else Graph.depth_first_search g s = Some (Raise ValueError)) ∧
    (∀ u v, ¬ (1 ≤ u ≤ N) → Graph.get_distance g u v = Some (Raise ValueError)) ∧
    (∀ u v, 1 ≤ u ≤ N → 1 ≤ v ≤ N →
       ∃ x, Graph.get_distance g u v = Some (Return x)) ∧
    (∀ u v, 1 ≤ u ≤ N → ¬ (1 ≤ v ≤ N) →
       Graph.get_distance g u v = Some (Raise KeyError)).
Proof.
  intros HN. destruct (models_build (R := R) N cs HN) as (g & Hg & HNg & Hm).
  pose proof (models_searchable _ _ Hm) as Hsearch.
  exists g. split; [done|]. rewrite <- HNg. split; [|split; [|split; [|split; [|split; [|split]]]]].
  - intros u v. case_decide as Huv.
    + destruct Huv as [Hu Hv]. rewrite add_edge_accepted by done.
      destruct (decide (v ∈ rep_neighbor_set (Graph._representation g) u)) as [Hin|Hnin].
      * by rewrite (rep_add_edge_present _ _ u v (models_rep _ _ Hm) Hu Hv Hin).
      * destruct (rep_add_edge_fresh _ _ u v (models_rep _ _ Hm) Hu Hv Hnin) as (r' & -> & _).
        done.
    + by rewrite add_edge_rejected.
  - intros v. case_decide as Hv.
    + destruct (searchable_neighbors _ Hsearch v Hv) as (ns & Hns & _). eauto.
    + by apply get_neighbors_invalid.
  - intros s. case_decide as Hs.
    + destruct (bfs_returns g Hsearch s Hs) as (P & L & Hbfs & _). eauto.
    + unfold Graph.breadth_first_search.
      by rewrite (proj2 (is_vertex_within_bounds_false _ _) Hs).
  - intros s. case_decide as Hs.
    + destruct (dfs_returns g Hsearch s Hs) as (P & L & Hdfs & _). eauto.
    + unfold Graph.depth_first_search.
      assert ((1 <=? s) && (s <=? Graph.vertex_count g) = false) as ->; [|done].
      apply andb_false_iff. lia.
  - intros u v Hu. by apply get_distance_source_invalid.
  - intros u v Hu Hv. destruct (get_distance_spec g u v Hsearch Hu Hv) as (x & Hx & _). eauto.
  - intros u v Hu Hv. by apply get_distance_target_invalid.
Qed.

(** C7: [get_diameter] returns a number that is the distance of some pair
    of vertices and bounds [get_distance] of every pair, the sentinel of
    unconnected pairs included; with a single vertex it is 0. *)
Theorem diameter_is_largest_distance {R : Type} `{FaithfulRepresentation R}
    (N : Z) (cs : list Graph.call) :
  0 < N →
  ∃ (g : Graph.t R) (d : nat),
    Graph.build N cs = Return g ∧
    Graph.get_diameter g = Some (Return (Z.of_nat d)) ∧
    (∃ u v, 1 ≤ u ≤ N ∧ 1 ≤ v ≤ N ∧ distance g u v d ∧
            Graph.get_distance g u v = Some (Return (Z.of_nat d))) ∧
    (∀ u v, 1 ≤ u ≤ N → 1 ≤ v ≤ N →
       ∃ x, Graph.get_distance g u v = Some (Return x) ∧ x ≤ Z.of_nat d ∧
            (x = -1 ↔ ¬ connected g u v) ∧
            (∀ n, distance g u v n ↔ x = Z.of_nat n)) ∧
    (N = 1 → d = 0%nat).
Proof.
  intros HN. destruct (models_build (R := R) N cs HN) as (g & Hg & HNg & Hm).
  pose proof (models_searchable _ _ Hm) as Hsearch.
  destruct (get_diameter_spec g Hsearch) as (d & Hd & (u & v & Hu & Hv & Huv) & Hbound).
  subst N. exists g, d. split; [done|]. split; [done|]. split; [|split].
  - exists u, v. split; [done|]. split; [done|]. split; [done|].
    destruct (get_distance_spec g u v Hsearch Hu Hv) as (x & Hx & _ & Hdist).
    rewrite Hx. do 2 f_equal. by apply Hdist.
  - intros a b Ha Hb.
    destruct (get_distance_spec g a b Hsearch Ha Hb) as (x & Hx & Hun & Hdist).
    exists x. split; [done|]. split; [|done].
    destruct (decide (x = -1)) as [->|Hne]; [lia|].
    destruct (bfs_returns g Hsearch a Ha) as (P & L & Hbfs & Hinv).
    unfold Graph.get_distance, getitem in Hx. rewrite Hbfs in Hx. cbn [search_bind snd] in Hx.
    destruct (L !! b) as [y|] eqn:Hy; [|done]. injection Hx as ->.
    destruct (bi_sound _ _ _ _ Hinv b x Hy Hne) as [Hx0 _].
    assert (distance g a b (Z.to_nat x)) as Hdx by (apply Hdist; lia).
    specialize (Hbound a b _ Ha Hb Hdx). lia.
  - intros HN1. assert (u = v) as -> by lia.
    destruct Huv as [_ Hmin]. specialize (Hmin 0%nat (walk_here g v)). lia.
Qed.

Lemma NoDup_join_unique {A : Type} (ls : list (list A)) (i j : nat) (l l' : list A) (x : A) :
  NoDup (mjoin ls) → ls !! i = Some l → ls !! j = Some l' → x ∈ l → x ∈ l' → i = j.
Proof.
  revert i j. induction ls as [|a ls IH]; intros i j Hnd Hi Hj Hx Hx'; [done|].
  simpl in Hnd. apply list.NoDup_app in Hnd as (_ & Hdisj & Hnd).
  destruct i as [|i], j as [|j]; simpl in *; simplify_eq.
  - done.
  - exfalso. apply (Hdisj x Hx). apply list_elem_of_join. exists l'.
    split; [done|]. by eapply list_elem_of_lookup_2.
  - exfalso. apply (Hdisj x Hx'). apply list_elem_of_join. exists l.
    split; [done|]. by eapply list_elem_of_lookup_2.
  - f_equal. by apply IH.
Qed.

(** C8: [get_connected_components] returns a list of components in which
    every vertex of [1, N] occurs in exactly one component and once; the
    size of a component is the length of its vertex list, which is
    ascending; the sizes add up to N and do not increase along the list;
    and of two components of equal size the one with the smaller least
    vertex comes first. *)
Theorem components_partition_the_vertices {R : Type} `{FaithfulRepresentation R}
    `{SetIteration} (N : Z) (cs : list Graph.call) :
  0 < N →
  ∃ (g : Graph.t R) comps,
    Graph.build N cs = Return g ∧
    Graph.get_connected_components g = Some (Return comps) ∧
    mjoin (Graph.vertices <$> comps) ≡ₚ range1 N ∧
    (∀ v, 1 ≤ v ≤ N →
       ∃ i c, comps !! i = Some c ∧ v ∈ Graph.vertices c ∧
              ∀ j c', comps !! j = Some c' → v ∈ Graph.vertices c' → j = i) ∧
    (∀ c, c ∈ comps →
       Graph.size c = Z.of_nat (length (Graph.vertices c)) ∧
       StronglySorted Z.lt (Graph.vertices c) ∧
       component_min c ∈ Graph.vertices c ∧
       (∀ x, x ∈ Graph.vertices c → 1 ≤ x ≤ N ∧ component_min c ≤ x)) ∧
    sizes_total comps = N ∧
    StronglySorted (λ c1 c2, Graph.size c2 ≤ Graph.size c1) comps ∧
    (∀ i j c1 c2, (i < j)%nat → comps !! i = Some c1 → comps !! j = Some c2 →
       Graph.size c1 = Graph.size c2 → component_min c1 < component_min c2).
Proof.
  intros HN. destruct (models_build (R := R) N cs HN) as (g & Hg & HNg & Hm).
  pose proof (models_searchable _ _ Hm) as Hsearch.
  destruct (get_connected_components_spec g Hsearch)
    as (comps & Hcc & Hpart & Hcomp & Htotal & Hsorted & Hties).
  subst N. exists g, comps. repeat (split; [done|]).
  assert (NoDup (mjoin (Graph.vertices <$> comps))) as Hnd
    by (rewrite Hpart; apply NoDup_seqZ).
  split; [|split; [|done]].
  - intros v Hv.
    assert (v ∈ mjoin (Graph.vertices <$> comps)) as Hin.
    { rewrite Hpart. apply elem_of_seqZ. lia. }
    apply list_elem_of_join in Hin as (l & Hvl & Hl).
    apply list_elem_of_fmap in Hl as (c & -> & Hc).
    apply list_elem_of_lookup in Hc as (i & Hi).
    exists i, c. split; [done|]. split; [done|]. intros j c' Hj Hv'.
    apply (NoDup_join_unique (Graph.vertices <$> comps) j i
             (Graph.vertices c') (Graph.vertices c) v); try done.
    + by rewrite list_lookup_fmap, Hj.
    + by rewrite list_lookup_fmap, Hi.
  - intros c Hc. destruct (Hcomp c Hc) as (Hsize & Hlt & Hmin).
    split; [done|]. split; [done|]. split; [done|]. intros x Hx. split.
    + assert (x ∈ range1 (Graph.vertex_count g)) as Hin.
      { rewrite <- Hpart. apply list_elem_of_join. exists (Graph.vertices c).
        split; [done|]. apply list_elem_of_fmap. eauto. }
      apply elem_of_seqZ in Hin. lia.
    + unfold component_min in *.
      destruct (Graph.vertices c) as [|a l]; [by apply elem_of_nil in Hx|].
      simpl. apply elem_of_cons in Hx as [->|Hx]; [done|].
      apply StronglySorted_inv in Hlt as [_ Hall].
      rewrite List.Forall_forall in Hall. apply list_elem_of_In, Hall in Hx. lia.
Qed.

(** C9: an [add_edge] call with a vertex outside [1, N] raises and returns
    the graph as it was: the same representation, hence the same edge count
    and neighbour lists, and the same degree cache. *)
Theorem rejected_add_edge_changes_nothing {R : Type} `{GraphRepresentation R}
    (g : Graph.t R) (u v : Z) :
  ¬ (1 ≤ u ≤ Graph.vertex_count g ∧ 1 ≤ v ≤ Graph.vertex_count g) →
  (Graph.add_edge u v g).1 = Raise ValueError ∧
  (Graph.add_edge u v g).2 = g ∧
  Graph.edge_count (Graph.add_edge u v g).2 = Graph.edge_count g ∧
  (∀ w, Graph.get_neighbors (Graph.add_edge u v g).2 w = Graph.get_neighbors g w) ∧
  Graph._all_degrees_cache (Graph.add_edge u v g).2 = Graph._all_degrees_cache g.
Proof. intros Hno. by rewrite add_edge_rejected. Qed.

(** C10: both searches return maps with exactly the keys 1 .. N, in which
    the start has parent [None] and level 0 and the vertices without a walk
    from the start are exactly those at level -1, all with parent [None];
    the parent entry alone does not tell the start from an unreached
    vertex. *)
Theorem searches_return_total_maps {R : Type} `{FaithfulRepresentation R}
    (N : Z) (cs : list Graph.call) (s : Z) :
  1 ≤ s ≤ N →
  ∃ (g : Graph.t R) bfs_parents bfs_levels dfs_parents dfs_levels,
    Graph.build N cs = Return g ∧
    Graph.breadth_first_search g s = Some (Return (bfs_parents, bfs_levels)) ∧
    Graph.depth_first_search g s = Some (Return (dfs_parents, dfs_levels)) ∧
    search_maps_shape N s bfs_parents bfs_levels ∧
    search_maps_shape N s dfs_parents dfs_levels ∧
    ∀ v, 1 ≤ v ≤ N →
      (bfs_levels !! v = Some (-1) ↔ ¬ connected g s v) ∧
      (dfs_levels !! v = Some (-1) ↔ ¬ connected g s v) ∧
      (¬ connected g s v → bfs_parents !! v = bfs_parents !! s ∧
                           dfs_parents !! v = dfs_parents !! s).
Proof.
  intros Hs. destruct (models_build (R := R) N cs ltac:(lia)) as (g & Hg & HNg & Hm).
  pose proof (models_searchable _ _ Hm) as Hsearch. subst N.
  destruct (bfs_returns g Hsearch s Hs) as (Pb & Lb & Hbfs & Hinvb).
  destruct (dfs_returns g Hsearch s Hs) as (Pd & Ld & Hdfs & V & Hinvd).
  destruct (bfs_levels_spec g s Pb Lb Hinvb) as (Hbs & Hbdom & Hbun & _).
  destruct (dfs_spec g s Hs Pd Ld V Hinvd)
    as (Hdpdom & Hddom & Hdps & Hds & Hdun & Hdpun & _).
  pose proof (bi_pdom _ _ _ _ Hinvb) as Hbpdom.
  pose proof (bi_pstart _ _ _ _ Hinvb) as Hbps.
  pose proof (bi_punseen _ _ _ _ Hinvb) as Hbpun. simpl in Hbpdom, Hbps, Hbpun.
  exists g, Pb, Lb, Pd, Ld. repeat (split; [done|]).
  split; [|split].
  - split; [by apply dom_vertex_set|]. split; [by apply dom_vertex_set|]. done.
  - split; [by apply dom_vertex_set|]. split; [by apply dom_vertex_set|]. done.
  - intros v Hv. split; [by apply Hbun|]. split; [by apply Hdun|].
    intros Hnc. rewrite Hbps, Hdps. split.
    + apply Hbpun. by apply Hbun.
    + apply Hdpun. by apply Hdun.
Qed.

(** * Further facts about the facade and the representations *)

Section facade_more.
Context {R : Type} `{FaithfulRepresentation R}.
Implicit Types (g : Graph.t R) (cs : list Graph.call).

(** An accepted [add_edge] call: the representation call succeeds, the cache
    is cleared, and the edge count grows by one exactly when the pair was
    not adjacent. *)
Lemma add_edge_valid_spec cs g u v : models cs g →
  1 ≤ u ≤ Graph.vertex_count g → 1 ≤ v ≤ Graph.vertex_count g →
  ∃ r', Graph.add_edge u v g = (Return (), Graph.mk (Graph._num_vertices g) r' None) ∧
        rep_edge_count r' =
          rep_edge_count (Graph._representation g)
          + (if decide (v ∈ rep_neighbor_set (Graph._representation g) u) then 0 else 1).
Proof.
  intros Hm Hu Hv. rewrite add_edge_accepted by done.
  destruct (decide (v ∈ rep_neighbor_set (Graph._representation g) u)) as [Hin|Hnin].
  - rewrite (rep_add_edge_present _ _ u v (models_rep _ _ Hm) Hu Hv Hin).
    eexists. split; [reflexivity|]. lia.
  - destruct (rep_add_edge_fresh _ _ u v (models_rep _ _ Hm) Hu Hv Hnin)
      as (r' & -> & _ & Hcount & _).
    exists r'. split; [reflexivity|]. lia.
Qed.

Lemma init_neighbors_empty N g v : 0 < N → Graph.init N = Return g → 1 ≤ v ≤ N →
  Graph.get_neighbors g v = Return [].
Proof.
  intros HN Hinit Hv. destruct (rep_init_ok N HN) as (r & Hr & Hinv & _ & Hempty).
  unfold Graph.init in Hinit. rewrite decide_False in Hinit by lia.
  rewrite Hr in Hinit. simpl in Hinit. injection Hinit as <-.
  rewrite get_neighbors_valid by done. simpl.
  destruct (rep_get_neighbors_ok N r v Hinv Hv) as (ns & Hns & _).
  specialize (Hempty v Hv). unfold rep_neighbor_set in Hempty. rewrite Hns in Hempty.
  rewrite Hns. destruct ns as [|x ns]; [done|]. exfalso.
  assert (x ∈ (list_to_set (x :: ns) : gset Z)) as Hx by set_solver.
  rewrite Hempty in Hx. by apply not_elem_of_empty in Hx.
Qed.

End facade_more.

(** X1: the constructor rejects a vertex count that is not positive with
    [ValueError]; for a positive count it returns a graph with that many
    vertices, no edge, an empty degree cache and an empty neighbour list for
    every vertex. *)
Theorem constructor_checks_the_vertex_count {R : Type} `{FaithfulRepresentation R} (N : Z) :
  (N ≤ 0 → Graph.init (R := R) N = Raise ValueError) ∧
  (0 < N → ∃ g : Graph.t R,
     Graph.init N = Return g ∧ Graph.vertex_count g = N ∧ Graph.edge_count g = 0 ∧
     Graph._all_degrees_cache g = None ∧
     ∀ v, 1 ≤ v ≤ N → Graph.get_neighbors g v = Return []).
Proof.
  split.
  - intros HN. unfold Graph.init. by rewrite decide_True.
  - intros HN. destruct (models_init (R := R) N HN) as (g & Hinit & HNg & Hm).
    exists g. split; [done|]. split; [done|].
    assert (Graph.edge_count g = 0 ∧ Graph._all_degrees_cache g = None) as [He Hc].
    { destruct (rep_init_ok N HN) as (r & Hr & _ & Hcount & _).
      unfold Graph.init in Hinit. rewrite decide_False in Hinit by lia.
      rewrite Hr in Hinit. simpl in Hinit. injection Hinit as <-. done. }
    split; [done|]. split; [done|].
    intros v Hv. by apply (init_neighbors_empty N).
Qed.

(** X2: after any sequence of calls, the neighbour list of a vertex [w] has
    no repetition and holds exactly the vertices [x] of [1, N] for which
    [add_edge(w, x)] or [add_edge(x, w)] was called. *)
Theorem neighbors_are_the_added_partners {R : Type} `{FaithfulRepresentation R}
    (N : Z) (cs : list Graph.call) :
  0 < N →
  ∃ g : Graph.t R, Graph.build N cs = Return g ∧
    ∀ w, 1 ≤ w ≤ N →
      ∃ ns, Graph.get_neighbors g w = Return ns ∧ NoDup ns ∧
            ∀ x, x ∈ ns ↔
                 1 ≤ x ≤ N ∧ (Graph.AddEdge w x ∈ cs ∨ Graph.AddEdge x w ∈ cs).
Proof.
  intros HN. destruct (models_build (R := R) N cs HN) as (g & Hg & HNg & Hm).
  exists g. split; [done|]. intros w Hw. subst N.
  destruct (neighbors_of_model cs g w Hm Hw) as (ns & Hns & Hnd & _ & Hin).
  exists ns. done.
Qed.

Lemma nonzero_from_ascending (i : Z) (row : list Z) :
  StronglySorted Z.lt ((λ i, i + 1) <$> AdjacencyMatrix.nonzero_from i row).
Proof.
  revert i. induction row as [|a row IH]; intros i; simpl; [constructor|].
  case_decide; [apply IH|]. rewrite fmap_cons. constructor; [apply IH|].
  rewrite List.Forall_forall. intros x Hx. apply list_elem_of_In in Hx.
  apply list_elem_of_fmap in Hx as (y & -> & Hy).
  apply elem_of_nonzero_from in Hy as (j & -> & _). lia.
Qed.

(** X3: the dense representation lists the neighbours of a vertex in
    strictly ascending order. *)
Theorem dense_neighbors_are_ascending (N : Z) (cs : list Graph.call) :
  0 < N →
  ∃ g : Graph.t AdjacencyMatrix.t, Graph.build N cs = Return g ∧
    ∀ v, 1 ≤ v ≤ N →
      ∃ ns, Graph.get_neighbors g v = Return ns ∧ StronglySorted Z.lt ns.
Proof.
  intros HN. destruct (models_build (R := AdjacencyMatrix.t) N cs HN) as (g & Hg & HNg & Hm).
  exists g. split; [done|]. intros v Hv. subst N.
  rewrite get_neighbors_valid by done. simpl.
  pose proof (models_rep _ _ Hm) as Hinv. simpl in Hinv.
  destruct (matrix_row _ _ v Hinv Hv) as (row & Hrow & _).
  rewrite (matrix_get_neighbors _ _ v row Hinv Hv Hrow).
  eexists. split; [reflexivity|]. apply nonzero_from_ascending.
Qed.

(** X4: an accepted [add_edge(u, v)] clears the degree cache, keeps the
    vertex count, raises the edge count by one exactly when [v] was not yet
    a neighbour of [u], and afterwards the neighbour lists are the old ones
    with [v] added to that of [u] and [u] to that of [v]. *)
Theorem add_edge_links_both_endpoints {R : Type} `{FaithfulRepresentation R}
    (N : Z) (cs : list Graph.call) (u v : Z) :
  1 ≤ u ≤ N → 1 ≤ v ≤ N →
  ∃ g : Graph.t R, Graph.build N cs = Return g ∧
    (Graph.add_edge u v g).1 = Return () ∧
    Graph._all_degrees_cache (Graph.add_edge u v g).2 = None ∧
    Graph.vertex_count (Graph.add_edge u v g).2 = N ∧
    (∃ nu, Graph.get_neighbors g u = Return nu ∧
           Graph.edge_count (Graph.add_edge u v g).2
           = Graph.edge_count g + (if decide (v ∈ nu) then 0 else 1)) ∧
    ∀ w, 1 ≤ w ≤ N →
      ∃ ns ns', Graph.get_neighbors g w = Return ns ∧
                Graph.get_neighbors (Graph.add_edge u v g).2 w = Return ns' ∧
                ∀ x, x ∈ ns' ↔ x ∈ ns ∨ (w = u ∧ x = v) ∨ (w = v ∧ x = u).
Proof.
  intros Hu Hv. destruct (models_build (R := R) N cs ltac:(lia)) as (g & Hg & HNg & Hm).
  exists g. split; [done|]. subst N.
  destruct (models_add_edge cs g u v Hm) as [Hm' HN'].
  destruct (add_edge_valid_spec cs g u v Hm Hu Hv) as (r' & Hadd & Hcount).
  rewrite Hadd in *. simpl in *. split; [done|]. split; [done|]. split; [done|]. split.
  - destruct (neighbors_of_model cs g u Hm Hu) as (nu & Hnu & _ & Hset & _).
    exists nu. split; [done|]. unfold Graph.edge_count. simpl. rewrite Hcount, Hset.
    destruct (decide (v ∈ nu)).
    + by rewrite decide_True by (by apply elem_of_list_to_set).
    + by rewrite decide_False by (by rewrite elem_of_list_to_set).
  - intros w Hw.
    destruct (neighbors_of_model cs g w Hm Hw) as (ns & Hns & _ & _ & Hin).
    destruct (neighbors_of_model _ _ w Hm' Hw) as (ns' & Hns' & _ & _ & Hin').
    exists ns, ns'. split; [done|]. split; [done|]. intros x.
    rewrite Hin', Hin, linked_app. simpl. unfold Graph.vertex_count in *. simpl.
    split; [|naive_solver]. intros (Hx & [?|[?|?]]); [naive_solver|simplify_eq..]; naive_solver.
Qed.

(** X5: the degree cache is never stale.  After any sequence of calls,
    [_calculate_all_degrees] returns what a fresh computation returns, also
    when it answers from the cache; it stores that list without touching
    the representation, and a second call returns the same list and leaves
    the graph as it is. *)
Theorem degree_cache_is_never_stale {R : Type} `{FaithfulRepresentation R}
    (N : Z) (cs : list Graph.call) :
  0 < N →
  ∃ (g : Graph.t R) ds,
    Graph.build N cs = Return g ∧
    (Graph._calculate_all_degrees g).1 = Return ds ∧
    Graph.degrees_of g (range1 N) = Return ds ∧
    Graph._all_degrees_cache (Graph._calculate_all_degrees g).2 = Some ds ∧
    Graph._representation (Graph._calculate_all_degrees g).2 = Graph._representation g ∧
    Graph._calculate_all_degrees (Graph._calculate_all_degrees g).2
    = (Return ds, (Graph._calculate_all_degrees g).2).
Proof.
  intros HN. destruct (models_build (R := R) N cs HN) as (g & Hg & HNg & Hm).
  destruct (calculate_all_degrees_spec cs g Hm) as (ds & Hcalc & Hdeg).
  exists g, ds. subst N. split; [done|]. split; [done|]. split; [done|].
  unfold Graph._calculate_all_degrees in *.
  destruct (Graph._all_degrees_cache g) as [ds'|] eqn:Hcache; simpl in *.
  - injection Hcalc as ->. rewrite Hcache. done.
  - rewrite Hdeg in *. simpl. done.
Qed.


Lemma np_index_wrap (len : nat) (i : Z) : - Z.of_nat len ≤ i < 0 →
  AdjacencyMatrix.np_index len i = AdjacencyMatrix.np_index len (i + Z.of_nat len).
Proof.
  intros Hi. unfold AdjacencyMatrix.np_index.
  rewrite (decide_False (P := 0 ≤ i < Z.of_nat len)) by lia.
  rewrite (decide_True (P := - Z.of_nat len ≤ i < 0)) by lia.
  by rewrite (decide_True (P := 0 ≤ i + Z.of_nat len < Z.of_nat len)) by lia.
Qed.

Lemma np_index_out (len : nat) (i : Z) : i < - Z.of_nat len ∨ Z.of_nat len ≤ i →
  AdjacencyMatrix.np_index len i = Raise IndexError.
Proof.
  intros Hi. unfold AdjacencyMatrix.np_index.
  rewrite (decide_False (P := 0 ≤ i < Z.of_nat len)) by lia.
  by rewrite (decide_False (P := - Z.of_nat len ≤ i < 0)) by lia.
Qed.

Lemma np_index_raise (len : nat) (i : Z) (e : exn) :
  AdjacencyMatrix.np_index len i = Raise e → e = IndexError.
Proof. unfold AdjacencyMatrix.np_index. repeat case_decide; congruence. Qed.

(** X7: used without the facade, the dense representation takes a vertex
    number in [1 - N, 0] for the vertex [N] places higher (NumPy counts a
    negative index from the end): [add_edge] and [get_neighbors] behave as
    for that vertex.  A vertex number below [1 - N] or above [N] raises
    [IndexError], and [add_edge] then changes nothing. *)
Theorem dense_vertex_numbers_wrap_around (N : Z) (r : AdjacencyMatrix.t) (u v : Z) :
  0 < N → length (AdjacencyMatrix._matrix r) = Z.to_nat N →
  (1 - N ≤ u ≤ 0 →
     AdjacencyMatrix.add_edge u v r = AdjacencyMatrix.add_edge (u + N) v r ∧
     AdjacencyMatrix.add_edge v u r = AdjacencyMatrix.add_edge v (u + N) r ∧
     AdjacencyMatrix.get_neighbors r u = AdjacencyMatrix.get_neighbors r (u + N)) ∧
  (u < 1 - N ∨ N < u →
     AdjacencyMatrix.add_edge u v r = (Raise IndexError, r) ∧
     AdjacencyMatrix.add_edge v u r = (Raise IndexError, r) ∧
     AdjacencyMatrix.get_neighbors r u = Raise IndexError).
Proof.
  intros HN Hlen. split.
  - intros Hu.
    assert (AdjacencyMatrix.np_index (length (AdjacencyMatrix._matrix r)) (u - 1)
            = AdjacencyMatrix.np_index (length (AdjacencyMatrix._matrix r)) (u + N - 1)) as Hidx.
    { rewrite np_index_wrap by lia. f_equal. lia. }
    assert (∀ m, length m = length (AdjacencyMatrix._matrix r) →
              (∀ j, AdjacencyMatrix.getitem2 m (u - 1) j = AdjacencyMatrix.getitem2 m (u + N - 1) j) ∧
              (∀ j, AdjacencyMatrix.getitem2 m j (u - 1) = AdjacencyMatrix.getitem2 m j (u + N - 1)) ∧
              (∀ j x, AdjacencyMatrix.setitem2 m (u - 1) j x = AdjacencyMatrix.setitem2 m (u + N - 1) j x) ∧
              (∀ j x, AdjacencyMatrix.setitem2 m j (u - 1) x = AdjacencyMatrix.setitem2 m j (u + N - 1) x))
      as Hops.
    { intros m Hm. unfold AdjacencyMatrix.getitem2, AdjacencyMatrix.setitem2.
      rewrite Hm, Hidx. done. }
    assert (∀ m i j x m', AdjacencyMatrix.setitem2 m i j x = Return m' → length m' = length m)
      as Hsetlen.
    { intros m i j x m'. unfold AdjacencyMatrix.setitem2.
      destruct (AdjacencyMatrix.np_index (length m) i) as [i'|]; simpl; [|done].
      destruct (AdjacencyMatrix.np_index (length m) j) as [j'|]; simpl; [|done].
      destruct (m !! i'); [|done]. intros [= <-]. by rewrite length_insert. }
    destruct (Hops (AdjacencyMatrix._matrix r) eq_refl) as (Hg1 & Hg2 & Hs1 & Hs2).
    split; [|split].
    + unfold AdjacencyMatrix.add_edge. cbv zeta. rewrite Hg1.
      destruct (AdjacencyMatrix.getitem2 _ (u + N - 1) (v - 1)) as [x|]; [|done].
      case_decide; [|done]. rewrite Hs1.
      destruct (AdjacencyMatrix.setitem2 _ (u + N - 1) (v - 1) 1) as [m1|] eqn:Hm1; [|done].
      destruct (Hops m1 (Hsetlen _ _ _ _ _ Hm1)) as (_ & _ & _ & Hs2'). by rewrite Hs2'.
    + unfold AdjacencyMatrix.add_edge. cbv zeta. rewrite Hg2.
      destruct (AdjacencyMatrix.getitem2 _ (v - 1) (u + N - 1)) as [x|]; [|done].
      case_decide; [|done]. rewrite Hs2.
      destruct (AdjacencyMatrix.setitem2 _ (v - 1) (u + N - 1) 1) as [m1|] eqn:Hm1; [|done].
      destruct (Hops m1 (Hsetlen _ _ _ _ _ Hm1)) as (_ & _ & Hs1' & _). by rewrite Hs1'.
    + unfold AdjacencyMatrix.get_neighbors, AdjacencyMatrix.getrow. cbv zeta. by rewrite Hidx.
  - intros Hu.
    assert (AdjacencyMatrix.np_index (length (AdjacencyMatrix._matrix r)) (u - 1)
            = Raise IndexError) as Hidx by (apply np_index_out; lia).
    split; [|split].
    + unfold AdjacencyMatrix.add_edge, AdjacencyMatrix.getitem2. cbv zeta. by rewrite Hidx.
    + unfold AdjacencyMatrix.add_edge, AdjacencyMatrix.getitem2. cbv zeta. rewrite Hidx.
      destruct (AdjacencyMatrix.np_index _ (v - 1)) as [i'|e] eqn:Hv; simpl; [done|].
      by rewrite (np_index_raise _ _ _ Hv).
    + unfold AdjacencyMatrix.get_neighbors, AdjacencyMatrix.getrow. cbv zeta. by rewrite Hidx.
Qed.

(** * The edge count *)

Lemma edge_key_eq a b u v :
  edge_key a b = edge_key u v ↔ (a = u ∧ b = v) ∨ (a = v ∧ b = u).
Proof. unfold edge_key. split; [intros [= ? ?]|intros [[-> ->]|[-> ->]]; f_equal]; lia. Qed.

Lemma elem_of_inserted_edges n cs u v :
  edge_key u v ∈ inserted_edges n cs ↔ 1 ≤ u ≤ n ∧ 1 ≤ v ≤ n ∧ linked cs u v.
Proof.
  unfold inserted_edges, linked. rewrite elem_of_list_to_set, list_elem_of_omap. split.
  - intros (c & Hc & Hk). destruct c as [a b|]; [|done]. simpl in Hk.
    case_decide as Hab; [|done]. apply (inj Some) in Hk.
    apply edge_key_eq in Hk as [[-> ->]|[-> ->]]; naive_solver.
  - intros (Hu & Hv & [Hc|Hc]).
    + exists (Graph.AddEdge u v). split; [done|]. simpl. by rewrite decide_True.
    + exists (Graph.AddEdge v u). split; [done|]. simpl. rewrite decide_True by done.
      f_equal. apply edge_key_eq. auto.
Qed.

Lemma inserted_edges_snoc n cs c :
  inserted_edges n (cs ++ [c]) =
    inserted_edges n cs ∪ (if inserted_edge n c is Some k then {[k]} else ∅).
Proof.
  unfold inserted_edges. rewrite omap_app, list_to_set_app_L. f_equal. simpl.
  destruct (inserted_edge n c); set_solver.
Qed.

Section edge_count.
Context {R : Type} `{FaithfulRepresentation R}.

Lemma edge_count_run_call cs (g : Graph.t R) c : models cs g →
  Graph.edge_count g = Z.of_nat (size (inserted_edges (Graph.vertex_count g) cs)) →
  Graph.edge_count (Graph.run_call c g)
    = Z.of_nat (size (inserted_edges (Graph.vertex_count g) (cs ++ [c]))).
Proof.
  intros Hm Hcount. rewrite inserted_edges_snoc. destruct c as [u v|]; simpl.
  - case_decide as Huv.
    + destruct Huv as [Hu Hv].
      destruct (add_edge_valid_spec cs g u v Hm Hu Hv) as (r' & -> & Hr').
      unfold Graph.edge_count in *. simpl. rewrite Hr', Hcount.
      pose proof (models_adj _ _ Hm u v Hu) as Hadj.
      pose proof (elem_of_inserted_edges (Graph.vertex_count g) cs u v) as Hin.
      unfold Graph.vertex_count in *.
      case_decide as Hold.
      * replace (inserted_edges _ cs ∪ {[edge_key u v]}) with (inserted_edges (Graph._num_vertices g) cs)
          by (apply set_eq; intros k; rewrite elem_of_union, elem_of_singleton;
              split; [auto|intros [?| ->]; [done|]; apply Hin; naive_solver]).
        lia.
      * rewrite size_union, size_singleton; [lia|].
        apply disjoint_singleton_r. intros Hk. apply Hold, Hadj. naive_solver.
    + rewrite add_edge_rejected by done. simpl. by rewrite union_empty_r_L.
  - rewrite union_empty_r_L. unfold Graph._calculate_all_degrees.
    destruct (Graph._all_degrees_cache g); [done|].
    by destruct (Graph.degrees_of g _).
Qed.

Lemma edge_count_run_calls cs0 cs (g : Graph.t R) : models cs0 g →
  Graph.edge_count g = Z.of_nat (size (inserted_edges (Graph.vertex_count g) cs0)) →
  Graph.edge_count (Graph.run_calls cs g)
    = Z.of_nat (size (inserted_edges (Graph.vertex_count g) (cs0 ++ cs))).
Proof.
  revert cs0 g. induction cs as [|c cs IH]; intros cs0 g Hm Hcount; simpl.
  - by rewrite app_nil_r.
  - assert (models (cs0 ++ [c]) (Graph.run_call c g) ∧
            Graph._num_vertices (Graph.run_call c g) = Graph._num_vertices g) as [Hm' HN'].
    { destruct c as [u v|]; simpl.
      - by apply models_add_edge.
      - by apply models_calculate_all_degrees. }
    pose proof (edge_count_run_call cs0 g c Hm Hcount) as Hc.
    unfold Graph.vertex_count in *. rewrite <- HN' in Hc.
    rewrite (IH _ _ Hm' Hc), HN'. by rewrite <- app_assoc.
Qed.

End edge_count.

Lemma edge_count_counts_pairs {R : Type} `{FaithfulRepresentation R}
    (N : Z) (cs : list Graph.call) :
  0 < N →
  ∃ g : Graph.t R,
    Graph.build N cs = Return g ∧
    Graph.edge_count g = Z.of_nat (size (inserted_edges N cs)).
Proof.
  intros HN. destruct (models_init (R := R) N HN) as (g0 & Hinit & HN0 & Hm0).
  unfold Graph.build. rewrite Hinit. simpl. eexists. split; [reflexivity|].
  assert (Graph.edge_count g0 = 0) as He.
  { destruct (rep_init_ok N HN) as (r & Hr & _ & Hcount & _).
    unfold Graph.init in Hinit. rewrite decide_False in Hinit by lia.
    rewrite Hr in Hinit. simpl in Hinit. by injection Hinit as <-. }
  rewrite (edge_count_run_calls [] cs g0 Hm0); [by subst N|].
  by rewrite He.
Qed.

(** X8: the edge count of a graph is the number of distinct unordered pairs
    of vertices of [1, N] that were passed to [add_edge]: repeated pairs,
    pairs given in the other order and rejected calls do not count, a pair
    [(u, u)] counts once; in particular the count is the same in every
    representation. *)
Theorem edge_count_counts_distinct_pairs {R : Type} `{FaithfulRepresentation R}
    (N : Z) (cs : list Graph.call) :
  0 < N →
  ∃ g : Graph.t R,
    Graph.build N cs = Return g ∧
    Graph.edge_count g = Z.of_nat (size (inserted_edges N cs)) ∧
    (∀ u v, 1 ≤ u ≤ N → 1 ≤ v ≤ N →
       (edge_key u v ∈ inserted_edges N cs ↔
        ∃ ns, Graph.get_neighbors g u = Return ns ∧ v ∈ ns)).
Proof.
  intros HN. destruct (edge_count_counts_pairs (R := R) N cs HN) as (g & Hg & He).
  exists g. split; [done|]. split; [done|].
  destruct (models_build (R := R) N cs HN) as (g' & Hg' & HNg & Hm).
  rewrite Hg in Hg'. injection Hg' as <-. subst N.
  intros u v Hu Hv.
  destruct (neighbors_of_model cs g u Hm Hu) as (ns & Hns & _ & _ & Hin).
  rewrite elem_of_inserted_edges. split.
  - intros (_ & _ & Hl). exists ns. split; [done|]. by apply Hin.
  - intros (ns' & Hns' & Hv'). rewrite Hns in Hns'. injection Hns' as <-.
    apply Hin in Hv'. tauto.
Qed.

(** * Walks in both directions *)

Section walks.
Context {R : Type} `{GraphRepresentation R}.
Variable g : Graph.t R.

Lemma walk_trans u v w n m : walk g u v n → walk g v w m → walk g u w (n + m).
Proof.
  intros Huv. induction 1 as [|x y m Hwalk IH Hadj].
  - by rewrite Nat.add_0_r.
  - rewrite Nat.add_succ_r. by eapply walk_step.
Qed.

Lemma walk_edge u v : adjacent g u v → walk g u v 1.
Proof. intros Hadj. eapply walk_step; [constructor|done]. Qed.

Lemma walk_0 u v : walk g u v 0 → u = v.
Proof. by inversion 1. Qed.

Lemma walk_1 u v : walk g u v 1 → adjacent g u v.
Proof.
  inversion 1 as [|x y n Hwalk Hadj]; subst. by apply walk_0 in Hwalk as ->.
Qed.

Hypothesis Hsym : ∀ a b, adjacent g a b → adjacent g b a.

Lemma walk_sym u v n : walk g u v n → walk g v u n.
Proof.
  induction 1 as [|x y n Hwalk IH Hadj]; [constructor|].
  change (S n) with (1 + n)%nat. apply (walk_trans y x u); [|done].
  by apply walk_edge, Hsym.
Qed.

Lemma distance_sym u v n : distance g u v n → distance g v u n.
Proof.
  intros [Hwalk Hmin]. split; [by apply walk_sym|].
  intros m Hm. by apply Hmin, walk_sym.
Qed.

End walks.

Section distance_metric.
Context {R : Type} `{FaithfulRepresentation R}.

Lemma models_adjacent_sym cs (g : Graph.t R) a b :
  models cs g → adjacent g a b → adjacent g b a.
Proof.
  intros Hm (ns & Hns & Hin).
  destruct (decide (1 ≤ a ≤ Graph.vertex_count g)) as [Ha|Ha];
    [|by rewrite get_neighbors_invalid in Hns].
  destruct (neighbors_of_model cs g a Hm Ha) as (ns' & Hns' & _ & _ & Hina).
  rewrite Hns in Hns'. injection Hns' as <-. apply Hina in Hin as [Hb Hl].
  destruct (neighbors_of_model cs g b Hm Hb) as (nb & Hnb & _ & _ & Hinb).
  exists nb. split; [done|]. apply Hinb. split; [done|].
  unfold linked in *. tauto.
Qed.

End distance_metric.

(** The number [get_distance] returns is the sentinel for a pair without
    walk and the length of a shortest walk otherwise. *)
Lemma get_distance_cases {R : Type} `{GraphRepresentation R} (g : Graph.t R) (u v : Z) :
  searchable g → 1 ≤ u ≤ Graph.vertex_count g → 1 ≤ v ≤ Graph.vertex_count g →
  ∃ x, Graph.get_distance g u v = Some (Return x) ∧
       ((x = -1 ∧ ¬ connected g u v) ∨ (∃ n, x = Z.of_nat n ∧ distance g u v n)).
Proof.
  intros Hg Hu Hv. destruct (bfs_returns g Hg u Hu) as (P & L & Hbfs & Hinv).
  destruct (bfs_levels_spec g u P L Hinv) as (_ & Hdom & Hun & Hdist).
  destruct (proj2 (Hdom v) Hv) as [x Hx].
  exists x. unfold Graph.get_distance, getitem. rewrite Hbfs. cbn [search_bind snd].
  rewrite Hx. split; [done|].
  destruct (decide (x = -1)) as [->|Hne].
  - left. split; [done|]. by apply Hun.
  - right. destruct (bi_sound _ _ _ _ Hinv v x Hx Hne) as [Hx0 _].
    exists (Z.to_nat x). split; [lia|]. apply Hdist. rewrite Hx. f_equal. lia.
Qed.

(** X9: on the vertices of a graph [get_distance] is a metric with the
    sentinel -1 for pairs without a walk: it is the same in both directions,
    it is 0 exactly from a vertex to itself and 1 exactly between different
    adjacent vertices, and the distance over an intermediate vertex is at
    most the sum of the two distances. *)
Theorem get_distance_is_a_metric {R : Type} `{FaithfulRepresentation R}
    (N : Z) (cs : list Graph.call) :
  0 < N →
  ∃ g : Graph.t R,
    Graph.build N cs = Return g ∧
    ∀ u v, 1 ≤ u ≤ N → 1 ≤ v ≤ N →
      ∃ d, Graph.get_distance g u v = Some (Return d) ∧
           Graph.get_distance g v u = Some (Return d) ∧
           -1 ≤ d ∧
           (d = 0 ↔ u = v) ∧
           (d = 1 ↔ u ≠ v ∧ adjacent g u v) ∧
           ∀ w e, 1 ≤ w ≤ N → Graph.get_distance g v w = Some (Return e) →
             0 ≤ d → 0 ≤ e →
             ∃ f, Graph.get_distance g u w = Some (Return f) ∧ 0 ≤ f ≤ d + e.
Proof.
  intros HN. destruct (models_build (R := R) N cs HN) as (g & Hg & HNg & Hm).
  pose proof (models_searchable _ _ Hm) as Hsearch.
  pose proof (λ a b, models_adjacent_sym cs g a b Hm) as Hsym.
  subst N. exists g. split; [done|]. intros u v Hu Hv.
  destruct (get_distance_cases g u v Hsearch Hu Hv) as (d & Hd & Hcase).
  destruct (get_distance_cases g v u Hsearch Hv Hu) as (d' & Hd' & Hcase').
  assert (d' = d) as ->.
  { destruct Hcase as [[-> Hnc]|(n & -> & Hn)], Hcase' as [[-> Hnc']|(n' & -> & Hn')].
    - done.
    - exfalso. apply Hnc. exists n'. apply (walk_sym g Hsym), Hn'.
    - exfalso. apply Hnc'. exists n. apply (walk_sym g Hsym), Hn.
    - apply (distance_sym g Hsym) in Hn'. destruct Hn as [Hw Hmin], Hn' as [Hw' Hmin'].
      apply Hmin in Hw'. apply Hmin' in Hw. lia. }
  exists d. split; [done|]. split; [done|].
  split; [destruct Hcase as [[-> _]|(n & -> & _)]; lia|]. split; [|split].
  - split.
    + intros ->. destruct Hcase as [[? _]|(n & Hn & Hdist)]; [done|].
      assert (n = 0%nat) as -> by lia. destruct Hdist as [Hw _]. by apply (walk_0 g).
    + intros ->. destruct Hcase as [[_ Hnc]|(n & -> & Hdist)].
      * exfalso. apply Hnc. exists 0%nat. constructor.
      * destruct Hdist as [_ Hmin]. specialize (Hmin 0%nat (walk_here g v)). lia.
  - split.
    + intros ->. destruct Hcase as [[? _]|(n & Hn & Hdist)]; [done|].
      assert (n = 1%nat) as -> by lia. destruct Hdist as [Hw Hmin].
      split; [|by apply walk_1]. intros ->. specialize (Hmin 0%nat (walk_here g v)). lia.
    + intros [Hne Hadj]. destruct Hcase as [[_ Hnc]|(n & -> & Hdist)].
      * exfalso. apply Hnc. exists 1%nat. by apply walk_edge.
      * destruct Hdist as [Hw Hmin]. specialize (Hmin 1%nat (walk_edge g u v Hadj)).
        destruct n as [|[|n]]; [|done|lia]. by apply walk_0 in Hw.
  - intros w e Hw He Hd0 He0.
    destruct (get_distance_cases g v w Hsearch Hv Hw) as (e' & He' & Hcase2).
    rewrite He in He'. injection He' as <-.
    destruct Hcase as [[-> _]|(n & -> & [Hwn _])]; [lia|].
    destruct Hcase2 as [[-> _]|(m & -> & [Hwm _])]; [lia|].
    destruct (get_distance_cases g u w Hsearch Hu Hw) as (f & Hf & Hcase3).
    exists f. split; [done|].
    pose proof (walk_trans g u v w n m Hwn Hwm) as Hwalk.
    destruct Hcase3 as [[-> Hnc]|(k & -> & [_ Hmin])].
    + exfalso. apply Hnc. by eexists.
    + apply Hmin in Hwalk. lia.
Qed.

(** * The tree of a breadth-first search *)

Section bfs_tree.
Context {R : Type} `{GraphRepresentation R}.
Variable g : Graph.t R.
Hypothesis Hg : searchable g.
Variable s : Z.
Hypothesis Hs : 1 ≤ s ≤ Graph.vertex_count g.

Lemma bfs_visit_tree u q w st st' :
  bfs_inv g s (u :: q) st →
  parent_tree g s (Graph.bfs_parents st) (Graph.bfs_levels st) →
  adjacent g u w → Graph.bfs_visit u w st = Return st' →
  parent_tree g s (Graph.bfs_parents st') (Graph.bfs_levels st').
Proof.
  intros Hinv [Hpar Hreached] Hadj Hvisit.
  destruct (window_head g s _ _ _ Hinv) as (lu & Hlu & Hlu0 & _).
  unfold Graph.bfs_visit, getitem in Hvisit.
  destruct (Graph.bfs_levels st !! w) as [lw|] eqn:Hlw; [|done]. simpl in Hvisit.
  case_decide as Hun; [subst lw|by injection Hvisit as <-].
  rewrite Hlu in Hvisit. simpl in Hvisit. injection Hvisit as <-. simpl.
  pose proof (bi_punseen _ _ _ _ Hinv w Hlw) as Hpw.
  assert (u ≠ w) as Huw by (intros ->; rewrite Hlu in Hlw; injection Hlw; lia).
  split.
  - intros v p Hp. destruct (decide (w = v)) as [<-|Hwv].
    + rewrite lookup_insert_eq in Hp. injection Hp as <-. split; [done|].
      exists lu. rewrite lookup_insert_ne, lookup_insert_eq by done. done.
    + rewrite lookup_insert_ne in Hp by done.
      destruct (Hpar v p Hp) as (Hpv & lp & Hlp & Hlp0 & Hlv).
      split; [done|]. exists lp.
      rewrite !lookup_insert_ne; [done|done|].
      intros <-. rewrite Hlw in Hlp. injection Hlp. lia.
  - intros v l Hl Hne Hvs. destruct (decide (w = v)) as [<-|Hwv].
    + exists u. apply lookup_insert_eq.
    + rewrite lookup_insert_ne in Hl by done. rewrite lookup_insert_ne by done.
      by apply (Hreached v l).
Qed.

Lemma bfs_for_tree u q vs st st' :
  bfs_inv g s (u :: q) st →
  parent_tree g s (Graph.bfs_parents st) (Graph.bfs_levels st) →
  (∀ w, w ∈ vs → adjacent g u w) → Graph.bfs_for u vs st = Return st' →
  parent_tree g s (Graph.bfs_parents st') (Graph.bfs_levels st').
Proof.
  revert st. induction vs as [|w vs IH]; intros st Hinv Htree Hadj Hfor; simpl in Hfor.
  - by injection Hfor as <-.
  - destruct (bfs_visit_inv g Hg s Hs u q w st Hinv) as (st1 & Hv & Hinv1 & _).
    { apply Hadj. apply list_elem_of_here. }
    rewrite Hv in Hfor. simpl in Hfor. apply (IH st1); [done| |by set_solver|done].
    apply (bfs_visit_tree u q w st); [done|done| |done].
    apply Hadj. apply list_elem_of_here.
Qed.

Lemma bfs_while_tree fuel st P L :
  bfs_inv g s [] st →
  parent_tree g s (Graph.bfs_parents st) (Graph.bfs_levels st) →
  Graph.bfs_while fuel g st = Some (Return (P, L)) →
  parent_tree g s P L.
Proof.
  revert st. induction fuel as [|fuel IH]; intros st Hinv Htree Hwhile; [done|].
  destruct st as [P0 L0 q]. simpl in Hwhile. destruct q as [|u q].
  - by injection Hwhile as <- <-.
  - destruct (bfs_step_inv g Hg s Hs P0 L0 u q Hinv) as (ns & st' & Hns & Hfor & Hinv1 & Hinv' & _).
    rewrite Hns, Hfor in Hwhile. apply (IH st'); [done| |done].
    apply (bfs_for_tree u [] ns (Graph.mk_bfs P0 L0 q)); [done|done| |done].
    intros w Hw. by exists ns.
Qed.

Lemma bfs_tree_initial :
  parent_tree g s (Graph.dict_of_range (Graph.vertex_count g) None)
    (<[s:=0]> (Graph.dict_of_range (Graph.vertex_count g) (-1))).
Proof.
  unfold Graph.dict_of_range. split.
  - intros v p Hp. rewrite lookup_range_dict in Hp. by case_decide.
  - intros v l Hl Hne Hvs. rewrite lookup_insert_ne, lookup_range_dict in Hl by done.
    case_decide; congruence.
Qed.

Lemma bfs_tree_spec :
  ∃ P L, Graph.breadth_first_search g s = Some (Return (P, L)) ∧
         bfs_inv g s [] (Graph.mk_bfs P L []) ∧ parent_tree g s P L.
Proof.
  destruct (bfs_returns g Hg s Hs) as (P & L & Hbfs & Hinv).
  exists P, L. split; [done|]. split; [done|].
  unfold Graph.breadth_first_search in Hbfs.
  rewrite (proj2 (is_vertex_within_bounds_true _ _) Hs) in Hbfs. cbn [negb] in Hbfs.
  eapply bfs_while_tree; [apply bfs_initial; done|apply bfs_tree_initial|done].
Qed.

End bfs_tree.

(** X10: the parent map of [breadth_first_search] is a shortest-path tree:
    the start has no parent; the parent of a vertex is a neighbour one hop
    closer to the start; every vertex connected to the start, other than the
    start, has a parent; and following the parents from a vertex at distance
    [n] reaches the start in [n] steps. *)
Theorem bfs_parents_form_a_shortest_path_tree {R : Type} `{FaithfulRepresentation R}
    (N : Z) (cs : list Graph.call) (s : Z) :
  1 ≤ s ≤ N →
  ∃ (g : Graph.t R) P L,
    Graph.build N cs = Return g ∧
    Graph.breadth_first_search g s = Some (Return (P, L)) ∧
    P !! s = Some None ∧
    (∀ v p, P !! v = Some (Some p) →
       1 ≤ v ≤ N ∧ 1 ≤ p ≤ N ∧ adjacent g p v ∧
       ∃ n, distance g s p n ∧ distance g s v (S n)) ∧
    (∀ v, 1 ≤ v ≤ N → v ≠ s → connected g s v → ∃ p, P !! v = Some (Some p)) ∧
    (∀ v n, distance g s v n → ancestor P v s n).
Proof.
  intros Hs. destruct (models_build (R := R) N cs ltac:(lia)) as (g & Hg & HNg & Hm).
  pose proof (models_searchable _ _ Hm) as Hsearch. subst N.
  destruct (bfs_tree_spec g Hsearch s Hs) as (P & L & Hbfs & Hinv & Hpar & Hreached).
  destruct (bfs_levels_spec g s P L Hinv) as (_ & Hdom & Hun & Hdist).
  exists g, P, L. split; [done|]. split; [done|].
  split; [apply (bi_pstart _ _ _ _ Hinv)|].
  assert (∀ v p, P !! v = Some (Some p) →
            ∃ n, distance g s p n ∧ distance g s v (S n)) as Hcloser.
  { intros v p Hp. destruct (Hpar v p Hp) as (_ & lp & Hlp & Hlp0 & Hlv).
    exists (Z.to_nat lp). split; apply Hdist.
    - rewrite Hlp. f_equal. lia.
    - rewrite Hlv. f_equal. lia. }
  assert (∀ v, 1 ≤ v ≤ Graph.vertex_count g → v ≠ s → connected g s v →
            ∃ p, P !! v = Some (Some p)) as Hhas.
  { intros v Hv Hvs Hconn. destruct (proj2 (Hdom v) Hv) as [l Hl].
    apply (Hreached v l); [done| |done]. intros ->. by apply (Hun v Hv) in Hl. }
  split; [|split; [done|]].
  - intros v p Hp. destruct (Hpar v p Hp) as (Hadj & lp & Hlp & Hlp0 & Hlv).
    split; [apply (bi_pdom _ _ _ _ Hinv); simpl; eauto|].
    split; [apply Hdom; eauto|]. split; [done|]. by apply Hcloser.
  - intros v n. revert v. induction n as [|n IH]; intros v Hn.
    + destruct Hn as [Hw _]. apply (walk_0 g) in Hw as <-. constructor.
    + assert (v ≠ s) as Hvs.
      { intros ->. destruct Hn as [_ Hmin]. specialize (Hmin 0%nat (walk_here g s)). lia. }
      assert (L !! v = Some (Z.of_nat (S n))) as Hl by (by apply Hdist).
      assert (1 ≤ v ≤ Graph.vertex_count g) as Hv by (apply Hdom; eauto).
      destruct (Hhas v Hv Hvs) as [p Hp]; [exists (S n); apply Hn|].
      destruct (Hcloser v p Hp) as (k & Hk & HSk).
      assert (k = n) as ->.
      { destruct Hn as [Hw Hmin], HSk as [Hw' Hmin'].
        apply Hmin in Hw'. apply Hmin' in Hw. lia. }
      eapply ancestor_step; [done|]. by apply IH.
Qed.

(** * The tree of a depth-first search *)

Section dfs_tree.
Context {R : Type} `{GraphRepresentation R}.
Variable g : Graph.t R.
Hypothesis Hg : searchable g.
Variable s : Z.
Hypothesis Hs : 1 ≤ s ≤ Graph.vertex_count g.

Lemma dfs_visit_tree u lvl w st :
  dfs_inv g s [u] st →
  parent_tree g s (Graph.dfs_parents st) (Graph.dfs_levels st) →
  u ∈ Graph.dfs_visited st → Graph.dfs_levels st !! u = Some lvl → adjacent g u w →
  let st' := Graph.dfs_visit u lvl w st in
  parent_tree g s (Graph.dfs_parents st') (Graph.dfs_levels st').
Proof.
  intros Hinv [Hpar Hreached] Hu Hlu Hadj st'. unfold st', Graph.dfs_visit.
  case_decide as Hvis; [done|]. simpl.
  destruct (di_sound _ _ _ _ Hinv u Hu) as (Huv & lu & Hlu' & Hlu0 & _).
  assert (lu = lvl) as -> by congruence.
  assert (1 ≤ w ≤ Graph.vertex_count g) as Hw by (by eapply adjacent_valid).
  destruct (di_unvisited _ _ _ _ Hinv w Hvis Hw) as [Hlw Hpw].
  assert (u ≠ w) as Huw by (by intros ->).
  split.
  - intros v p Hp. destruct (decide (w = v)) as [<-|Hwv].
    + rewrite lookup_insert_eq in Hp. injection Hp as <-. split; [done|].
      exists lvl. rewrite lookup_insert_ne, lookup_insert_eq by done. done.
    + rewrite lookup_insert_ne in Hp by done.
      destruct (Hpar v p Hp) as (Hpv & lp & Hlp & Hlp0 & Hlv).
      split; [done|]. exists lp.
      rewrite !lookup_insert_ne; [done|done|].
      intros <-. rewrite Hlw in Hlp. injection Hlp. lia.
  - intros v l Hl Hne Hvs. destruct (decide (w = v)) as [<-|Hwv].
    + exists u. apply lookup_insert_eq.
    + rewrite lookup_insert_ne in Hl by done. rewrite lookup_insert_ne by done.
      by apply (Hreached v l).
Qed.

Lemma dfs_for_tree u lvl vs st :
  dfs_inv g s [u] st →
  parent_tree g s (Graph.dfs_parents st) (Graph.dfs_levels st) →
  u ∈ Graph.dfs_visited st → Graph.dfs_levels st !! u = Some lvl →
  (∀ w, w ∈ vs → adjacent g u w) →
  let st' := Graph.dfs_for u lvl vs st in
  parent_tree g s (Graph.dfs_parents st') (Graph.dfs_levels st').
Proof.
  revert st. induction vs as [|w vs IH]; intros st Hinv Htree Hu Hlu Hadj; simpl; [done|].
  destruct (dfs_visit_inv g Hg s Hs u lvl w st Hinv Hu Hlu) as (Hinv1 & _ & _ & Hsub1 & Hlu1).
  { apply Hadj. apply list_elem_of_here. }
  apply (IH (Graph.dfs_visit u lvl w st)); [done| |by apply Hsub1|done|by set_solver].
  apply dfs_visit_tree; try done. apply Hadj. apply list_elem_of_here.
Qed.

Lemma dfs_while_tree fuel st P L :
  dfs_inv g s [] st →
  parent_tree g s (Graph.dfs_parents st) (Graph.dfs_levels st) →
  Graph.dfs_while fuel g st = Some (Return (P, L)) →
  parent_tree g s P L.
Proof.
  revert st. induction fuel as [|fuel IH]; intros st Hinv Htree Hwhile; [done|].
  destruct st as [P0 L0 stk V]. simpl in Hwhile.
  destruct (list_pop stk) as [[stk' [u lvl]]|] eqn:Hpop.
  - apply list_pop_Some in Hpop. subst stk.
    destruct (dfs_step_inv g Hg s Hs P0 L0 stk' u lvl V Hinv)
      as (ns & Hns & Hu & Hlu & Hinv1 & Hinv' & _).
    rewrite Hns in Hwhile. apply (IH _ Hinv'); [|done].
    apply dfs_for_tree; try done.
    intros w Hw. exists ns. split; [done|]. by rewrite sorted_Permutation in Hw.
  - by injection Hwhile as <- <-.
Qed.

Lemma dfs_tree_initial :
  parent_tree g s (<[s:=None]> (Graph.dict_of_range (Graph.vertex_count g) None))
    (<[s:=0]> (Graph.dict_of_range (Graph.vertex_count g) (-1))).
Proof.
  unfold Graph.dict_of_range. split.
  - intros v p Hp. destruct (decide (s = v)) as [<-|Hsv].
    + by rewrite lookup_insert_eq in Hp.
    + rewrite lookup_insert_ne, lookup_range_dict in Hp by done. by case_decide.
  - intros v l Hl Hne Hvs. rewrite lookup_insert_ne, lookup_range_dict in Hl by done.
    case_decide; congruence.
Qed.

Lemma dfs_tree_spec :
  ∃ P L V, Graph.depth_first_search g s = Some (Return (P, L)) ∧
           dfs_inv g s [] (Graph.mk_dfs P L [] V) ∧ parent_tree g s P L.
Proof.
  destruct (dfs_returns g Hg s Hs) as (P & L & Hdfs & V & Hinv).
  exists P, L, V. split; [done|]. split; [done|].
  unfold Graph.depth_first_search in Hdfs.
  assert ((1 <=? s) && (s <=? Graph.vertex_count g) = true) as Hb
    by (apply andb_true_iff; lia).
  rewrite Hb in Hdfs. cbn [negb] in Hdfs.
  eapply dfs_while_tree; [apply dfs_initial; done|apply dfs_tree_initial|done].
Qed.

End dfs_tree.

(** X11: [depth_first_search] reaches exactly the vertices connected to the
    start; its parent map is a tree rooted at the start in which the parent
    of a vertex is a neighbour one level above, so that following the
    parents from a vertex of level [l] reaches the start in [l] steps; and
    the level of a reached vertex is at least its distance from the
    start. *)
Theorem dfs_parents_form_a_tree {R : Type} `{FaithfulRepresentation R}
    (N : Z) (cs : list Graph.call) (s : Z) :
  1 ≤ s ≤ N →
  ∃ (g : Graph.t R) P L,
    Graph.build N cs = Return g ∧
    Graph.depth_first_search g s = Some (Return (P, L)) ∧
    (∀ v, 1 ≤ v ≤ N → (L !! v = Some (-1) ↔ ¬ connected g s v)) ∧
    (∀ v p, P !! v = Some (Some p) →
       1 ≤ v ≤ N ∧ 1 ≤ p ≤ N ∧ v ≠ s ∧ adjacent g p v ∧
       ∃ lp, L !! p = Some lp ∧ 0 ≤ lp ∧ L !! v = Some (lp + 1)) ∧
    (∀ v, 1 ≤ v ≤ N → v ≠ s → connected g s v → ∃ p, P !! v = Some (Some p)) ∧
    (∀ v l, L !! v = Some l → l ≠ -1 →
       0 ≤ l ∧ ancestor P v s (Z.to_nat l) ∧
       ∃ n, distance g s v n ∧ Z.of_nat n ≤ l).
Proof.
  intros Hs. destruct (models_build (R := R) N cs ltac:(lia)) as (g & Hg & HNg & Hm).
  pose proof (models_searchable _ _ Hm) as Hsearch. subst N.
  destruct (dfs_tree_spec g Hsearch s Hs) as (P & L & V & Hdfs & Hinv & Hpar & Hreached).
  destruct (dfs_spec g s Hs P L V Hinv)
    as (Hpdom & Hdom & Hpstart & Hstart & Hun & Hpun & Hsound).
  exists g, P, L. split; [done|]. split; [done|]. split; [done|].
  split; [|split].
  - intros v p Hp. destruct (Hpar v p Hp) as (Hadj & lp & Hlp & Hlp0 & Hlv).
    split; [apply Hpdom; eauto|]. split; [apply Hdom; eauto|].
    split; [intros ->; congruence|]. split; [done|]. eauto.
  - intros v Hv Hvs Hconn. destruct (proj2 (Hdom v) Hv) as [l Hl].
    apply (Hreached v l); [done| |done]. intros ->. by apply (Hun v Hv) in Hl.
  - intros v l Hl Hne. destruct (Hsound v l Hl Hne) as [Hl0 Hwalk].
    split; [done|]. split.
    + clear Hwalk. revert v Hl. rewrite <- (Z2Nat.id l) by done.
      generalize (Z.to_nat l) as k. clear l Hne Hl0.
      induction k as [|k IH]; intros v Hl; rewrite Nat2Z.id.
      * assert (v = s) as ->; [|constructor].
        destruct (decide (v = s)) as [|Hvs]; [done|].
        destruct (Hreached v _ Hl ltac:(lia) Hvs) as [p Hp].
        destruct (Hpar v p Hp) as (_ & lp & _ & Hlp0 & Hlv).
        rewrite Hl in Hlv. injection Hlv. lia.
      * assert (v ≠ s) as Hvs by (intros ->; rewrite Hstart in Hl; injection Hl; lia).
        destruct (Hreached v _ Hl ltac:(lia) Hvs) as [p Hp].
        destruct (Hpar v p Hp) as (_ & lp & Hlp & Hlp0 & Hlv).
        rewrite Hl in Hlv. injection Hlv as Hlv.
        eapply ancestor_step; [done|].
        specialize (IH p). rewrite Nat2Z.id in IH. apply IH.
        rewrite Hlp. f_equal. lia.
    + assert (1 ≤ v ≤ Graph.vertex_count g) as Hv by (apply Hdom; eauto).
      destruct (get_distance_cases g s v Hsearch Hs Hv) as (x & _ & [[_ Hnc]|(n & _ & Hn)]).
      * exfalso. apply Hnc. by eexists.
      * exists n. split; [done|]. destruct Hn as [_ Hmin]. apply Hmin in Hwalk. lia.
Qed.

(** * Components are connectivity classes *)

Section connectivity.
Context {R : Type} `{GraphRepresentation R} `{SetIteration}.
Variable g : Graph.t R.
Hypothesis Hg : searchable g.
Hypothesis Hsym : ∀ a b, adjacent g a b → adjacent g b a.

Lemma connected_refl u : connected g u u.
Proof. exists 0%nat. constructor. Qed.

Lemma connected_sym u v : connected g u v → connected g v u.
Proof. intros [n Hn]. exists n. by apply walk_sym. Qed.

Lemma connected_trans u v w : connected g u v → connected g v w → connected g u w.
Proof. intros [n Hn] [m Hm]. exists (n + m)%nat. by eapply walk_trans. Qed.

Lemma connected_step u v w : connected g u v → adjacent g v w → connected g u w.
Proof. intros [n Hn] Hadj. exists (S n). by eapply walk_step. Qed.

Lemma fill_visit_conn V0 v0 u w st :
  fill_inv g V0 [u] st → fill_conn g v0 [u] st → adjacent g u w →
  let st' := Graph.fill_visit w st in
  fill_conn g v0 [u] st' ∧ w ∈ Graph.fill_visited st' ∧
  Graph.fill_visited st ⊆ Graph.fill_visited st'.
Proof.
  intros Hinv [Hsound Hdone] Hadj st'. unfold st', Graph.fill_visit.
  case_decide as Hvis; [done|].
  assert (connected g v0 u) as Hu.
  { apply Hsound, (fi_queue _ _ _ _ Hinv). set_solver. }
  split; [split|split]; simpl.
  - intros x [Hx| ->%elem_of_singleton]%elem_of_union; [by apply Hsound|].
    by apply (connected_step v0 u).
  - intros x [Hx| ->%elem_of_singleton]%elem_of_union Hnotin y Hxy.
    + apply elem_of_union. left. apply (Hdone x Hx); [|done]. set_solver.
    + exfalso. apply Hnotin. set_solver.
  - set_solver.
  - set_solver.
Qed.

Lemma fill_for_conn V0 v0 u vs st :
  fill_inv g V0 [u] st → fill_conn g v0 [u] st → (∀ w, w ∈ vs → adjacent g u w) →
  let st' := Graph.fill_for vs st in
  fill_conn g v0 [u] st' ∧ (∀ w, w ∈ vs → w ∈ Graph.fill_visited st') ∧
  Graph.fill_visited st ⊆ Graph.fill_visited st'.
Proof.
  revert st. induction vs as [|w vs IH]; intros st Hinv Hconn Hadj; simpl.
  - split; [done|]. split; [by intros w ?%elem_of_nil|done].
  - assert (adjacent g u w) as Huw by (apply Hadj; apply list_elem_of_here).
    destruct (fill_visit_inv g Hg V0 u w st Hinv Huw) as (Hinv1 & _).
    destruct (fill_visit_conn V0 v0 u w st Hinv Hconn Huw) as (Hconn1 & Hw1 & Hsub1).
    destruct (IH (Graph.fill_visit w st) Hinv1 Hconn1) as (Hconn2 & Hseen2 & Hsub2).
    { intros w' Hw'. apply Hadj. by apply list_elem_of_further. }
    unfold Graph.fill_for in *. split; [done|]. split; [|set_solver].
    intros w' [->|Hw']%elem_of_cons; [by apply Hsub2|by apply Hseen2].
Qed.

Lemma fill_while_conn V0 v0 fuel st st' :
  fill_inv g V0 [] st → fill_conn g v0 [] st →
  Graph.fill_while fuel g st = Some (Return st') →
  fill_conn g v0 [] st' ∧ Graph.fill_queue st' = [].
Proof.
  revert st. induction fuel as [|fuel IH]; intros st Hinv Hconn Hwhile; [done|].
  destruct st as [V C q]. simpl in Hwhile. destruct q as [|u q].
  - by injection Hwhile as <-.
  - assert (1 ≤ u ≤ Graph.vertex_count g) as Hu.
    { apply (fi_valid _ _ _ _ Hinv). apply (fi_queue _ _ _ _ Hinv). simpl. set_solver. }
    destruct (searchable_neighbors _ Hg u Hu) as (ns & Hns & _ & Hrange).
    rewrite Hns in Hwhile.
    assert (fill_inv g V0 [u] (Graph.mk_fill V C q)) as Hinv1.
    { destruct Hinv. split; done. }
    assert (fill_conn g v0 [u] (Graph.mk_fill V C q)) as Hconn1.
    { destruct Hconn. split; done. }
    assert (∀ w, w ∈ ns → adjacent g u w) as Hadj by (intros w Hw; by exists ns).
    destruct (fill_for_inv g Hg V0 u ns (Graph.mk_fill V C q) Hinv1 Hadj) as (Hinv' & _ & _).
    destruct (fill_for_conn V0 v0 u ns (Graph.mk_fill V C q) Hinv1 Hconn1 Hadj)
      as (Hconn' & Hseen & Hsub).
    apply (IH (Graph.fill_for ns (Graph.mk_fill V C q))); [| |done].
    + destruct Hinv' as [Hvisited Hdisj Hqueue Hvalid]. split; try done.
      intros x Hx. apply Hqueue. set_solver.
    + destruct Hconn' as [Hsound Hdone]. split; [done|].
      intros x Hx Hnotin y Hxy. destruct (decide (x = u)) as [->|Hxu].
      * destruct Hxy as (ns' & Hns' & Hin). rewrite Hns in Hns'. injection Hns' as <-.
        by apply Hseen.
      * apply (Hdone x Hx); [|done]. simpl in *. set_solver.
Qed.

(** The flood fill from an unvisited vertex collects the vertices connected
    to it, when no edge leaves the set visited before. *)
Lemma fill_collects_class V0 v st' :
  1 ≤ v ≤ Graph.vertex_count g → v ∉ V0 →
  (∀ x y, x ∈ V0 → adjacent g x y → y ∈ V0) →
  Graph.fill_while (Graph.search_fuel g) g (Graph.mk_fill (V0 ∪ {[v]}) {[v]} [v])
    = Some (Return st') →
  Graph.fill_visited st' = V0 ∪ Graph.fill_component_nodes st' ∧
  (∀ x, x ∈ Graph.fill_component_nodes st' ↔ connected g v x) ∧
  (∀ x y, x ∈ Graph.fill_visited st' → adjacent g x y → y ∈ Graph.fill_visited st').
Proof.
  intros Hv Hnin Hclosed Hwhile.
  destruct (fill_returns g Hg V0 v Hv Hnin) as (st'' & Hst'' & Hinv & Hvin).
  rewrite Hwhile in Hst''. injection Hst'' as <-.
  destruct (fill_while_conn V0 v (Graph.search_fuel g)
              (Graph.mk_fill (V0 ∪ {[v]}) {[v]} [v]) st') as [[Hsound Hdone] Hq]; [| |done|].
  { split; simpl; [done|set_solver|set_solver|]. by intros x ->%elem_of_singleton. }
  { split; simpl.
    - intros x ->%elem_of_singleton. apply connected_refl.
    - intros x ->%elem_of_singleton Hnotin. exfalso. apply Hnotin. set_solver. }
  destruct Hinv as [Hvisited Hdisj _ Hvalid]. rewrite Hq in Hdone. simpl in Hdone.
  assert (∀ x y, x ∈ Graph.fill_component_nodes st' → adjacent g x y →
                 y ∈ Graph.fill_component_nodes st') as Hcc.
  { intros x y Hx Hxy. pose proof (Hdone x Hx ltac:(set_solver) y Hxy) as Hy.
    rewrite Hvisited in Hy. apply elem_of_union in Hy as [Hy|Hy]; [|done].
    exfalso. apply (Hdisj x Hx). apply (Hclosed y x Hy). by apply Hsym. }
  split; [done|]. split.
  - intros x. split; [apply Hsound|]. intros [n Hn].
    induction Hn as [|y z n Hwalk IH Hadj]; [done|]. by apply (Hcc y).
  - intros x y Hx Hxy. rewrite Hvisited in Hx |- *.
    apply elem_of_union in Hx as [Hx|Hx]; apply elem_of_union.
    + left. by apply (Hclosed x).
    + right. by apply (Hcc x).
Qed.

Lemma components_for_conn vs visited cs cs' :
  (∀ v, v ∈ vs → 1 ≤ v ≤ Graph.vertex_count g) →
  components_conn g visited cs →
  Graph.components_for g vs visited cs = Some (Return cs') →
  ∃ visited', components_conn g visited' cs'.
Proof.
  revert visited cs. induction vs as [|v vs IH]; intros visited cs Hvs Hconn Hfor;
    cbn [Graph.components_for] in Hfor.
  - injection Hfor as <-. by exists visited.
  - assert (∀ v, v ∈ vs → 1 ≤ v ≤ Graph.vertex_count g) as Hvs'
      by (intros w Hw; apply Hvs; by apply list_elem_of_further).
    case_decide as Hvis; [by apply (IH visited cs)|].
    destruct (Graph.fill_while _ _ _) as [[st'|e]|] eqn:Hfill; [|done|done].
    cbn [search_bind] in Hfor. apply IH in Hfor; [done|done|].
    destruct Hconn as [Hclosed Hclass].
    destruct (fill_collects_class visited v st') as (Hvisited & Hcoll & Hclosed');
      [apply Hvs; apply list_elem_of_here|done|done|done|].
    split; [done|].
    intros c [Hc| ->%list_elem_of_singleton]%elem_of_app; [by apply Hclass|]. simpl.
    assert (∀ x, x ∈ sorted id false (set_to_list (Graph.fill_component_nodes st'))
                 ↔ connected g v x) as Hin.
    { intros x. by rewrite sorted_Permutation, set_to_list_perm, elem_of_elements. }
    intros x Hx y. rewrite Hin. apply Hin in Hx. split.
    + intros Hy. apply (connected_trans x v y); [by apply connected_sym|done].
    + intros Hxy. by apply (connected_trans v x y).
Qed.

Lemma components_are_classes comps :
  Graph.get_connected_components g = Some (Return comps) →
  ∀ c, c ∈ comps → connectivity_class g (Graph.vertices c).
Proof.
  unfold Graph.get_connected_components. intros Hcomps.
  destruct (Graph.components_for _ _ _ _) as [[cs0|e]|] eqn:Hfor; [|done|done].
  cbn [search_bind] in Hcomps. injection Hcomps as <-.
  apply components_for_conn in Hfor as [visited' [_ Hclass]].
  - intros c Hc. apply Hclass. by rewrite sorted_Permutation in Hc.
  - intros v Hv. apply elem_of_seqZ in Hv. lia.
  - split; [by intros x y ?%not_elem_of_empty|by intros c ?%elem_of_nil].
Qed.

End connectivity.

(** X12: the components [get_connected_components] returns are the
    connectivity classes of the graph: a component holds, with each of its
    vertices, exactly the vertices connected to it; so two vertices are in
    one component exactly when there is a walk between them, which is when
    [get_distance] does not answer -1. *)
Theorem components_are_connectivity_classes {R : Type} `{FaithfulRepresentation R}
    `{SetIteration} (N : Z) (cs : list Graph.call) :
  0 < N →
  ∃ (g : Graph.t R) comps,
    Graph.build N cs = Return g ∧
    Graph.get_connected_components g = Some (Return comps) ∧
    (∀ c u, c ∈ comps → u ∈ Graph.vertices c →
       ∀ v, v ∈ Graph.vertices c ↔ connected g u v) ∧
    (∀ u v, 1 ≤ u ≤ N → 1 ≤ v ≤ N →
       ((∃ c, c ∈ comps ∧ u ∈ Graph.vertices c ∧ v ∈ Graph.vertices c)
        ↔ connected g u v) ∧
       (connected g u v ↔ Graph.get_distance g u v ≠ Some (Return (-1)))).
Proof.
  intros HN. destruct (models_build (R := R) N cs HN) as (g & Hg & HNg & Hm).
  pose proof (models_searchable _ _ Hm) as Hsearch.
  pose proof (λ a b, models_adjacent_sym cs g a b Hm) as Hsym.
  destruct (get_connected_components_spec g Hsearch) as (comps & Hcc & Hpart & _).
  pose proof (components_are_classes g Hsearch Hsym comps Hcc) as Hclass.
  subst N. exists g, comps. split; [done|]. split; [done|]. split.
  - intros c u Hc Hu. by apply Hclass.
  - intros u v Hu Hv. split.
    + split.
      * intros (c & Hc & Huc & Hvc). by apply (Hclass c Hc u Huc).
      * intros Hconn.
        assert (u ∈ mjoin (Graph.vertices <$> comps)) as Hin.
        { rewrite Hpart. apply elem_of_seqZ. lia. }
        apply list_elem_of_join in Hin as (l & Hul & Hl).
        apply list_elem_of_fmap in Hl as (c & -> & Hc).
        exists c. split; [done|]. split; [done|]. by apply (Hclass c Hc u Hul).
    + destruct (get_distance_cases g u v Hsearch Hu Hv) as (x & Hx & Hcase).
      rewrite Hx. destruct Hcase as [[-> Hnc]|(n & -> & [Hw _])].
      * split; [done|]. by intros [].
      * split; [|by exists n]. intros _ [= ?]. lia.
Qed.

(** * Degree metrics *)

Lemma foldl_min_spec (l : list Z) (x : Z) :
  (foldl Z.min x l = x ∨ foldl Z.min x l ∈ l) ∧
  foldl Z.min x l ≤ x ∧ ∀ y, y ∈ l → foldl Z.min x l ≤ y.
Proof.
  revert x. induction l as [|a l IH]; intros x; simpl.
  - split; [by left|]. split; [lia|]. by intros y ?%elem_of_nil.
  - destruct (IH (Z.min x a)) as ([Heq|Hin] & Hle & Hall).
    + split; [|split; [lia|]].
      * rewrite Heq. destruct (Z.min_spec x a) as [[_ ->]|[_ ->]]; [by left|right; left].
      * intros y [->|Hy]%elem_of_cons; [lia|by apply Hall].
    + split; [by right; right|]. split; [lia|].
      intros y [->|Hy]%elem_of_cons; [lia|by apply Hall].
Qed.

Lemma py_min_spec (l : list Z) : l ≠ [] →
  ∃ m, py_min l = Return m ∧ m ∈ l ∧ ∀ y, y ∈ l → m ≤ y.
Proof.
  destruct l as [|x l]; [done|]. intros _. simpl. eexists. split; [reflexivity|].
  destruct (foldl_min_spec l x) as ([Heq|Hin] & Hle & Hall).
  - split; [rewrite Heq; left|]. intros y [->|Hy]%elem_of_cons; [done|by apply Hall].
  - split; [by right|]. intros y [->|Hy]%elem_of_cons; [done|by apply Hall].
Qed.

Lemma list_getitem_in_range {A : Type} (l : list A) (i : Z) :
  0 ≤ i < Z.of_nat (length l) →
  ∃ x, list_getitem l i = Return x ∧ l !! Z.to_nat i = Some x.
Proof.
  intros Hi. unfold list_getitem. cbv zeta.
  rewrite (decide_False (P := i < 0)) by lia. rewrite decide_False by lia.
  destruct (lookup_lt_is_Some_2 l (Z.to_nat i)) as [x Hx]; [lia|].
  exists x. by rewrite Hx.
Qed.

(** A list without repetition of vertices of [1, n] has at most [n]
    members. *)
Lemma length_vertices_le (n : Z) (ns : list Z) :
  0 ≤ n → NoDup ns → (∀ x, x ∈ ns → 1 ≤ x ≤ n) → Z.of_nat (length ns) ≤ n.
Proof.
  intros Hn Hnd Hin.
  assert (ns ⊆+ range1 n) as Hsub.
  { apply NoDup_submseteq; [done|]. intros x Hx. apply elem_of_seqZ. specialize (Hin x Hx). lia. }
  apply submseteq_length in Hsub. unfold range1 in Hsub. rewrite length_seqZ in Hsub. lia.
Qed.

Section degree_metrics.
Context {R : Type} `{FaithfulRepresentation R} `{FloatArithmetic}.

(** The degree list of a graph: one entry per vertex, each between 0 and
    the number of vertices. *)
Lemma degrees_of_range cs (g : Graph.t R) : models cs g →
  ∃ ds, Graph.degrees_of g (range1 (Graph.vertex_count g)) = Return ds ∧
        length ds = Z.to_nat (Graph.vertex_count g) ∧
        (∀ d, d ∈ ds ↔ ∃ v ns, 1 ≤ v ≤ Graph.vertex_count g ∧
                               Graph.get_neighbors g v = Return ns ∧
                               d = Z.of_nat (length ns)) ∧
        (∀ d, d ∈ ds → 0 ≤ d ≤ Graph.vertex_count g).
Proof.
  intros Hm.
  destruct (degrees_of_spec cs g (range1 (Graph.vertex_count g)) Hm) as (ds & Hds & Hall & _).
  { intros v Hv. apply elem_of_seqZ in Hv. lia. }
  exists ds. split; [done|].
  assert (∀ d, d ∈ ds ↔ ∃ v ns, 1 ≤ v ≤ Graph.vertex_count g ∧
                               Graph.get_neighbors g v = Return ns ∧
                               d = Z.of_nat (length ns)) as Hin.
  { intros d. split.
    - intros Hd. apply list_elem_of_lookup in Hd as [i Hi].
      destruct (Forall2_lookup_r _ _ _ _ _ Hall Hi) as (v & Hv & ns & Hns & ->).
      apply list_elem_of_lookup_2, elem_of_seqZ in Hv. exists v, ns. split; [lia|done].
    - intros (v & ns & Hv & Hns & ->).
      assert (v ∈ range1 (Graph.vertex_count g)) as Hvin by (apply elem_of_seqZ; lia).
      apply list_elem_of_lookup in Hvin as [i Hi].
      destruct (Forall2_lookup_l _ _ _ _ _ Hall Hi) as (d & Hd & ns' & Hns' & ->).
      rewrite Hns in Hns'. injection Hns' as <-. by eapply list_elem_of_lookup_2. }
  split; [|split; [done|]].
  - apply Forall2_length in Hall. rewrite <- Hall. unfold range1. by rewrite length_seqZ.
  - intros d (v & ns & Hv & Hns & ->)%Hin.
    destruct (neighbors_of_model cs g v Hm Hv) as (ns' & Hns' & Hnd & _ & Hrange).
    rewrite Hns in Hns'. injection Hns' as <-. split; [lia|].
    apply length_vertices_le; [pose proof (models_pos _ _ Hm); unfold Graph.vertex_count; lia|done|].
    intros x Hx. by apply Hrange.
Qed.

Lemma calculate_all_degrees_result cs (g : Graph.t R) : models cs g →
  ∃ ds, Graph._calculate_all_degrees g
          = (Return ds, Graph.mk (Graph._num_vertices g) (Graph._representation g) (Some ds)) ∧
        Graph.degrees_of g (range1 (Graph.vertex_count g)) = Return ds.
Proof.
  intros Hm. unfold Graph._calculate_all_degrees.
  destruct (Graph._all_degrees_cache g) as [ds|] eqn:Hcache.
  - exists ds. split; [|by apply (models_cache _ _ Hm)].
    f_equal. destruct g. simpl in *. by subst.
  - destruct (degrees_of_range cs g Hm) as (ds & Hds & _).
    exists ds. by rewrite Hds.
Qed.

Lemma median_of_spec (sd : list Z) : sd ≠ [] →
  let n := Z.of_nat (length sd) in
  ∃ m, Graph.median_of sd = Return m ∧
       (n `mod` 2 = 1 → ∃ mid, sd !! Z.to_nat (n `div` 2) = Some mid ∧ m = Int mid) ∧
       (n `mod` 2 = 0 → ∃ mid1 mid2, sd !! Z.to_nat (n `div` 2 - 1) = Some mid1 ∧
                                     sd !! Z.to_nat (n `div` 2) = Some mid2 ∧
                                     m = Float (truediv (mid1 + mid2) 2)).
Proof.
  intros Hne n. unfold Graph.median_of. fold n.
  assert (0 < n) as Hn by (destruct sd; [done|simpl in *; lia]).
  rewrite decide_True by lia.
  pose proof (Z.mod_pos_bound n 2 ltac:(lia)) as Hmod.
  pose proof (Z.div_mod n 2 ltac:(lia)) as Hdiv.
  case_decide as Hodd.
  - destruct (list_getitem_in_range sd (n `div` 2)) as (mid & -> & Hmid); [lia|].
    simpl. eexists. split; [reflexivity|]. split; [eauto|lia].
  - destruct (list_getitem_in_range sd (n `div` 2 - 1)) as (mid1 & -> & Hmid1); [lia|].
    destruct (list_getitem_in_range sd (n `div` 2)) as (mid2 & -> & Hmid2); [lia|].
    simpl. eexists. split; [reflexivity|]. split; [lia|eauto 10].
Qed.

End degree_metrics.

(** X13: [get_degree_metrics] succeeds on every graph and leaves the degree
    list in the cache.  The minimum and the maximum are degrees of vertices
    and bound the degree of every vertex, between 0 and the number of
    vertices; the average is [np.mean] of the degree list; the median is the
    middle entry of the ascending degree list when the number of vertices is
    odd, and the quotient by 2 of the sum of the two middle entries, a
    float, when it is even. *)
Theorem degree_metrics_describe_the_degrees {R : Type} `{FaithfulRepresentation R}
    `{FloatArithmetic} (N : Z) (cs : list Graph.call) :
  0 < N →
  ∃ (g : Graph.t R) ds m sd,
    Graph.build N cs = Return g ∧
    Graph.degrees_of g (range1 N) = Return ds ∧
    Graph.get_degree_metrics g
      = (Return m, Graph.mk (Graph._num_vertices g) (Graph._representation g) (Some ds)) ∧
    (∃ v ns, 1 ≤ v ≤ N ∧ Graph.get_neighbors g v = Return ns ∧
             Graph.min_degree m = Z.of_nat (length ns)) ∧
    (∃ v ns, 1 ≤ v ≤ N ∧ Graph.get_neighbors g v = Return ns ∧
             Graph.max_degree m = Z.of_nat (length ns)) ∧
    (∀ v, 1 ≤ v ≤ N → ∃ ns, Graph.get_neighbors g v = Return ns ∧
       Graph.min_degree m ≤ Z.of_nat (length ns) ≤ Graph.max_degree m) ∧
    0 ≤ Graph.min_degree m ∧ Graph.max_degree m ≤ N ∧
    Graph.avg_degree m = Float (np_mean ds) ∧
    sd ≡ₚ ds ∧ StronglySorted Z.le sd ∧
    (N `mod` 2 = 1 → ∃ mid, sd !! Z.to_nat (N `div` 2) = Some mid ∧
       Graph.median_degree m = Int mid) ∧
    (N `mod` 2 = 0 → ∃ mid1 mid2, sd !! Z.to_nat (N `div` 2 - 1) = Some mid1 ∧
       sd !! Z.to_nat (N `div` 2) = Some mid2 ∧
       Graph.median_degree m = Float (truediv (mid1 + mid2) 2)).
Proof.
  intros HN. destruct (models_build (R := R) N cs HN) as (g & Hg & HNg & Hm).
  destruct (calculate_all_degrees_result cs g Hm) as (ds & Hcalc & Hds).
  destruct (degrees_of_range cs g Hm) as (ds' & Hds' & Hlen & Hin & Hbound).
  rewrite Hds in Hds'. injection Hds' as <-. subst N.
  assert (ds ≠ []) as Hne by (intros ->; simpl in Hlen; lia).
  set (sd := sorted id false ds).
  assert (sd ≡ₚ ds) as Hperm by apply sorted_Permutation.
  assert (sd ≠ []) as Hsne.
  { intros Hnil. rewrite Hnil in Hperm. by apply Permutation_nil_l in Hperm. }
  destruct (median_of_spec sd Hsne) as (med & Hmed & Hodd & Heven).
  assert (Z.of_nat (length sd) = Graph.vertex_count g) as Hsl by (rewrite Hperm, Hlen; lia).
  rewrite Hsl in Hodd, Heven.
  destruct (py_min_spec ds Hne) as (mn & Hmn & Hmnin & Hmnle).
  destruct (py_max_spec ds Hne) as (mx & Hmx & Hmxin & Hmxle).
  exists g, ds, {| Graph.min_degree := mn; Graph.max_degree := mx;
                   Graph.avg_degree := Float (np_mean ds); Graph.median_degree := med |}, sd.
  split; [done|]. split; [done|]. split.
  { unfold Graph.get_degree_metrics. rewrite Hcalc. fold sd. rewrite Hmed. simpl.
    destruct ds as [|d ds0]; [done|]. by rewrite Hmn, Hmx. }
  simpl. split; [by apply Hin|]. split; [by apply Hin|]. split.
  { intros v Hv. destruct (neighbors_of_model cs g v Hm Hv) as (ns & Hns & _).
    exists ns. split; [done|].
    assert (Z.of_nat (length ns) ∈ ds) as Hd by (apply Hin; eauto).
    split; [by apply Hmnle|by apply Hmxle]. }
  split; [by apply Hbound|]. split; [by apply Hbound|].
  split; [done|]. split; [done|]. split; [|done].
  apply (sorted_StronglySorted id false).
Qed.

(** * Levels are below the vertex count *)

Section level_bound.
Context {R : Type} `{GraphRepresentation R}.
Variable g : Graph.t R.
Variable s : Z.
Variables (P : gmap Z (option Z)) (L : gmap Z Z).
Hypothesis Htree : parent_tree g s P L.
Hypothesis Hstart : L !! s = Some 0.
Hypothesis Hdom : ∀ v, is_Some (L !! v) → 1 ≤ v ≤ Graph.vertex_count g.

(** Below a vertex of level [n] the tree has a vertex of every smaller
    level. *)
Lemma tree_chain (n : nat) v : L !! v = Some (Z.of_nat n) →
  ∃ X : gset Z, size X = S n ∧
    ∀ x, x ∈ X → ∃ k : nat, (k ≤ n)%nat ∧ L !! x = Some (Z.of_nat k).
Proof.
  destruct Htree as [Hpar Hreached].
  revert v. induction n as [|n IH]; intros v Hl.
  - exists {[v]}. split; [apply size_singleton|].
    intros x ->%elem_of_singleton. by exists 0%nat.
  - assert (v ≠ s) as Hvs by (intros ->; rewrite Hstart in Hl; injection Hl; lia).
    destruct (Hreached v _ Hl ltac:(lia) Hvs) as [p Hp].
    destruct (Hpar v p Hp) as (_ & lp & Hlp & Hlp0 & Hlv).
    rewrite Hl in Hlv. injection Hlv as Hlv.
    destruct (IH p) as (X & Hsize & HX); [rewrite Hlp; f_equal; lia|].
    exists (X ∪ {[v]}). split.
    + rewrite size_union, size_singleton; [lia|].
      apply disjoint_singleton_r. intros (k & Hk & Hlk)%HX.
      rewrite Hl in Hlk. injection Hlk. lia.
    + intros x [Hx| ->%elem_of_singleton]%elem_of_union.
      * destruct (HX x Hx) as (k & Hk & Hlk). exists k. split; [lia|done].
      * by exists (S n).
Qed.

Lemma tree_levels_bounded v l : L !! v = Some l → -1 ≤ l < Graph.vertex_count g.
Proof.
  intros Hl.
  assert (0 < Graph.vertex_count g) as HN by (specialize (Hdom s ltac:(eauto)); lia).
  destruct (decide (l = -1)) as [->|Hne]; [lia|].
  assert (0 ≤ l) as Hl0.
  { destruct (decide (v = s)) as [->|Hvs]; [rewrite Hstart in Hl; injection Hl; lia|].
    destruct Htree as [Hpar Hreached].
    destruct (Hreached v l Hl Hne Hvs) as [p Hp].
    destruct (Hpar v p Hp) as (_ & lp & _ & Hlp0 & Hlv).
    rewrite Hl in Hlv. injection Hlv. lia. }
  split; [lia|].
  destruct (tree_chain (Z.to_nat l) v) as (X & Hsize & HX); [rewrite Hl; f_equal; lia|].
  assert (X ⊆ vertex_set (Graph.vertex_count g)) as Hsub.
  { intros x (k & _ & Hk)%HX. apply elem_of_vertex_set. apply Hdom. eauto. }
  apply subseteq_size in Hsub. rewrite size_vertex_set in Hsub. lia.
Qed.

End level_bound.

(** X14: in a graph of [N] vertices every level of a breadth-first or a
    depth-first search is between -1 and [N - 1], and so is every answer of
    [get_distance]; the diameter is between 0 and [N - 1]. *)
Theorem levels_are_below_the_vertex_count {R : Type} `{FaithfulRepresentation R}
    (N : Z) (cs : list Graph.call) :
  0 < N →
  ∃ (g : Graph.t R) d,
    Graph.build N cs = Return g ∧
    Graph.get_diameter g = Some (Return d) ∧ 0 ≤ d < N ∧
    ∀ s, 1 ≤ s ≤ N →
      (∃ P L, Graph.breadth_first_search g s = Some (Return (P, L)) ∧
              ∀ v l, L !! v = Some l → -1 ≤ l < N) ∧
      (∃ P L, Graph.depth_first_search g s = Some (Return (P, L)) ∧
              ∀ v l, L !! v = Some l → -1 ≤ l < N) ∧
      (∀ v, 1 ≤ v ≤ N →
         ∃ x, Graph.get_distance g s v = Some (Return x) ∧ -1 ≤ x < N).
Proof.
  intros HN. destruct (models_build (R := R) N cs HN) as (g & Hg & HNg & Hm).
  pose proof (models_searchable _ _ Hm) as Hsearch. subst N.
  assert (∀ s, 1 ≤ s ≤ Graph.vertex_count g →
            ∃ P L, Graph.breadth_first_search g s = Some (Return (P, L)) ∧
                   bfs_inv g s [] (Graph.mk_bfs P L []) ∧
                   ∀ v l, L !! v = Some l → -1 ≤ l < Graph.vertex_count g) as Hbfs.
  { intros s Hs. destruct (bfs_tree_spec g Hsearch s Hs) as (P & L & HPL & Hinv & Htree).
    exists P, L. split; [done|]. split; [done|].
    apply (tree_levels_bounded g s P L Htree (bi_start _ _ _ _ Hinv)).
    intros v Hv. by apply (bi_dom _ _ _ _ Hinv). }
  destruct (get_diameter_spec g Hsearch) as (d & Hd & (u & v & Hu & Hv & Huv) & _).
  exists g, (Z.of_nat d). split; [done|]. split; [done|]. split.
  - destruct (Hbfs u Hu) as (P & L & _ & Hinv & Hbound).
    destruct (bfs_levels_spec g u P L Hinv) as (_ & _ & _ & Hdist).
    apply Hdist in Huv. apply Hbound in Huv. lia.
  - intros s Hs. split; [|split].
    + destruct (Hbfs s Hs) as (P & L & HPL & _ & Hbound). eauto.
    + destruct (dfs_tree_spec g Hsearch s Hs) as (P & L & V & HPL & Hinv & Htree).
      exists P, L. split; [done|].
      apply (tree_levels_bounded g s P L Htree (di_start _ _ _ _ Hinv)).
      intros v' Hv'. by apply (di_dom _ _ _ _ Hinv).
    + intros w Hw. destruct (Hbfs s Hs) as (P & L & HPL & Hinv & Hbound).
      destruct (proj2 (bi_dom _ _ _ _ Hinv w) Hw) as [x Hx]. simpl in Hx.
      exists x. split; [|by apply (Hbound w)].
      unfold Graph.get_distance, getitem. rewrite HPL. cbn [search_bind snd]. by rewrite Hx.
Qed.

(** * Only the inserted pairs matter *)

Lemma models_same_edges {R1 R2 : Type}
    `{FaithfulRepresentation R1} `{FaithfulRepresentation R2}
    (cs1 cs2 : list Graph.call) (g1 : Graph.t R1) (g2 : Graph.t R2) :
  models cs1 g1 → models cs2 g2 → Graph.vertex_count g1 = Graph.vertex_count g2 →
  inserted_edges (Graph.vertex_count g1) cs1 = inserted_edges (Graph.vertex_count g1) cs2 →
  same_neighbors g1 g2.
Proof.
  intros Hm1 Hm2 HN Hsame. split; [done|]. intros u.
  destruct (decide (1 ≤ u ≤ Graph.vertex_count g1)) as [Hu|Hu].
  - destruct (neighbors_of_model cs1 g1 u Hm1 Hu) as (n1 & Hn1 & Hnd1 & _ & Hin1).
    pose proof Hu as Hu2. rewrite HN in Hu2.
    destruct (neighbors_of_model cs2 g2 u Hm2 Hu2) as (n2 & Hn2 & Hnd2 & _ & Hin2).
    rewrite Hn1, Hn2. apply NoDup_Permutation; [done..|].
    intros x. rewrite Hin1, Hin2, <- HN.
    pose proof (elem_of_inserted_edges (Graph.vertex_count g1) cs1 u x) as He1.
    pose proof (elem_of_inserted_edges (Graph.vertex_count g1) cs2 u x) as He2.
    rewrite Hsame in He1. tauto.
  - rewrite get_neighbors_invalid by done. rewrite HN in Hu.
    by rewrite get_neighbors_invalid.
Qed.

(** X15: a graph is determined by the set of unordered pairs it accepted.
    Two sequences of calls that insert the same pairs, in any order, with
    any repetition and in any two representations, give graphs with the
    same edge count, neighbour lists with the same members, the same levels
    of breadth-first search, the same answers of [get_distance] and the same
    result of [depth_first_search]. *)
Theorem graphs_depend_only_on_the_inserted_pairs {R1 R2 : Type}
    `{FaithfulRepresentation R1} `{FaithfulRepresentation R2}
    (N : Z) (cs1 cs2 : list Graph.call) :
  0 < N → inserted_edges N cs1 = inserted_edges N cs2 →
  ∃ (g1 : Graph.t R1) (g2 : Graph.t R2),
    Graph.build N cs1 = Return g1 ∧ Graph.build N cs2 = Return g2 ∧
    Graph.edge_count g1 = Graph.edge_count g2 ∧
    (∀ v, 1 ≤ v ≤ N →
       ∃ n1 n2, Graph.get_neighbors g1 v = Return n1 ∧
                Graph.get_neighbors g2 v = Return n2 ∧ n1 ≡ₚ n2) ∧
    (∀ s, 1 ≤ s ≤ N →
       (∃ P1 P2 L, Graph.breadth_first_search g1 s = Some (Return (P1, L)) ∧
                   Graph.breadth_first_search g2 s = Some (Return (P2, L))) ∧
       Graph.depth_first_search g1 s = Graph.depth_first_search g2 s ∧
       ∀ v, Graph.get_distance g1 s v = Graph.get_distance g2 s v).
Proof.
  intros HN Hsame.
  destruct (models_build (R := R1) N cs1 HN) as (g1 & Hg1 & HN1 & Hm1).
  destruct (models_build (R := R2) N cs2 HN) as (g2 & Hg2 & HN2 & Hm2).
  destruct (edge_count_counts_pairs (R := R1) N cs1 HN) as (g1' & Hg1' & He1).
  destruct (edge_count_counts_pairs (R := R2) N cs2 HN) as (g2' & Hg2' & He2).
  rewrite Hg1 in Hg1'. injection Hg1' as <-. rewrite Hg2 in Hg2'. injection Hg2' as <-.
  assert (same_neighbors g1 g2) as Hnb.
  { apply (models_same_edges cs1 cs2); [done|done|congruence|by rewrite HN1]. }
  pose proof (models_searchable _ _ Hm1) as Hs1.
  pose proof (models_searchable _ _ Hm2) as Hs2.
  exists g1, g2. split; [done|]. split; [done|].
  split; [by rewrite He1, He2, Hsame|]. split.
  - intros v Hv. destruct Hnb as [_ Hnb]. specialize (Hnb v).
    rewrite <- HN1 in Hv.
    destruct (neighbors_of_model cs1 g1 v Hm1 Hv) as (n1 & Hn1 & _).
    rewrite Hn1 in Hnb. destruct (Graph.get_neighbors g2 v) as [n2|]; [|done]. eauto.
  - intros s Hs.
    destruct (bfs_returns g1 Hs1 s ltac:(lia)) as (P1 & L1 & Hbfs1 & Hinv1).
    destruct (bfs_returns g2 Hs2 s ltac:(lia)) as (P2 & L2 & Hbfs2 & Hinv2).
    pose proof (bfs_levels_agree g1 g2 s P1 L1 P2 L2 Hnb Hinv1 Hinv2) as <-.
    split; [by exists P1, P2, L1|]. split.
    + by apply depth_first_search_agree.
    + intros v. unfold Graph.get_distance. by rewrite Hbfs1, Hbfs2.
Qed.

(** * The statements on examples *)

#[local] Existing Instance elements_iteration.

(** The example graph run through the model: three edges, distances 2 and
    unreached, diameter 2, components of sizes 3 and 2. *)
Example example_dense_values :
  Graph.build 5 example_calls = Return example_dense ∧
  Graph.edge_count example_dense = 3 ∧
  Graph.get_neighbors example_dense 2 = Return [1; 3] ∧
  Graph.get_distance example_dense 1 3 = Some (Return 2) ∧
  Graph.get_distance example_dense 1 4 = Some (Return (-1)) ∧
  Graph.get_diameter example_dense = Some (Return 2) ∧
  Graph.get_connected_components example_dense
  = Some (Return [Graph.mk_component 3 [1; 2; 3]; Graph.mk_component 2 [4; 5]]) ∧
  (Graph._calculate_all_degrees example_dense).1 = Return [1; 2; 1; 1; 1].
Proof. repeat split; vm_compute; reflexivity. Qed.

(** The same calls on the sparse representation. *)
Example example_sparse_values :
  ∃ g : Graph.t AdjacencyList.t,
    Graph.build 5 example_calls = Return g ∧
    Graph.edge_count g = 3 ∧
    Graph.get_distance g 1 3 = Some (Return 2) ∧
    Graph.get_distance g 1 4 = Some (Return (-1)) ∧
    Graph.get_diameter g = Some (Return 2) ∧
    Graph.get_connected_components g
    = Some (Return [Graph.mk_component 3 [1; 2; 3]; Graph.mk_component 2 [4; 5]]).
Proof. eexists. repeat split; vm_compute; reflexivity. Qed.

(** C1 on the example graph, searched from vertex 1. *)
Lemma bfs_levels_are_shortest_hop_counts_witness :
  1 ≤ 1 ≤ 5 ∧
  ∃ (gS : Graph.t AdjacencyList.t) (gD : Graph.t AdjacencyMatrix.t) pS pD levels,
    Graph.build 5 example_calls = Return gS ∧ Graph.build 5 example_calls = Return gD ∧
    Graph.breadth_first_search gS 1 = Some (Return (pS, levels)) ∧
    Graph.breadth_first_search gD 1 = Some (Return (pD, levels)) ∧
    levels_are_distances gS 1 levels ∧ levels_are_distances gD 1 levels.
Proof.
  split; [lia|]. apply (bfs_levels_are_shortest_hop_counts 5 example_calls 1). lia.
Defined.

(** C2 as stated fails on a graph with one vertex and the self-loop (1, 1),
    in both representations: the call succeeds, the only degree is 1 and
    the edge count is 1. *)
Lemma handshake_fails_with_self_loop :
  (∃ (g : Graph.t AdjacencyMatrix.t) ds,
     Graph.build 1 [Graph.AddEdge 1 1] = Return g ∧
     Graph.get_neighbors g 1 = Return [1] ∧
     (Graph._calculate_all_degrees g).1 = Return ds ∧
     Graph.edge_count g = 1 ∧
     total ds ≠ 2 * Graph.edge_count g) ∧
  (∃ (g : Graph.t AdjacencyList.t) ds,
     Graph.build 1 [Graph.AddEdge 1 1] = Return g ∧
     Graph.get_neighbors g 1 = Return [1] ∧
     (Graph._calculate_all_degrees g).1 = Return ds ∧
     Graph.edge_count g = 1 ∧
     total ds ≠ 2 * Graph.edge_count g).
Proof.
  split; eexists; exists [1]; (split; [vm_compute; reflexivity|]);
    (split; [vm_compute; reflexivity|]); (split; [vm_compute; reflexivity|]);
    (split; [vm_compute; reflexivity|]); vm_compute; discriminate.
Qed.

(** C2 as amended, on the example graph. *)
Lemma degrees_and_handshake_witness :
  0 < 5 ∧
  ∃ (g : Graph.t AdjacencyMatrix.t) ds,
    Graph.build 5 example_calls = Return g ∧
    (Graph._calculate_all_degrees g).1 = Return ds ∧
    length ds = Z.to_nat 5 ∧
    (∀ v, 1 ≤ v ≤ 5 → ∃ ns, Graph.get_neighbors g v = Return ns ∧
                            ds !! Z.to_nat (v - 1) = Some (Z.of_nat (length ns))) ∧
    total ds + self_loops g = 2 * Graph.edge_count g ∧
    ((∀ u, Graph.AddEdge u u ∉ example_calls) → total ds = 2 * Graph.edge_count g).
Proof.
  split; [lia|]. apply (degrees_and_handshake 5 example_calls). lia.
Defined.

(** C3: on a graph with three vertices [get_distance(1, 7)] raises
    [KeyError], where [get_distance(7, 1)], [get_neighbors(7)],
    [add_edge(1, 7)] and both searches from 7 raise [ValueError]. *)
Theorem get_distance_does_not_check_its_target :
  ∃ g : Graph.t AdjacencyMatrix.t,
    Graph.build 3 [] = Return g ∧
    Graph.get_distance g 1 7 = Some (Raise KeyError) ∧
    Graph.get_distance g 7 1 = Some (Raise ValueError) ∧
    Graph.get_neighbors g 7 = Raise ValueError ∧
    (Graph.add_edge 1 7 g).1 = Raise ValueError ∧
    Graph.breadth_first_search g 7 = Some (Raise ValueError) ∧
    Graph.depth_first_search g 7 = Some (Raise ValueError).
Proof. eexists. repeat split; vm_compute; reflexivity. Qed.

(** C4 on the example graph. *)
Lemma adjacency_is_symmetric_witness :
  0 < 5 ∧
  ∃ g : Graph.t AdjacencyMatrix.t, Graph.build 5 example_calls = Return g ∧
    ∀ u v, 1 ≤ u ≤ 5 → 1 ≤ v ≤ 5 →
      ∃ nu nv, Graph.get_neighbors g u = Return nu ∧
               Graph.get_neighbors g v = Return nv ∧
               (v ∈ nu ↔ u ∈ nv).
Proof.
  split; [lia|]. apply (adjacency_is_symmetric 5 example_calls). lia.
Defined.

(** C5 on the example graph, for the pair (1, 3). *)
Lemma add_edge_is_idempotent_witness :
  1 ≤ 1 ≤ 5 ∧ 1 ≤ 3 ≤ 5 ∧
  ∃ g : Graph.t AdjacencyMatrix.t, Graph.build 5 example_calls = Return g ∧
    (Graph.add_edge 1 3 g).1 = Return () ∧
    ∀ a b, (a = 1 ∧ b = 3) ∨ (a = 3 ∧ b = 1) →
      let g1 := (Graph.add_edge 1 3 g).2 in
      let g2 := (Graph.add_edge a b g1).2 in
      (Graph.add_edge a b g1).1 = Return () ∧
      Graph.edge_count g2 = Graph.edge_count g1 ∧
      ∀ w, Graph.get_neighbors g2 w = Graph.get_neighbors g1 w.
Proof.
  split; [lia|]. split; [lia|].
  apply (add_edge_is_idempotent 5 example_calls 1 3); lia.
Defined.

(** C6 on the example graph, searched from vertex 1. *)
Lemma dfs_is_representation_invariant_witness :
  1 ≤ 1 ≤ 5 ∧
  ∃ (gS : Graph.t AdjacencyList.t) (gD : Graph.t AdjacencyMatrix.t) parents depths,
    Graph.build 5 example_calls = Return gS ∧ Graph.build 5 example_calls = Return gD ∧
    Graph.depth_first_search gS 1 = Some (Return (parents, depths)) ∧
    Graph.depth_first_search gD 1 = Some (Return (parents, depths)).
Proof.
  split; [lia|]. apply (dfs_is_representation_invariant 5 example_calls 1). lia.
Defined.

(** C7 on the example graph. *)
Lemma diameter_is_largest_distance_witness :
  0 < 5 ∧
  ∃ (g : Graph.t AdjacencyMatrix.t) (d : nat),
    Graph.build 5 example_calls = Return g ∧
    Graph.get_diameter g = Some (Return (Z.of_nat d)) ∧
    (∃ u v, 1 ≤ u ≤ 5 ∧ 1 ≤ v ≤ 5 ∧ distance g u v d ∧
            Graph.get_distance g u v = Some (Return (Z.of_nat d))) ∧
    (∀ u v, 1 ≤ u ≤ 5 → 1 ≤ v ≤ 5 →
       ∃ x, Graph.get_distance g u v = Some (Return x) ∧ x ≤ Z.of_nat d ∧
            (x = -1 ↔ ¬ connected g u v) ∧
            (∀ n, distance g u v n ↔ x = Z.of_nat n)) ∧
    (5 = 1 → d = 0%nat).
Proof.
  split; [lia|]. apply (diameter_is_largest_distance 5 example_calls). lia.
Defined.

(** C8 on the example graph. *)
Lemma components_partition_the_vertices_witness :
  0 < 5 ∧
  ∃ (g : Graph.t AdjacencyMatrix.t) comps,
    Graph.build 5 example_calls = Return g ∧
    Graph.get_connected_components g = Some (Return comps) ∧
    mjoin (Graph.vertices <$> comps) ≡ₚ range1 5 ∧
    (∀ v, 1 ≤ v ≤ 5 →
       ∃ i c, comps !! i = Some c ∧ v ∈ Graph.vertices c ∧
              ∀ j c', comps !! j = Some c' → v ∈ Graph.vertices c' → j = i) ∧
    (∀ c, c ∈ comps →
       Graph.size c = Z.of_nat (length (Graph.vertices c)) ∧
       StronglySorted Z.lt (Graph.vertices c) ∧
       component_min c ∈ Graph.vertices c ∧
       (∀ x, x ∈ Graph.vertices c → 1 ≤ x ≤ 5 ∧ component_min c ≤ x)) ∧
    sizes_total comps = 5 ∧
    StronglySorted (λ c1 c2, Graph.size c2 ≤ Graph.size c1) comps ∧
    (∀ i j c1 c2, (i < j)%nat → comps !! i = Some c1 → comps !! j = Some c2 →
       Graph.size c1 = Graph.size c2 → component_min c1 < component_min c2).
Proof.
  split; [lia|]. apply (components_partition_the_vertices 5 example_calls). lia.
Defined.

(** C9 on the example graph, for the call [add_edge(0, 2)]. *)
Lemma rejected_add_edge_changes_nothing_witness :
  ¬ (1 ≤ 0 ≤ Graph.vertex_count example_dense
     ∧ 1 ≤ 2 ≤ Graph.vertex_count example_dense) ∧
  (Graph.add_edge 0 2 example_dense).1 = Raise ValueError ∧
  (Graph.add_edge 0 2 example_dense).2 = example_dense ∧
  Graph.edge_count (Graph.add_edge 0 2 example_dense).2 = Graph.edge_count example_dense ∧
  (∀ w, Graph.get_neighbors (Graph.add_edge 0 2 example_dense).2 w
        = Graph.get_neighbors example_dense w) ∧
  Graph._all_degrees_cache (Graph.add_edge 0 2 example_dense).2
  = Graph._all_degrees_cache example_dense.
Proof.
  assert (¬ (1 ≤ 0 ≤ Graph.vertex_count example_dense
             ∧ 1 ≤ 2 ≤ Graph.vertex_count example_dense)) as Hno by (cbn; lia).
  split; [exact Hno|]. apply (rejected_add_edge_changes_nothing example_dense 0 2 Hno).
Defined.

(** C10 on the example graph, searched from vertex 1. *)
Lemma searches_return_total_maps_witness :
  1 ≤ 1 ≤ 5 ∧
  ∃ (g : Graph.t AdjacencyMatrix.t) bfs_parents bfs_levels dfs_parents dfs_levels,
    Graph.build 5 example_calls = Return g ∧
    Graph.breadth_first_search g 1 = Some (Return (bfs_parents, bfs_levels)) ∧
    Graph.depth_first_search g 1 = Some (Return (dfs_parents, dfs_levels)) ∧
    search_maps_shape 5 1 bfs_parents bfs_levels ∧
    search_maps_shape 5 1 dfs_parents dfs_levels ∧
    ∀ v, 1 ≤ v ≤ 5 →
      (bfs_levels !! v = Some (-1) ↔ ¬ connected g 1 v) ∧
      (dfs_levels !! v = Some (-1) ↔ ¬ connected g 1 v) ∧
      (¬ connected g 1 v → bfs_parents !! v = bfs_parents !! 1 ∧
                           dfs_parents !! v = dfs_parents !! 1).
Proof.
  split; [lia|]. apply (searches_return_total_maps 5 example_calls 1). lia.
Defined.

(** ** The further statements on examples *)

#[local] Existing Instance fraction_arithmetic.

(** X1 for no vertex and for three vertices. *)
Lemma constructor_checks_the_vertex_count_witness :
  (0 ≤ 0 ∧ Graph.init (R := AdjacencyMatrix.t) 0 = Raise ValueError) ∧
  0 < 3 ∧
  ∃ g : Graph.t AdjacencyMatrix.t,
    Graph.init 3 = Return g ∧ Graph.vertex_count g = 3 ∧ Graph.edge_count g = 0 ∧
    Graph._all_degrees_cache g = None ∧
    ∀ v, 1 ≤ v ≤ 3 → Graph.get_neighbors g v = Return [].
Proof.
  split; [split; [lia|]|split; [lia|]].
  - apply (proj1 (constructor_checks_the_vertex_count 0)). lia.
  - apply (proj2 (constructor_checks_the_vertex_count 3)). lia.
Defined.

(** X2 on the example graph. *)
Lemma neighbors_are_the_added_partners_witness :
  0 < 5 ∧
  ∃ g : Graph.t AdjacencyMatrix.t,
    Graph.build 5 example_calls = Return g ∧
    ∀ w, 1 ≤ w ≤ 5 →
      ∃ ns, Graph.get_neighbors g w = Return ns ∧ NoDup ns ∧
            ∀ x, x ∈ ns ↔ 1 ≤ x ≤ 5 ∧ (Graph.AddEdge w x ∈ example_calls
                                        ∨ Graph.AddEdge x w ∈ example_calls).
Proof.
  split; [lia|]. apply (neighbors_are_the_added_partners 5 example_calls). lia.
Defined.

(** X3 on the example graph. *)
Lemma dense_neighbors_are_ascending_witness :
  0 < 5 ∧
  ∃ g : Graph.t AdjacencyMatrix.t,
    Graph.build 5 example_calls = Return g ∧
    ∀ v, 1 ≤ v ≤ 5 →
      ∃ ns, Graph.get_neighbors g v = Return ns ∧ StronglySorted Z.lt ns.
Proof.
  split; [lia|]. apply (dense_neighbors_are_ascending 5 example_calls). lia.
Defined.

(** X4 on the example graph, for the new pair (1, 3). *)
Lemma add_edge_links_both_endpoints_witness :
  1 ≤ 1 ≤ 5 ∧ 1 ≤ 3 ≤ 5 ∧
  ∃ g : Graph.t AdjacencyMatrix.t,
    Graph.build 5 example_calls = Return g ∧
    (Graph.add_edge 1 3 g).1 = Return () ∧
    Graph._all_degrees_cache (Graph.add_edge 1 3 g).2 = None ∧
    Graph.vertex_count (Graph.add_edge 1 3 g).2 = 5 ∧
    (∃ nu, Graph.get_neighbors g 1 = Return nu ∧
           Graph.edge_count (Graph.add_edge 1 3 g).2
           = Graph.edge_count g + (if decide (3 ∈ nu) then 0 else 1)) ∧
    ∀ w, 1 ≤ w ≤ 5 →
      ∃ ns ns', Graph.get_neighbors g w = Return ns ∧
                Graph.get_neighbors (Graph.add_edge 1 3 g).2 w = Return ns' ∧
                ∀ x, x ∈ ns' ↔ x ∈ ns ∨ (w = 1 ∧ x = 3) ∨ (w = 3 ∧ x = 1).
Proof.
  split; [lia|]. split; [lia|].
  apply (add_edge_links_both_endpoints 5 example_calls 1 3); lia.
Defined.

(** X5 on the example graph. *)
Lemma degree_cache_is_never_stale_witness :
  0 < 5 ∧
  ∃ (g : Graph.t AdjacencyMatrix.t) ds,
    Graph.build 5 example_calls = Return g ∧
    (Graph._calculate_all_degrees g).1 = Return ds ∧
    Graph.degrees_of g (range1 5) = Return ds ∧
    Graph._all_degrees_cache (Graph._calculate_all_degrees g).2 = Some ds ∧
    Graph._representation (Graph._calculate_all_degrees g).2 = Graph._representation g ∧
    Graph._calculate_all_degrees (Graph._calculate_all_degrees g).2
    = (Return ds, (Graph._calculate_all_degrees g).2).
Proof.
  split; [lia|]. apply (degree_cache_is_never_stale 5 example_calls). lia.
Defined.


(** X7 on the empty matrix of three vertices: vertex 0 is taken for
    vertex 3, vertex 7 is refused. *)
Lemma dense_vertex_numbers_wrap_around_witness :
  0 < 3 ∧
  length (AdjacencyMatrix._matrix example_empty_matrix) = Z.to_nat 3 ∧
  (1 - 3 ≤ 0 ≤ 0 ∧
   AdjacencyMatrix.add_edge 0 1 example_empty_matrix
   = AdjacencyMatrix.add_edge (0 + 3) 1 example_empty_matrix ∧
   AdjacencyMatrix.add_edge 1 0 example_empty_matrix
   = AdjacencyMatrix.add_edge 1 (0 + 3) example_empty_matrix ∧
   AdjacencyMatrix.get_neighbors example_empty_matrix 0
   = AdjacencyMatrix.get_neighbors example_empty_matrix (0 + 3)) ∧
  ((7 < 1 - 3 ∨ 3 < 7) ∧
   AdjacencyMatrix.add_edge 7 1 example_empty_matrix
   = (Raise IndexError, example_empty_matrix) ∧
   AdjacencyMatrix.add_edge 1 7 example_empty_matrix
   = (Raise IndexError, example_empty_matrix) ∧
   AdjacencyMatrix.get_neighbors example_empty_matrix 7 = Raise IndexError).
Proof.
  split; [lia|]. split; [reflexivity|]. split; (split; [lia|]).
  - apply (proj1 (dense_vertex_numbers_wrap_around 3 example_empty_matrix 0 1
                    ltac:(lia) eq_refl)).
    lia.
  - apply (proj2 (dense_vertex_numbers_wrap_around 3 example_empty_matrix 7 1
                    ltac:(lia) eq_refl)).
    lia.
Defined.

(** X8 on the example graph. *)
Lemma edge_count_counts_distinct_pairs_witness :
  0 < 5 ∧
  ∃ g : Graph.t AdjacencyMatrix.t,
    Graph.build 5 example_calls = Return g ∧
    Graph.edge_count g = Z.of_nat (size (inserted_edges 5 example_calls)) ∧
    ∀ u v, 1 ≤ u ≤ 5 → 1 ≤ v ≤ 5 →
      (edge_key u v ∈ inserted_edges 5 example_calls ↔
       ∃ ns, Graph.get_neighbors g u = Return ns ∧ v ∈ ns).
Proof.
  split; [lia|]. apply (edge_count_counts_distinct_pairs 5 example_calls). lia.
Defined.

(** X9 on the example graph. *)
Lemma get_distance_is_a_metric_witness :
  0 < 5 ∧
  ∃ g : Graph.t AdjacencyMatrix.t,
    Graph.build 5 example_calls = Return g ∧
    ∀ u v, 1 ≤ u ≤ 5 → 1 ≤ v ≤ 5 →
      ∃ d, Graph.get_distance g u v = Some (Return d) ∧
           Graph.get_distance g v u = Some (Return d) ∧
           -1 ≤ d ∧
           (d = 0 ↔ u = v) ∧
           (d = 1 ↔ u ≠ v ∧ adjacent g u v) ∧
           ∀ w e, 1 ≤ w ≤ 5 → Graph.get_distance g v w = Some (Return e) →
             0 ≤ d → 0 ≤ e →
             ∃ f, Graph.get_distance g u w = Some (Return f) ∧ 0 ≤ f ≤ d + e.
Proof.
  split; [lia|]. apply (get_distance_is_a_metric 5 example_calls). lia.
Defined.

(** X10 on the example graph, searched from vertex 1. *)
Lemma bfs_parents_form_a_shortest_path_tree_witness :
  1 ≤ 1 ≤ 5 ∧
  ∃ (g : Graph.t AdjacencyMatrix.t) P L,
    Graph.build 5 example_calls = Return g ∧
    Graph.breadth_first_search g 1 = Some (Return (P, L)) ∧
    P !! 1 = Some None ∧
    (∀ v p, P !! v = Some (Some p) →
       1 ≤ v ≤ 5 ∧ 1 ≤ p ≤ 5 ∧ adjacent g p v ∧
       ∃ n, distance g 1 p n ∧ distance g 1 v (S n)) ∧
    (∀ v, 1 ≤ v ≤ 5 → v ≠ 1 → connected g 1 v → ∃ p, P !! v = Some (Some p)) ∧
    (∀ v n, distance g 1 v n → ancestor P v 1 n).
Proof.
  split; [lia|]. apply (bfs_parents_form_a_shortest_path_tree 5 example_calls 1). lia.
Defined.

(** X11 on the example graph, searched from vertex 1. *)
Lemma dfs_parents_form_a_tree_witness :
  1 ≤ 1 ≤ 5 ∧
  ∃ (g : Graph.t AdjacencyMatrix.t) P L,
    Graph.build 5 example_calls = Return g ∧
    Graph.depth_first_search g 1 = Some (Return (P, L)) ∧
    (∀ v, 1 ≤ v ≤ 5 → (L !! v = Some (-1) ↔ ¬ connected g 1 v)) ∧
    (∀ v p, P !! v = Some (Some p) →
       1 ≤ v ≤ 5 ∧ 1 ≤ p ≤ 5 ∧ v ≠ 1 ∧ adjacent g p v ∧
       ∃ lp, L !! p = Some lp ∧ 0 ≤ lp ∧ L !! v = Some (lp + 1)) ∧
    (∀ v, 1 ≤ v ≤ 5 → v ≠ 1 → connected g 1 v → ∃ p, P !! v = Some (Some p)) ∧
    (∀ v l, L !! v = Some l → l ≠ -1 →
       0 ≤ l ∧ ancestor P v 1 (Z.to_nat l) ∧
       ∃ n, distance g 1 v n ∧ Z.of_nat n ≤ l).
Proof.
  split; [lia|]. apply (dfs_parents_form_a_tree 5 example_calls 1). lia.
Defined.

(** X12 on the example graph. *)
Lemma components_are_connectivity_classes_witness :
  0 < 5 ∧
  ∃ (g : Graph.t AdjacencyMatrix.t) comps,
    Graph.build 5 example_calls = Return g ∧
    Graph.get_connected_components g = Some (Return comps) ∧
    (∀ c u, c ∈ comps → u ∈ Graph.vertices c →
       ∀ v, v ∈ Graph.vertices c ↔ connected g u v) ∧
    (∀ u v, 1 ≤ u ≤ 5 → 1 ≤ v ≤ 5 →
       ((∃ c, c ∈ comps ∧ u ∈ Graph.vertices c ∧ v ∈ Graph.vertices c)
        ↔ connected g u v) ∧
       (connected g u v ↔ Graph.get_distance g u v ≠ Some (Return (-1)))).
Proof.
  split; [lia|]. apply (components_are_connectivity_classes 5 example_calls). lia.
Defined.

(** X13 on the example graph. *)
Lemma degree_metrics_describe_the_degrees_witness :
  0 < 5 ∧
  ∃ (g : Graph.t AdjacencyMatrix.t) ds m sd,
    Graph.build 5 example_calls = Return g ∧
    Graph.degrees_of g (range1 5) = Return ds ∧
    Graph.get_degree_metrics g
      = (Return m, Graph.mk (Graph._num_vertices g) (Graph._representation g) (Some ds)) ∧
    (∃ v ns, 1 ≤ v ≤ 5 ∧ Graph.get_neighbors g v = Return ns ∧
             Graph.min_degree m = Z.of_nat (length ns)) ∧
    (∃ v ns, 1 ≤ v ≤ 5 ∧ Graph.get_neighbors g v = Return ns ∧
             Graph.max_degree m = Z.of_nat (length ns)) ∧
    (∀ v, 1 ≤ v ≤ 5 → ∃ ns, Graph.get_neighbors g v = Return ns ∧
       Graph.min_degree m ≤ Z.of_nat (length ns) ≤ Graph.max_degree m) ∧
    0 ≤ Graph.min_degree m ∧ Graph.max_degree m ≤ 5 ∧
    Graph.avg_degree m = Float (np_mean ds) ∧
    sd ≡ₚ ds ∧ StronglySorted Z.le sd ∧
    (5 `mod` 2 = 1 → ∃ mid, sd !! Z.to_nat (5 `div` 2) = Some mid ∧
       Graph.median_degree m = Int mid) ∧
    (5 `mod` 2 = 0 → ∃ mid1 mid2, sd !! Z.to_nat (5 `div` 2 - 1) = Some mid1 ∧
       sd !! Z.to_nat (5 `div` 2) = Some mid2 ∧
       Graph.median_degree m = Float (truediv (mid1 + mid2) 2)).
Proof.
  split; [lia|]. apply (degree_metrics_describe_the_degrees 5 example_calls). lia.
Defined.

(** The metrics of the example graph, whose degrees are 1, 2, 1, 1, 1. *)
Example example_degree_metrics :
  (Graph.get_degree_metrics example_dense).1
  = Return {| Graph.min_degree := 1; Graph.max_degree := 2;
              Graph.avg_degree := Float (6, 5); Graph.median_degree := Int 1 |}.
Proof. vm_compute. reflexivity. Qed.

(** X14 on the example graph. *)
Lemma levels_are_below_the_vertex_count_witness :
  0 < 5 ∧
  ∃ (g : Graph.t AdjacencyMatrix.t) d,
    Graph.build 5 example_calls = Return g ∧
    Graph.get_diameter g = Some (Return d) ∧ 0 ≤ d < 5 ∧
    ∀ s, 1 ≤ s ≤ 5 →
      (∃ P L, Graph.breadth_first_search g s = Some (Return (P, L)) ∧
              ∀ v l, L !! v = Some l → -1 ≤ l < 5) ∧
      (∃ P L, Graph.depth_first_search g s = Some (Return (P, L)) ∧
              ∀ v l, L !! v = Some l → -1 ≤ l < 5) ∧
      (∀ v, 1 ≤ v ≤ 5 →
         ∃ x, Graph.get_distance g s v = Some (Return x) ∧ -1 ≤ x < 5).
Proof.
  split; [lia|]. apply (levels_are_below_the_vertex_count 5 example_calls). lia.
Defined.

(** X15 on the example graph, sparse, and the reordered calls, dense. *)
Lemma graphs_depend_only_on_the_inserted_pairs_witness :
  0 < 5 ∧ inserted_edges 5 example_calls = inserted_edges 5 reordered_calls ∧
  ∃ (g1 : Graph.t AdjacencyList.t) (g2 : Graph.t AdjacencyMatrix.t),
    Graph.build 5 example_calls = Return g1 ∧ Graph.build 5 reordered_calls = Return g2 ∧
    Graph.edge_count g1 = Graph.edge_count g2 ∧
    (∀ v, 1 ≤ v ≤ 5 →
       ∃ n1 n2, Graph.get_neighbors g1 v = Return n1 ∧
                Graph.get_neighbors g2 v = Return n2 ∧ n1 ≡ₚ n2) ∧
    (∀ s, 1 ≤ s ≤ 5 →
       (∃ P1 P2 L, Graph.breadth_first_search g1 s = Some (Return (P1, L)) ∧
                   Graph.breadth_first_search g2 s = Some (Return (P2, L))) ∧
       Graph.depth_first_search g1 s = Graph.depth_first_search g2 s ∧
       ∀ v, Graph.get_distance g1 s v = Graph.get_distance g2 s v).
Proof.
  split; [lia|]. split; [vm_compute; reflexivity|].
  apply (graphs_depend_only_on_the_inserted_pairs 5 example_calls reordered_calls);
    [lia|vm_compute; reflexivity].
Defined.
